(** * PocketSDR: fundamental GNSS SDR functions ([src/sdr_func.c])

    A shallow embedding of the signal-processing core of [sdr_func.c] and
    the properties of its natural-language specification.

    Conventions of the embedding.
    - C [int] values are integers of [Z]; the program's index arithmetic is
      assumed not to overflow.  The [uint32_t] phase accumulator of the
      carrier mixer is a [Z] reduced modulo [2^32] at every operation.
    - C [float] and [double] are IEEE-754 binary32 and binary64 numbers,
      represented by [spec_float] and computed with the operations of
      [SpecFloat] (round to nearest, ties to even) at precisions 24 and 53.
      A NaN of [spec_float] has neither sign nor payload: what is stated
      of a sign is stated of the numbers that are not NaNs.
    - A pointer argument is the function [Z -> T] giving the content of
      each cell it addresses; a function that writes through a pointer
      returns the content after the call.
    - The code compiled under [#ifdef AVX2] is modelled with the vector
      registers as lists of lanes; the flag [AVX2] of [mix_carr] and
      [dot_IQ_code] selects the build.
    - Functions of other libraries are not part of the sources: libm's
      [cos] and [sin] are the functions of the real numbers, libm's
      [log10f] and FFTW's transforms are parameters, RTKLIB's [lsq] is a
      parameter of [sdr_fine_dop] and is modelled in [Lsq] where a value
      has to be computed.

    - A C string is a [string] holding its characters before the
      terminating zero.

    The file has three parts: the definitions (the program, then the
    notions used to state its properties), the properties of its
    natural-language specification, and those of further functions. *)

From Stdlib Require Import ZArith List Bool Lia.
From Stdlib Require Import Floats.SpecFloat.
From Stdlib Require Import QArith Qfield.
From Stdlib Require Import Reals Lra Machin.
From Stdlib Require Strings.String.
Import ListNotations.
Import String.StringSyntax.
Delimit Scope string_scope with string.

Local Open Scope Z_scope.

(** * Part I: definitions *)

(** ** Loops and arrays *)

(** The integers [lo, lo+1, ..., hi-1]. *)
Definition rangeZ (lo hi : Z) : list Z :=
  map (fun k => lo + Z.of_nat k) (seq 0 (Z.to_nat (hi - lo))).

(** [for (k = lo; k < hi; k++) s = body k s]. *)
Definition for_loop {St : Type} (lo hi : Z) (body : Z -> St -> St) (s : St)
  : St :=
  fold_left (fun acc k => body k acc) (rangeZ lo hi) s.

(** The content of an array after the assignment [a[k] = v]. *)
Definition upd {A : Type} (a : Z -> A) (k : Z) (v : A) : Z -> A :=
  fun x => if x =? k then v else a x.

Definition zip_with {A B C : Type} (f : A -> B -> C) (a : list A) (b : list B)
  : list C :=
  map (fun ab => f (fst ab) (snd ab)) (combine a b).

(** ** IEEE-754 arithmetic of C [float] and [double] *)

Module F32.
Definition prec : Z := 24.
Definition emax : Z := 128.
Definition add := SFadd prec emax.
Definition sub := SFsub prec emax.
Definition mul := SFmul prec emax.
Definition div := SFdiv prec emax.
Definition leb := SFleb.
Definition ltb := SFltb.
Definition eqb := SFeqb.
(** Conversion of a C [int]. *)
Definition of_int (z : Z) : spec_float := binary_normalize prec emax z 0 false.
Definition zero : spec_float := S754_zero false.
Definition one : spec_float := of_int 1.
Definition ten : spec_float := of_int 10.
End F32.

Module F64.
Definition prec : Z := 53.
Definition emax : Z := 1024.
Definition add := SFadd prec emax.
Definition sub := SFsub prec emax.
Definition mul := SFmul prec emax.
Definition div := SFdiv prec emax.
Definition opp := SFopp.
Definition abs := SFabs.
Definition leb := SFleb.
Definition ltb := SFltb.
Definition eqb := SFeqb.
Definition of_int (z : Z) : spec_float := binary_normalize prec emax z 0 false.
Definition zero : spec_float := S754_zero false.
Definition one : spec_float := of_int 1.
Definition two : spec_float := of_int 2.
(** The [double] nearest to the ratio [a / b] of two integers that are
    themselves [double]s: the value of a decimal constant such as [1e-3]. *)
Definition of_ratio (a b : Z) : spec_float := div (of_int a) (of_int b).
End F64.

Definition float := spec_float.
Definition double := spec_float.

(** Implicit conversion [float -> double]: exact, the mantissa is only
    realigned to 53 bits. *)
Definition double_of_float (x : float) : double :=
  match x with
  | S754_finite s m e => binary_round F64.prec F64.emax s m e
  | _ => x
  end.

(** Conversion [double -> float]: rounds to 24 bits. *)
Definition float_of_double (x : double) : float :=
  match x with
  | S754_finite s m e => binary_round F32.prec F32.emax s m e
  | _ => x
  end.

(** The integer part of a finite number, rounded toward zero. *)
Definition SFtrunc (x : spec_float) : Z :=
  match x with
  | S754_finite s m e =>
      let a := if 0 <=? e then Z.pos m * 2 ^ e else Z.pos m / 2 ^ (- e) in
      if s then - a else a
  | _ => 0
  end.

(** [(int)x] for a [double] [x].  C defines the conversion when the integer
    part of [x] fits an [int]; otherwise the definition gives the result of
    the x86 conversion ([cvttsd2si]), [INT_MIN]. *)
Definition int_of_double (x : double) : Z :=
  match x with
  | S754_infinity _ | S754_nan => - 2 ^ 31
  | _ =>
      let t := SFtrunc x in
      if (- 2 ^ 31 <=? t) && (t <? 2 ^ 31) then t else - 2 ^ 31
  end.

Definition u32 (z : Z) : Z := z mod 2 ^ 32.

(** [(uint32_t)x] for a [double] [x].  C defines the conversion for
    [-1 < x < 2^32] only, where it is the integer part of [x].  Beyond, the
    definition follows the x86-64 code of the conversion (a 64-bit
    [cvttsd2si], of which the low 32 bits are kept): the integer part modulo
    [2^32] when it fits 64 bits, and [0] otherwise. *)
Definition uint32_of_double (x : double) : Z :=
  let t := SFtrunc x in
  if (- 2 ^ 63 <=? t) && (t <? 2 ^ 63) then u32 t else 0.

(** [fmod(x, 1.0)]: the fractional part of [x] with the sign of [x],
    which is always representable (C11 7.12.10.1, F.10.7.1). *)
Definition fmod1 (x : double) : double :=
  match x with
  | S754_finite s m e =>
      if 0 <=? e then S754_zero s
      else
        let r := Z.pos m mod 2 ^ (- e) in
        binary_normalize F64.prec F64.emax (if s then - r else r) e s
  | S754_infinity _ => S754_nan
  | _ => x
  end.

Definition is_nan (x : spec_float) : bool :=
  match x with S754_nan => true | _ => false end.

Definition is_zero (x : spec_float) : bool :=
  match x with S754_zero _ => true | _ => false end.

(** Conversion to a signed integer type of [w] bits. *)
Definition sint (w z : Z) : Z := (z + 2 ^ (w - 1)) mod 2 ^ w - 2 ^ (w - 1).

(** ** Sample types, the IF data buffer, constants and macros *)

(** [sdr_cpx16_t]: the carrier-mixed sample, fields [I] and [Q]. *)
Record sdr_cpx16_t := mk_cpx16 { cpx16_I : Z; cpx16_Q : Z }.

(** [sdr_cpx_t] ([fftwf_complex]): [float[2]], real and imaginary part. *)
Definition sdr_cpx_t : Type := float * float.

(** [sdr_buff_t]: [data] addresses cells of type [sdr_cpx8_t] ([uint8_t]),
    [N] is the size of the buffer and [IQ] the sampling type. *)
Record sdr_buff_t := mk_buff {
  buff_data : Z -> Z;
  buff_N : Z;
  buff_IQ : Z
}.

(** Reading a [uint8_t] cell. *)
Definition load_u8 (data : Z -> Z) (k : Z) : Z := data k mod 256.

Definition NTBL : Z := 256.
Definition MAX_FFTW_PLAN : Z := 32.
(** [CSCALE] is [10.0f]; [DOP_STEP] is the [double] [0.5]. *)
Definition CSCALE : float := F32.ten.
Definition DOP_STEP : double := F64.of_ratio 1 2.

(** Modelled from the spec: the macros [SDR_CPX8_I] and [SDR_CPX8_Q] of
    [pocket_sdr.h], which is not part of the sources.  A [sdr_cpx8_t] byte
    holds two signed 4-bit fields, I in the low nibble and Q in the high
    nibble, each in the range [-8, +7]. *)
Definition SDR_CPX8_I (x : Z) : Z := sint 4 (Z.land x 15).
Definition SDR_CPX8_Q (x : Z) : Z := sint 4 (Z.land (Z.shiftr x 4) 15).

(** [#define ROUND(x) floor(x + 0.5)]. *)
Definition ROUND (x : R) : Z := Zfloor (x + / 2).

(** ** generate carrier-mixed-data LUT: [sdr_func_init] *)

(** [(int8_t)ROUND(cos(-2.0 * PI * i / NTBL) * CSCALE)] and the same with
    [sin].  [cos] and [sin] are libm's; they are evaluated here over the
    real numbers. *)
Definition carr_I (i : Z) : Z :=
  sint 8 (ROUND (cos (- 2 * PI * IZR i / IZR NTBL) * 10)).
Definition carr_Q (i : Z) : Z :=
  sint 8 (ROUND (sin (- 2 * PI * IZR i / IZR NTBL) * 10)).

Section Init.
(** The width in bits of the fields [I] and [Q] of [sdr_cpx16_t], a type
    of [pocket_sdr.h]. *)
Variable W : Z.

(** Body of the inner loop: the two assignments to
    [mix_tbl[(j << 8) + i]]. *)
Definition sdr_func_init_body (i j : Z) (tbl : Z -> sdr_cpx16_t)
  : Z -> sdr_cpx16_t :=
  let I := SDR_CPX8_I j in
  let Q := SDR_CPX8_Q j in
  upd tbl (Z.shiftl j 8 + i)
    (mk_cpx16 (sint W (I * carr_I i - Q * carr_Q i))
              (sint W (I * carr_Q i + Q * carr_I i))).

(** The LUT after [sdr_func_init], from its content before. *)
Definition sdr_func_init (tbl : Z -> sdr_cpx16_t) : Z -> sdr_cpx16_t :=
  for_loop 0 NTBL (fun i => for_loop 0 256 (fun j => sdr_func_init_body i j))
    tbl.

(** [static sdr_cpx16_t mix_tbl[NTBL*256] = {{0}}], once initialised. *)
Definition mix_tbl : Z -> sdr_cpx16_t :=
  sdr_func_init (fun _ => mk_cpx16 0 0).
End Init.

(** ** max correlation power and C/N0: [sdr_corr_max] *)

Record corr_max_st := mk_corr_max_st {
  cm_P_max : float;
  cm_P_ave : float;
  cm_n : Z;
  cm_ix : Z * Z
}.

(** Body of the inner loop, at cell [P[i*N+j]]. *)
Definition corr_max_body (P : Z -> float) (N i j : Z) (st : corr_max_st)
  : corr_max_st :=
  let n := cm_n st + 1 in
  let P_ave :=
    F32.add (cm_P_ave st)
      (F32.div (F32.sub (P (i * N + j)) (cm_P_ave st)) (F32.of_int n)) in
  if F32.leb (P (i * N + j)) (cm_P_max st)
  then mk_corr_max_st (cm_P_max st) P_ave n (cm_ix st)
  else mk_corr_max_st (P (i * N + j)) P_ave n (i, j).

(** The two loops, from [P_max = 0.0], [P_ave = 0.0], [n = 0] and the
    content [ix] of the caller's array. *)
Definition corr_max_scan (P : Z -> float) (N Nmax M : Z) (ix : Z * Z)
  : corr_max_st :=
  for_loop 0 M (fun i => for_loop 0 Nmax (fun j => corr_max_body P N i j))
    (mk_corr_max_st F32.zero F32.zero 0 ix).

Section CorrMax.
(** libm's [log10f]. *)
Variable log10f : float -> float.

(** The returned value, from the final [P_max] and [P_ave]. *)
Definition corr_max_cn0 (T : double) (P_max P_ave : float) : float :=
  if F32.ltb F32.zero P_ave
  then F32.mul F32.ten
         (log10f (float_of_double
            (F64.div (double_of_float (F32.div (F32.sub P_max P_ave) P_ave)) T)))
  else F32.zero.

(** [sdr_corr_max(P, N, Nmax, M, T, ix)]: the returned value and the
    content of [ix] on return, for the content [ix] on entry. *)
Definition sdr_corr_max (P : Z -> float) (N Nmax M : Z) (T : double)
    (ix : Z * Z) : float * (Z * Z) :=
  let st := corr_max_scan P N Nmax M ix in
  (corr_max_cn0 T (cm_P_max st) (cm_P_ave st), cm_ix st).
End CorrMax.

(** ** polynomial fitting and fine Doppler frequency *)

Section FineDop.
(** RTKLIB's [lsq(A, y, n, m, x, Q)]: from the [n * m] cells of [A], the
    [m] cells of [y], [n] and [m], the returned status ([0]: ok) and the
    [n] cells stored in [x]. *)
Variable lsq : list double -> list double -> Z -> Z -> Z * list double.
(** The content of a matrix just allocated by RTKLIB's [mat]. *)
Variable V0 : Z -> double.

(** The Vandermonde matrix of [poly_fit]. *)
Definition vandermonde (x : Z -> double) (nx np : Z) : Z -> double :=
  for_loop 0 nx
    (fun i =>
       for_loop 0 np
         (fun j V =>
            upd V (i * np + j)
              (if j =? 0 then F64.one else F64.mul (V (i * np + j - 1)) (x i))))
    V0.

(** [poly_fit(x, y, nx, np, p)]: the returned value and the content of
    [p]. *)
Definition poly_fit (x y : Z -> double) (nx np : Z) : Z * list double :=
  if nx <? np then (0, [])
  else
    let V := vandermonde x nx np in
    let '(stat, p) :=
      lsq (map V (rangeZ 0 (np * nx))) (map y (rangeZ 0 nx)) np nx in
    ((if stat =? 0 then 1 else 0), p).

Definition sdr_fine_dop (P : Z -> float) (N : Z) (fds : Z -> float)
    (len_fds : Z) (ix : Z * Z) : double :=
  if (fst ix =? 0) || (fst ix =? len_fds - 1)
  then double_of_float (fds (fst ix))
  else
    let x := fun i => double_of_float (fds (fst ix - 1 + i)) in
    let y := fun i => double_of_float (P ((fst ix - 1 + i) * N + snd ix)) in
    let '(ok, p) := poly_fit x y 3 3 in
    if ok =? 0 then double_of_float (fds (fst ix))
    else
      F64.div (F64.opp (nth 1 p F64.zero))
        (F64.mul F64.two (nth 2 p F64.zero)).
End FineDop.

(** ** doppler search bins *)

(** [sdr_dop_bins(T, dop, max_dop, len_fds)]: the cells of the returned
    array and the value stored in [*len_fds]. *)
Definition sdr_dop_bins (T : double) (dop max_dop : float) : list float * Z :=
  let step := float_of_double (F64.div DOP_STEP T) in
  let len_fds :=
    int_of_double
      (F64.div (F64.mul F64.two (double_of_float max_dop)) (double_of_float step))
    + 1 in
  (map (fun i => F32.add (F32.sub dop max_dop) (F32.mul (F32.of_int i) step))
     (rangeZ 0 len_fds),
   len_fds).

(** ** mix carrier: [mix_carr] and [sdr_mix_carr] *)

(** The eight 32-bit lanes of a [__m256i], lowest lane first. *)
Definition mm256_set_epi32 (e7 e6 e5 e4 e3 e2 e1 e0 : Z) : list Z :=
  [e0; e1; e2; e3; e4; e5; e6; e7].
Definition mm256_add_epi32 (a b : list Z) : list Z :=
  zip_with (fun x y => u32 (x + y)) a b.
Definition mm256_slli_epi32 (a : list Z) (n : Z) : list Z :=
  map (fun x => u32 (Z.shiftl x n)) a.
Definition mm256_srli_epi32 (a : list Z) (n : Z) : list Z :=
  map (fun x => Z.shiftr x n) a.
(** [_mm256_cvtepu8_epi32(_mm_loadu_si128(data + i))]: the first eight of
    the sixteen bytes loaded, zero-extended. *)
Definition mm256_cvtepu8_epi32_loadu (data : Z -> Z) (i : Z) : list Z :=
  map (fun k => load_u8 data (i + k)) (rangeZ 0 8).

(** [IQ[i+k] = mix_tbl[idx[k]]] for [k = 0..7]. *)
Definition store8 {A : Type} (tbl : Z -> A) (IQ : Z -> A) (i : Z) (idx : list Z)
  : Z -> A :=
  fold_left (fun acc kv => upd acc (i + fst kv) (tbl (snd kv)))
    (combine (rangeZ 0 8) idx) IQ.

Section Mixer.
(** The carrier-mixed-data LUT, as [sdr_func_init] leaves it. *)
Variable tbl : Z -> sdr_cpx16_t.
(** Whether the build defines [AVX2]. *)
Variable AVX2 : bool.

(** The vector loop [for ( ; i < N - 16; i += 8)], on the state
    [(i, yphi, IQ)]; [fuel] bounds the number of iterations. *)
Fixpoint mix_carr_avx2 (fuel : nat) (data : Z -> Z) (N : Z) (ystp : list Z)
    (i : Z) (yphi : list Z) (IQ : Z -> sdr_cpx16_t)
  : Z * (Z -> sdr_cpx16_t) :=
  match fuel with
  | O => (i, IQ)
  | S fuel' =>
      if i <? N - 16 then
        let ydat := mm256_cvtepu8_epi32_loadu data i in
        let yidx := mm256_add_epi32 (mm256_slli_epi32 ydat 8)
                      (mm256_srli_epi32 yphi 24) in
        mix_carr_avx2 fuel' data N ystp (i + 8)
          (mm256_add_epi32 yphi ystp) (store8 tbl IQ i yidx)
      else (i, IQ)
  end.

(** The scalar loop [for (p += s * i; i < N; i++, p += s)], on the state
    [(p, IQ)]. *)
Definition mix_carr_scalar (data : Z -> Z) (N s i0 p0 : Z)
    (IQ : Z -> sdr_cpx16_t) : Z * (Z -> sdr_cpx16_t) :=
  for_loop i0 N
    (fun i st =>
       let idx := Z.shiftl (load_u8 data i) 8 + Z.shiftr (fst st) 24 in
       (u32 (fst st + s), upd (snd st) i (tbl idx)))
    (u32 (p0 + u32 (s * i0)), IQ).

(** [mix_carr(buff, ix, N, phi, step, IQ)].  [IQ] is the content of the
    cells the pointer [IQ] addresses; the result is their content on
    return. *)
Definition mix_carr (buff : sdr_buff_t) (ix N : Z) (phi step : double)
    (IQ : Z -> sdr_cpx16_t) : Z -> sdr_cpx16_t :=
  let data := fun k => buff_data buff (ix + k) in
  let scale := F64.of_int (Z.shiftl 1 24) in
  let p := uint32_of_double (F64.mul phi scale) in
  let s := uint32_of_double (F64.mul step scale) in
  let '(i, IQ1) :=
    if AVX2 then
      let yphi := mm256_set_epi32 (u32 (p + u32 (s * 7))) (u32 (p + u32 (s * 6)))
                    (u32 (p + u32 (s * 5))) (u32 (p + u32 (s * 4)))
                    (u32 (p + u32 (s * 3))) (u32 (p + u32 (s * 2)))
                    (u32 (p + s)) p in
      let ystp := mm256_set_epi32 (u32 (s * 8)) (u32 (s * 8)) (u32 (s * 8))
                    (u32 (s * 8)) (u32 (s * 8)) (u32 (s * 8)) (u32 (s * 8))
                    (u32 (s * 8)) in
      mix_carr_avx2 (Z.to_nat N) data N ystp 0 yphi IQ
    else (0, IQ) in
  snd (mix_carr_scalar data N s i p IQ1).

(** [sdr_mix_carr(buff, ix, N, fs, fc, phi, IQ)].  The second pass of a
    window across the buffer boundary writes through [IQ + n]. *)
Definition sdr_mix_carr (buff : sdr_buff_t) (ix N : Z) (fs fc phi : double)
    (IQ : Z -> sdr_cpx16_t) : Z -> sdr_cpx16_t :=
  let step := F64.mul (F64.div fc fs) (F64.of_int NTBL) in
  let phi := F64.mul (fmod1 phi) (F64.of_int NTBL) in
  if ix + N <=? buff_N buff then mix_carr buff ix N phi step IQ
  else
    let n := buff_N buff - ix in
    let IQ1 := mix_carr buff ix n phi step IQ in
    let IQ2 :=
      mix_carr buff 0 (N - n) (F64.add phi (F64.mul step (F64.of_int n))) step
        (fun k => IQ1 (n + k)) in
    fun k => IQ2 (k - n).
End Mixer.

(** ** inner product of IQ data and code, standard correlator *)

(** A [__m256i] is modelled by the list of its 32 bytes or of its 16
    16-bit lanes, lowest first.  [_mm256_set_epi8] takes the highest byte
    first. *)
Definition mm256_set_epi8 (e : list Z) : list Z := rev e.
Definition mm256_setzero_si256 : list Z := repeat 0 16.

(** Modelled from the spec: the layout of [sdr_cpx16_t], declared in
    [pocket_sdr.h], which is not part of the sources.  The vector code
    reads an array of cells as adjacent signed bytes, [I] then [Q] for each
    cell, sixteen cells in the 32 bytes of a [_mm256_loadu_si256]; the
    comment of [CSCALE] in the sources bounds the fields by 127. *)
Definition mm256_loadu_cpx16 (a : Z -> sdr_cpx16_t) (i : Z) : list Z :=
  flat_map (fun k => [cpx16_I (a (i + k)); cpx16_Q (a (i + k))]) (rangeZ 0 16).

(** [_mm256_sign_epi8(a, b)]: each signed byte of [a], negated (in 8 bits)
    where the byte of [b] is negative and zeroed where it is zero. *)
Definition mm256_sign_epi8 (a b : list Z) : list Z :=
  zip_with (fun x y => if y <? 0 then sint 8 (- x) else if y =? 0 then 0 else x)
    a b.

(** Signed saturation to 16 bits. *)
Definition sat16 (z : Z) : Z := Z.max (- 2 ^ 15) (Z.min (2 ^ 15 - 1) z).

(** [_mm256_maddubs_epi16(a, b)]: the unsigned bytes of [a] times the
    signed bytes of [b], adjacent products added with saturation into the
    16-bit lanes. *)
Fixpoint mm256_maddubs_epi16 (a b : list Z) : list Z :=
  match a, b with
  | a0 :: a1 :: a', b0 :: b1 :: b' =>
      sat16 (a0 mod 2 ^ 8 * b0 + a1 mod 2 ^ 8 * b1) :: mm256_maddubs_epi16 a' b'
  | _, _ => []
  end.

Definition mm256_add_epi16 (a b : list Z) : list Z :=
  zip_with (fun x y => sint 16 (x + y)) a b.

(** [sum_16x16(ymm, sum)]: the sixteen lanes are added as [int]s, the total
    is added to the [float] [sum], and the lanes are zeroed. *)
Definition sum_16x16 (ymm : list Z) (sum : float) : list Z * float :=
  (mm256_setzero_si256, F32.add sum (F32.of_int (fold_left Z.add ymm 0))).

Definition yextI : list Z :=
  mm256_set_epi8 [0; 1; 0; 1; 0; 1; 0; 1;  0; 1; 0; 1; 0; 1; 0; 1;
                  0; 1; 0; 1; 0; 1; 0; 1;  0; 1; 0; 1; 0; 1; 0; 1].
Definition yextQ : list Z :=
  mm256_set_epi8 [1; 0; 1; 0; 1; 0; 1; 0;  1; 0; 1; 0; 1; 0; 1; 0;
                  1; 0; 1; 0; 1; 0; 1; 0;  1; 0; 1; 0; 1; 0; 1; 0].

(** The state of the vector loop of [dot_IQ_code]. *)
Record dot_st := mk_dot_st {
  dot_i : Z;
  dot_ysumI : list Z;
  dot_ysumQ : list Z;
  dot_c : sdr_cpx_t
}.

(** The vector loop [for ( ; i < N - 15; i += 16)]; [fuel] bounds the
    number of iterations. *)
Fixpoint dot_IQ_code_avx2 (fuel : nat) (IQ code : Z -> sdr_cpx16_t) (N : Z)
    (st : dot_st) : dot_st :=
  match fuel with
  | O => st
  | S fuel' =>
      let i := dot_i st in
      if i <? N - 15 then
        let ydata := mm256_loadu_cpx16 IQ i in
        let ycode := mm256_loadu_cpx16 code i in
        let ycorr := mm256_sign_epi8 ydata ycode in
        let ysumI :=
          mm256_add_epi16 (dot_ysumI st) (mm256_maddubs_epi16 yextI ycorr) in
        let ysumQ :=
          mm256_add_epi16 (dot_ysumQ st) (mm256_maddubs_epi16 yextQ ycorr) in
        let st1 :=
          if Z.rem i (16 * 256) =? 0 then
            let '(ysumI, c0) := sum_16x16 ysumI (fst (dot_c st)) in
            let '(ysumQ, c1) := sum_16x16 ysumQ (snd (dot_c st)) in
            mk_dot_st i ysumI ysumQ (c0, c1)
          else mk_dot_st i ysumI ysumQ (dot_c st) in
        dot_IQ_code_avx2 fuel' IQ code N
          (mk_dot_st (i + 16) (dot_ysumI st1) (dot_ysumQ st1) (dot_c st1))
      else st
  end.

Section Correlator.
(** Whether the build defines [AVX2]. *)
Variable AVX2 : bool.

(** [dot_IQ_code(IQ, code, N, s, c)]: the value stored in [*c]. *)
Definition dot_IQ_code (IQ code : Z -> sdr_cpx16_t) (N : Z) (s : float)
  : sdr_cpx_t :=
  let st0 :=
    mk_dot_st 0 mm256_setzero_si256 mm256_setzero_si256 (F32.zero, F32.zero) in
  let st1 :=
    if AVX2 then
      let st := dot_IQ_code_avx2 (Z.to_nat N) IQ code N st0 in
      let '(ysumI, c0) := sum_16x16 (dot_ysumI st) (fst (dot_c st)) in
      let '(ysumQ, c1) := sum_16x16 (dot_ysumQ st) (snd (dot_c st)) in
      mk_dot_st (dot_i st) ysumI ysumQ (c0, c1)
    else st0 in
  let c :=
    for_loop (dot_i st1) N
      (fun i c =>
         (F32.add (fst c) (F32.of_int (cpx16_I (IQ i) * cpx16_I (code i))),
          F32.add (snd c) (F32.of_int (cpx16_Q (IQ i) * cpx16_Q (code i)))))
      (dot_c st1) in
  (F32.mul (fst c) (F32.div s CSCALE), F32.mul (snd c) (F32.div s CSCALE)).

(** [corr_std(IQ, code, N, pos, n, corr)]: the content of [corr] on
    return. *)
Definition corr_std (IQ code : Z -> sdr_cpx16_t) (N : Z) (pos : Z -> Z) (n : Z)
    (corr : Z -> sdr_cpx_t) : Z -> sdr_cpx_t :=
  for_loop 0 n
    (fun i corr =>
       if 0 <? pos i then
         let M := N - pos i in
         upd corr i
           (dot_IQ_code (fun k => IQ (pos i + k)) code M
              (F32.div F32.one (F32.of_int M)))
       else if pos i <? 0 then
         let M := N + pos i in
         upd corr i
           (dot_IQ_code IQ (fun k => code (- pos i + k)) M
              (F32.div F32.one (F32.of_int M)))
       else
         upd corr i (dot_IQ_code IQ code N (F32.div F32.one (F32.of_int N))))
    corr.
End Correlator.

(** ** FFTW plans and the FFT correlator *)

(** A plan made by [fftwf_plan_dft_1d(n, in, out, sign, flags)]: its
    transform length and direction. *)
Record fftwf_plan := mk_plan { plan_n : Z; plan_sign : Z }.

Definition FFTW_FORWARD : Z := -1.
Definition FFTW_BACKWARD : Z := 1.

(** The global variables [fftw_plans] and [fftw_size], and the lengths [N]
    of the messages ["fftw plan buffer overflow N=%d"] written to [stderr].
    A null plan is [None].  The calls are modelled one at a time, as the
    mutex of [get_fftw_plan] serialises them. *)
Record fft_state := mk_fft_state {
  fftw_plans : Z -> option fftwf_plan * option fftwf_plan;
  fftw_size : Z -> Z;
  fft_stderr : list Z
}.

(** The static initial content: [{{0}}] and [{0}]. *)
Definition fft_state_init : fft_state :=
  mk_fft_state (fun _ => (None, None)) (fun _ => 0) [].

(** The loop of [get_fftw_plan] from slot [i], with [k] slots left, and
    the two exits of the function: [Some plan] for [return 1] with the
    plans stored in [plan[0]] and [plan[1]], [None] for [return 0]. *)
Fixpoint get_fftw_plan_from (k : nat) (i N : Z) (st : fft_state)
  : option (option fftwf_plan * option fftwf_plan) * fft_state :=
  match k with
  | O => (None, mk_fft_state (fftw_plans st) (fftw_size st) (fft_stderr st ++ [N]))
  | S k' =>
      let st1 :=
        if fftw_size st i =? 0 then
          mk_fft_state
            (upd (fftw_plans st) i
               (Some (mk_plan N FFTW_FORWARD), Some (mk_plan N FFTW_BACKWARD)))
            (upd (fftw_size st) i N) (fft_stderr st)
        else st in
      if fftw_size st1 i =? N then (Some (fftw_plans st1 i), st1)
      else get_fftw_plan_from k' (i + 1) N st1
  end.

Definition get_fftw_plan (N : Z) (st : fft_state)
  : option (option fftwf_plan * option fftwf_plan) * fft_state :=
  get_fftw_plan_from (Z.to_nat MAX_FFTW_PLAN) 0 N st.

(** [sdr_cpx_mul(a, b, N, s, c)]: the content of [c] on return. *)
Definition sdr_cpx_mul (a b : Z -> sdr_cpx_t) (N : Z) (s : float)
    (c : Z -> sdr_cpx_t) : Z -> sdr_cpx_t :=
  for_loop 0 N
    (fun i c =>
       upd c i
         (F32.mul (F32.sub (F32.mul (fst (a i)) (fst (b i)))
                     (F32.mul (snd (a i)) (snd (b i)))) s,
          F32.mul (F32.add (F32.mul (fst (a i)) (snd (b i)))
                     (F32.mul (snd (a i)) (fst (b i)))) s))
    c.

Section FFT.
(** FFTW's transform: [dft sign x k] is cell [k] of the transform of
    direction [sign] of the cells [x], whose number is the length of the
    transform. *)
Variable dft : Z -> list sdr_cpx_t -> Z -> sdr_cpx_t.

(** [fftwf_execute_dft(plan, in, out)]: the content of [out] on return.
    The transform reads the [n] cells of [in] and writes the [n] cells of
    [out], for the length [n] of the plan.  A null plan, which the program
    never executes, writes nothing. *)
Definition fftwf_execute_dft (plan : option fftwf_plan)
    (inp out : Z -> sdr_cpx_t) : Z -> sdr_cpx_t :=
  match plan with
  | Some p =>
      fun k =>
        if (0 <=? k) && (k <? plan_n p)
        then dft (plan_sign p) (map inp (rangeZ 0 (plan_n p))) k else out k
  | None => out
  end.

(** [corr_fft(IQ, code_fft, N, corr)]: the content of [corr] on return and
    the global state.  [cpx0] is the content of the fresh scratch array of
    [2 N] cells.  The product [sdr_cpx_mul(cpx + N, code_fft, N, s, cpx)]
    reads the cells [N..2N) of the array and writes the cells [0..N). *)
Definition corr_fft (cpx0 : Z -> sdr_cpx_t) (IQ : Z -> sdr_cpx16_t)
    (code_fft : Z -> sdr_cpx_t) (N : Z) (corr : Z -> sdr_cpx_t)
    (st : fft_state) : (Z -> sdr_cpx_t) * fft_state :=
  match get_fftw_plan N st with
  | (None, st') => (corr, st')
  | (Some plan, st') =>
      let cpx1 :=
        for_loop 0 N
          (fun i cpx =>
             upd cpx i (F32.div (F32.of_int (cpx16_I (IQ i))) CSCALE,
                        F32.div (F32.of_int (cpx16_Q (IQ i))) CSCALE))
          cpx0 in
      let cpx2 := fun k =>
        fftwf_execute_dft (fst plan) cpx1 (fun j => cpx1 (N + j)) (k - N) in
      let cpx3 :=
        sdr_cpx_mul (fun j => cpx2 (N + j)) code_fft N
          (F32.div (F32.div F32.one (F32.of_int N)) (F32.of_int N)) cpx2 in
      (fftwf_execute_dft (snd plan) cpx3 corr, st')
  end.

Variable tbl : Z -> sdr_cpx16_t.
Variable AVX2 : bool.

(** [sdr_corr_fft]: mix carrier and FFT correlator.  [IQ0] is the content
    of the local array [IQ] before it is written. *)
Definition sdr_corr_fft (IQ0 : Z -> sdr_cpx16_t) (cpx0 : Z -> sdr_cpx_t)
    (buff : sdr_buff_t) (ix N : Z) (fs fc phi : double)
    (code_fft : Z -> sdr_cpx_t) (corr : Z -> sdr_cpx_t) (st : fft_state)
  : (Z -> sdr_cpx_t) * fft_state :=
  corr_fft cpx0 (sdr_mix_carr tbl AVX2 buff ix N fs fc phi IQ0)
    code_fft N corr st.

(** [sdr_corr_std]: mix carrier and standard correlator. *)
Definition sdr_corr_std (IQ0 : Z -> sdr_cpx16_t) (buff : sdr_buff_t)
    (ix N : Z) (fs fc phi : double) (code : Z -> sdr_cpx16_t)
    (pos : Z -> Z) (n : Z) (corr : Z -> sdr_cpx_t) : Z -> sdr_cpx_t :=
  corr_std AVX2 (sdr_mix_carr tbl AVX2 buff ix N fs fc phi IQ0) code N pos n
    corr.
End FFT.

(** ** least squares *)

Module Lsq.
(** [sum_k u[k] * v[k]], accumulated from [0.0] in the order of [k]. *)
Definition dot (u v : list double) : double :=
  fold_left (fun acc ab => F64.add acc (F64.mul (fst ab) (snd ab)))
    (combine u v) F64.zero.

(** Row [r] of the [n x m] matrix [A], stored by columns. *)
Definition row (A : list double) (n m r : Z) : list double :=
  map (fun k => nth (Z.to_nat (r + k * n)) A F64.zero) (rangeZ 0 m).

(** The rows of the system [(A A^T) x = A y], each followed by its
    right-hand side. *)
Definition normal_equations (A y : list double) (n m : Z)
  : list (list double) :=
  map (fun i =>
         map (fun j => dot (row A n m i) (row A n m j)) (rangeZ 0 n)
         ++ [dot (row A n m i) y])
    (rangeZ 0 n).

Definition head0 (r : list double) : double := hd F64.zero r.

(** The row of largest leading magnitude, taken out of the rows. *)
Fixpoint pivot (rows : list (list double))
  : option (list double * list (list double)) :=
  match rows with
  | [] => None
  | r :: rest =>
      match pivot rest with
      | None => Some (r, [])
      | Some (p, others) =>
          if F64.ltb (F64.abs (head0 r)) (F64.abs (head0 p))
          then Some (p, r :: others) else Some (r, p :: others)
      end
  end.

(** Gaussian elimination with partial pivoting and back substitution. *)
Fixpoint solve (n : nat) (rows : list (list double)) : option (list double) :=
  match n with
  | O => Some []
  | S n' =>
      match pivot rows with
      | None => None
      | Some (p, others) =>
          let a := head0 p in
          if is_zero a || is_nan a then None
          else
            let reduced :=
              map (fun r =>
                     let f := F64.div (head0 r) a in
                     zip_with (fun u v => F64.sub u (F64.mul f v))
                       (tl r) (tl p)) others in
            match solve n' reduced with
            | None => None
            | Some xs =>
                let rhs := nth n' (tl p) F64.zero in
                Some (F64.div (F64.sub rhs (dot (firstn n' (tl p)) xs)) a :: xs)
            end
      end
  end.

(** Modelled from the spec: RTKLIB's [lsq], which is not part of the
    sources.  The specification asks for a general least-squares solver
    that fails on a degenerate matrix: [lsq A y n m] is the solution [x]
    of the normal equations [(A A^T) x = A y] with the status [0], and
    the status is [-1] when [m < n] or the matrix is degenerate.  The
    equations are solved in double precision by Gaussian elimination;
    RTKLIB's own solver can differ from it in the last bits. *)
Definition lsq (A y : list double) (n m : Z) : Z * list double :=
  if m <? n then (-1, [])
  else
    match solve (Z.to_nat n) (normal_equations A y n m) with
    | Some x => (0, x)
    | None => (-1, [])
    end.
End Lsq.

(** ** Complex values: [sdr_cpx_abs] *)

(** [sqrtf] on [float]: the IEEE square root. *)
Definition F32_sqrt (x : float) : float := SFsqrt F32.prec F32.emax x.

(** [#define SQR(x) ((x) * (x))], on a [float]. *)
Definition SQR (x : float) : float := F32.mul x x.

(** [sdr_cpx_abs(cpx)]. *)
Definition sdr_cpx_abs (cpx : sdr_cpx_t) : float :=
  F32_sqrt (F32.add (SQR (fst cpx)) (SQR (snd cpx))).

(** ** Parallel code search: [sdr_search_code] *)

Section SearchCode.
Variable dft : Z -> list sdr_cpx_t -> Z -> sdr_cpx_t.
Variable tbl : Z -> sdr_cpx16_t.
Variable AVX2 : bool.
(** The content, at the call for the Doppler bin [i], of the local array
    [IQ] of [sdr_corr_fft] and of the scratch array of [corr_fft] before
    they are written. *)
Variable IQ0 : Z -> Z -> sdr_cpx16_t.
Variable cpx0 : Z -> Z -> sdr_cpx_t.

(** [P[i*N+j] += SQR(C[j][0]) + SQR(C[j][1])] for [j] in [[0, N)]. *)
Definition add_power (C : Z -> sdr_cpx_t) (N i : Z) (P : Z -> float)
  : Z -> float :=
  for_loop 0 N
    (fun j P =>
       upd P (i * N + j)
         (F32.add (P (i * N + j)) (F32.add (SQR (fst (C j))) (SQR (snd (C j))))))
    P.

(** Body of the loop over the Doppler bins, on the grid [P], the array
    [C] and the plan cache. *)
Definition search_code_body (code_fft : Z -> sdr_cpx_t) (buff : sdr_buff_t)
    (ix N : Z) (fs fi : double) (fds : Z -> float) (i : Z)
    (s : (Z -> float) * (Z -> sdr_cpx_t) * fft_state)
  : (Z -> float) * (Z -> sdr_cpx_t) * fft_state :=
  let '(P, C, st) := s in
  let '(C1, st1) :=
    sdr_corr_fft dft tbl AVX2 (IQ0 i) (cpx0 i) buff ix N fs
      (F64.add fi (double_of_float (fds i))) F64.zero code_fft C st in
  (add_power C1 N i P, C1, st1).

(** [sdr_search_code(code_fft, T, buff, ix, N, fs, fi, fds, len_fds, P)]:
    the content of [P] on return and the plan cache.  [C0] is the content
    of the array [C] as [sdr_cpx_malloc] returns it; the code cycle [T] is
    not used, and the pauses of [sdr_sleep_msec] leave the data as they
    are. *)
Definition sdr_search_code (C0 : Z -> sdr_cpx_t) (code_fft : Z -> sdr_cpx_t)
    (T : double) (buff : sdr_buff_t) (ix N : Z) (fs fi : double)
    (fds : Z -> float) (len_fds : Z) (P : Z -> float) (st : fft_state)
  : (Z -> float) * fft_state :=
  let r :=
    for_loop 0 len_fds (search_code_body code_fft buff ix N fs fi fds)
      (P, C0, st) in
  (fst (fst r), snd r).
End SearchCode.

(** ** add item to buffer: [sdr_add_buff] *)

(** [memmove(dst, src, n)] within one array of bytes: the [n] bytes from
    [src] are copied to [dst] as if through a temporary array. *)
Definition memmove (mem : Z -> Z) (dst src n : Z) : Z -> Z :=
  fun k => if (dst <=? k) && (k <? dst + n) then mem (src + (k - dst)) else mem k.

(** [memcpy(dst, src, n)] from another array [src]. *)
Definition memcpy (mem : Z -> Z) (dst : Z) (src : Z -> Z) (n : Z) : Z -> Z :=
  fun k => if (dst <=? k) && (k <? dst + n) then src (k - dst) else mem k.

(** [sdr_add_buff(buff, len_buff, item, size_item)]: the bytes of [buff]
    on return. *)
Definition sdr_add_buff (buff : Z -> Z) (len_buff : Z) (item : Z -> Z)
    (size_item : Z) : Z -> Z :=
  memcpy (memmove buff 0 size_item (size_item * (len_buff - 1)))
    (size_item * (len_buff - 1)) item size_item.

(** ** pack and unpack bits *)

(** [memset(buff, c, n)]. *)
Definition memset (buff : Z -> Z) (c n : Z) : Z -> Z :=
  fun k => if (0 <=? k) && (k <? n) then c mod 256 else buff k.

(** [sdr_pack_bits(data, nbit, nz, buff)]: the content of [buff] on
    return.  [/] and [%] are C's, which truncate. *)
Definition sdr_pack_bits (data : Z -> Z) (nbit nz : Z) (buff : Z -> Z)
  : Z -> Z :=
  for_loop nz (nz + nbit)
    (fun i buff =>
       upd buff (Z.quot i 8)
         (Z.lor (load_u8 buff (Z.quot i 8))
                (Z.shiftl (load_u8 data (i - nz)) (7 - Z.rem i 8)) mod 256))
    (memset buff 0 (Z.quot (nz + nbit + 7) 8)).

(** [sdr_unpack_bits(data, nbit, buff)]: the content of [buff] on return.
    The loop runs over [nbit * 8] bits: [nbit] counts the bytes of
    [data]. *)
Definition sdr_unpack_bits (data : Z -> Z) (nbit : Z) (buff : Z -> Z)
  : Z -> Z :=
  for_loop 0 (nbit * 8)
    (fun i buff =>
       upd buff i
         (Z.land (Z.shiftr (load_u8 data (Z.quot i 8)) (7 - Z.rem i 8)) 1))
    buff.

(** [sdr_unpack_data(data, nbit, buff)], for a [uint32_t] [data]: the
    content of [buff] on return. *)
Definition sdr_unpack_data (data nbit : Z) (buff : Z -> Z) : Z -> Z :=
  for_loop 0 nbit
    (fun i buff => upd buff i (Z.land (Z.shiftr data (nbit - 1 - i)) 1))
    buff.

(** ** exclusive-or of all bits: [sdr_xor_bits] *)

(** [static const uint8_t xor_8b[]]: xor of 8 bits. *)
Definition xor_8b : list Z :=
  [0; 1; 1; 0; 1; 0; 0; 1;
   1; 0; 0; 1; 0; 1; 1; 0;
   1; 0; 0; 1; 0; 1; 1; 0;
   0; 1; 1; 0; 1; 0; 0; 1;
   1; 0; 0; 1; 0; 1; 1; 0;
   0; 1; 1; 0; 1; 0; 0; 1;
   0; 1; 1; 0; 1; 0; 0; 1;
   1; 0; 0; 1; 0; 1; 1; 0;
   1; 0; 0; 1; 0; 1; 1; 0;
   0; 1; 1; 0; 1; 0; 0; 1;
   0; 1; 1; 0; 1; 0; 0; 1;
   1; 0; 0; 1; 0; 1; 1; 0;
   0; 1; 1; 0; 1; 0; 0; 1;
   1; 0; 0; 1; 0; 1; 1; 0;
   1; 0; 0; 1; 0; 1; 1; 0;
   0; 1; 1; 0; 1; 0; 0; 1;
   1; 0; 0; 1; 0; 1; 1; 0;
   0; 1; 1; 0; 1; 0; 0; 1;
   0; 1; 1; 0; 1; 0; 0; 1;
   1; 0; 0; 1; 0; 1; 1; 0;
   0; 1; 1; 0; 1; 0; 0; 1;
   1; 0; 0; 1; 0; 1; 1; 0;
   1; 0; 0; 1; 0; 1; 1; 0;
   0; 1; 1; 0; 1; 0; 0; 1;
   0; 1; 1; 0; 1; 0; 0; 1;
   1; 0; 0; 1; 0; 1; 1; 0;
   1; 0; 0; 1; 0; 1; 1; 0;
   0; 1; 1; 0; 1; 0; 0; 1;
   1; 0; 0; 1; 0; 1; 1; 0;
   0; 1; 1; 0; 1; 0; 0; 1;
   0; 1; 1; 0; 1; 0; 0; 1;
   1; 0; 0; 1; 0; 1; 1; 0].

(** [xor_8b[(uint8_t)x]]. *)
Definition xor_8b_at (x : Z) : Z := nth (Z.to_nat (x mod 256)) xor_8b 0.

(** [sdr_xor_bits(X)], for a [uint32_t] [X]. *)
Definition sdr_xor_bits (X : Z) : Z :=
  Z.lxor
    (Z.lxor
       (Z.lxor (xor_8b_at X) (xor_8b_at (Z.shiftr X 8)))
       (xor_8b_at (Z.shiftr X 16)))
    (xor_8b_at (Z.shiftr X 24)).

(** ** shift IF frequency for GLONASS FDMA: [sdr_shift_freq] *)

(** [strcmp(s, t)]: zero when the strings are the same, otherwise negative
    or positive as the first characters that differ compare. *)
Definition strcmp (s t : String.string) : Z :=
  match String.compare s t with
  | Eq => 0
  | Lt => -1
  | Gt => 1
  end.

(** [sdr_shift_freq(sig, fcn, fi)].  The constants [0.5625e6] and
    [0.4375e6] are the [double]s 562500 and 437500; [fcn] is converted to
    [double] for the product. *)
Definition sdr_shift_freq (sig : String.string) (fcn : Z) (fi : double)
  : double :=
  if strcmp sig "G1CA"%string =? 0
  then F64.add fi (F64.mul (F64.of_int 562500) (F64.of_int fcn))
  else if strcmp sig "G2CA"%string =? 0
  then F64.add fi (F64.mul (F64.of_int 437500) (F64.of_int fcn))
  else fi.

(** ** Notions of the specification *)

(** *** Peak detection *)

(** The cells visited before cell [(i, j)] of a scan of [Nmax] columns. *)
Definition visited (Nmax i j i' j' : Z) : Prop :=
  0 <= i' /\ 0 <= j' < Nmax /\ (i' < i \/ (i' = i /\ j' < j)).

(** Cell [(i', j')] comes before cell [(i, j)] in row-major order. *)
Definition row_major_lt (i' j' i j : Z) : Prop := i' < i \/ (i' = i /\ j' < j).

(** The scanned cells, in row-major order. *)
Definition scan_cells (P : Z -> float) (N Nmax M : Z) : list float :=
  flat_map (fun i => map (fun j => P (i * N + j)) (rangeZ 0 Nmax)) (rangeZ 0 M).

(** The invariant of the scan of [sdr_corr_max], on the state before cell
    [(i, j)] is visited: the running maximum bounds
    the visited cells; either no visited cell exceeds [0.0] and [ix] is
    untouched, or [ix] is the first visited cell that reaches the
    maximum. *)
Definition corr_max_inv (P : Z -> float) (N Nmax : Z) (ix0 : Z * Z)
    (i j : Z) (st : corr_max_st) : Prop :=
  is_nan (cm_P_max st) = false /\
  (forall i' j', visited Nmax i j i' j' ->
     F32.leb (P (i' * N + j')) (cm_P_max st) = true) /\
  ((cm_ix st = ix0 /\ cm_P_max st = F32.zero /\
    forall i' j', visited Nmax i j i' j' ->
      F32.ltb F32.zero (P (i' * N + j')) = false) \/
   (exists i0 j0, visited Nmax i j i0 j0 /\ cm_ix st = (i0, j0) /\
      cm_P_max st = P (i0 * N + j0) /\
      F32.ltb F32.zero (cm_P_max st) = true /\
      forall i' j', visited Nmax i0 j0 i' j' ->
        F32.ltb (P (i' * N + j')) (cm_P_max st) = true)).

Section RunningMean.
Variable A : Type.
Variables add sub div : A -> A -> A.
Variable of_int : Z -> A.

(** The incremental update [P_ave <- P_ave + (x - P_ave) / n] of the
    specification, on the pair of [P_ave] and the number of cells. *)
Definition mean_step (an : A * Z) (x : A) : A * Z :=
  (add (fst an) (div (sub x (fst an)) (of_int (snd an + 1))), snd an + 1).

Definition running_mean_from (a : A) (xs : list A) : A :=
  fst (fold_left mean_step xs (a, 0)).
End RunningMean.

(** The running mean in single precision. *)
Definition running_mean (xs : list float) : float :=
  running_mean_from float F32.add F32.sub F32.div F32.of_int F32.zero xs.

(** The running mean in exact arithmetic. *)
Definition running_mean_Q (xs : list Q) : Q :=
  running_mean_from Q Qplus Qminus Qdiv inject_Z 0%Q xs.

Definition cm_mean (st : corr_max_st) : float * Z := (cm_P_ave st, cm_n st).

Definition zero_or_nan (x : spec_float) : bool := is_zero x || is_nan x.

(** A key whose lexicographic order is the order that [SFcompare] decides
    on numbers. *)
Definition SFkey (x : spec_float) : Z * Z * Z :=
  match x with
  | S754_zero _ => (0, 0, 0)
  | S754_infinity s => (if s then -2 else 2, 0, 0)
  | S754_nan => (0, 0, 0)
  | S754_finite s m e => if s then (-1, - e, Z.neg m) else (1, e, Z.pos m)
  end.

Definition lex3 (a b : Z * Z * Z) : comparison :=
  match fst (fst a) ?= fst (fst b) with
  | Eq => match snd (fst a) ?= snd (fst b) with
          | Eq => snd a ?= snd b
          | c => c
          end
  | c => c
  end.

Definition lex3_lt (a b : Z * Z * Z) : Prop :=
  fst (fst a) < fst (fst b) \/
  (fst (fst a) = fst (fst b) /\
   (snd (fst a) < snd (fst b) \/ (snd (fst a) = snd (fst b) /\ snd a < snd b))).

(** *** Carrier mixer *)

(** The phase accumulator after [i] additions of the step [s] to [p],
    each modulo [2^32]. *)
Fixpoint phase_acc (p s : Z) (i : nat) : Z :=
  match i with
  | O => p
  | S i' => u32 (phase_acc p s i' + s)
  end.

(** The fixed-point value of a phase or of a step of [mix_carr]: scaled by
    [2^24] and truncated to 32 bits. *)
Definition mix_scale : double := F64.of_int (Z.shiftl 1 24).
Definition mix_phase (phi : double) : Z := uint32_of_double (F64.mul phi mix_scale).

(** The cell of the LUT [tbl] selected at offset [k] of a pass over [data]
    that starts at phase [p] and advances by [s]. *)
Definition mix_ref (tbl : Z -> sdr_cpx16_t) (data : Z -> Z) (p s k : Z)
  : sdr_cpx16_t :=
  tbl (Z.shiftl (load_u8 data k) 8 + Z.shiftr (u32 (p + s * k)) 24).

(** The eight phases of the vector [yphi] before the iteration at [i]. *)
Definition yphi_at (p s i : Z) : list Z :=
  map (fun k => u32 (p + s * (i + k))) (rangeZ 0 8).

(** The samples of the window of [N] cells at [ix], read around the end
    of the buffer. *)
Definition window (buff : sdr_buff_t) (ix N : Z) : list Z :=
  map (fun k => if ix + k <? buff_N buff
                then load_u8 (buff_data buff) (ix + k)
                else load_u8 (buff_data buff) (ix + k - buff_N buff))
    (rangeZ 0 N).

(** *** Mixer LUT *)

(** Rounding to the nearest integer, ties away from zero. *)
Definition round_half_away (x : R) : Z :=
  if Rle_dec 0 x then Zfloor (x + / 2) else - Zfloor (- x + / 2).

(** [x] is within a half of [t], bounds excluded: [x] rounds to [t]
    whichever way ties are broken. *)
Definition near (x : R) (t : Z) : Prop := (IZR t - / 2 < x /\ x < IZR t + / 2)%R.

(** [10 cos(pi k / 128)] rounded to the nearest integer, for the first
    quarter of the cycle, [k = 0..64]. *)
Definition cos_tbl : list Z :=
  [10; 10; 10; 10; 10; 10; 10; 10; 10; 10; 10; 10; 10; 9; 9; 9;
   9; 9; 9; 9; 9; 9; 9; 8; 8; 8; 8; 8; 8; 8; 7; 7;
   7; 7; 7; 7; 6; 6; 6; 6; 6; 5; 5; 5; 5; 4; 4; 4;
   4; 4; 3; 3; 3; 3; 2; 2; 2; 2; 1; 1; 1; 1; 0; 0; 0].

Definition quarter_cos (k : Z) : Z := nth (Z.to_nat k) cos_tbl 0.

Definition near_quarter_cos (k : Z) : Prop :=
  near (10 * cos (PI * IZR k / 128)) (quarter_cos k).

(** [10 cos(pi j / 128)] rounded, for [j = 0..256]. *)
Definition cos_idx (j : Z) : Z :=
  if j <=? 64 then quarter_cos j
  else if j <=? 128 then - quarter_cos (128 - j)
  else if j <=? 192 then - quarter_cos (j - 128)
  else quarter_cos (256 - j).

(** The table of the carrier: the values of [carr_I] and [carr_Q]. *)
Definition carr_tbl_I (i : Z) : Z := cos_idx i.
Definition carr_tbl_Q (i : Z) : Z := - cos_idx (Z.abs (i - 64)).

(** The value [sdr_func_init] assigns to [mix_tbl[(j << 8) + i]]. *)
Definition mix_entry (W j i : Z) : sdr_cpx16_t :=
  mk_cpx16
    (sint W (SDR_CPX8_I j * carr_I i - SDR_CPX8_Q j * carr_Q i))
    (sint W (SDR_CPX8_I j * carr_Q i + SDR_CPX8_Q j * carr_I i)).

(** *** Standard correlator *)

(** The sum of integers accumulated in a [float], in the order of the
    list. *)
Definition fsum (xs : list Z) : float :=
  fold_left (fun acc x => F32.add acc (F32.of_int x)) xs F32.zero.



(** The sum of the integers of a list, and of their magnitudes. *)
Definition sumZ (xs : list Z) : Z := fold_right Z.add 0 xs.
Definition sum_abs (xs : list Z) : Z :=
  fold_right (fun x s => Z.abs x + s) 0 xs.

(** The sum of the products of the cells [a..b) of two sequences. *)
Definition range_dot (u v : Z -> Z) (a b : Z) : Z :=
  sumZ (map (fun k => u k * v k) (rangeZ a b)).

(** The fields [I] and [Q] of the cells of an array. *)
Definition cells_I (a : Z -> sdr_cpx16_t) : Z -> Z := fun k => cpx16_I (a k).
Definition cells_Q (a : Z -> sdr_cpx16_t) : Z -> Z := fun k => cpx16_Q (a k).

(** The values of the fields of a code replica. *)
Definition ternary (z : Z) : Prop := z = -1 \/ z = 0 \/ z = 1.

(** A byte of [_mm256_sign_epi8]. *)
Definition sign8 (x y : Z) : Z :=
  if y <? 0 then sint 8 (- x) else if y =? 0 then 0 else x.

(** Sixteen lanes, bounded by [b] in magnitude, that total [t]. *)
Definition lanes_ok (b t : Z) (ys : list Z) : Prop :=
  length ys = 16%nat /\ Forall (fun y => Z.abs y <= b) ys /\ sumZ ys = t.

(** The invariant of the vector loop of [dot_IQ_code] on cells bounded by
    [B]: at the index [i] of the state, the lanes hold the products of the
    cells [f..i) added since the last flush, over at most 256 blocks, and
    [c] holds the sums of the products of the cells [0..f). *)
Definition dot_inv (IQ code : Z -> sdr_cpx16_t) (N B : Z) (st : dot_st)
  : Prop :=
  exists f cnt m,
    dot_i st = f + 16 * cnt /\ 0 <= cnt /\ dot_i st <= N /\
    ((f = 0 /\ cnt = 0) \/ (f = 4096 * m + 16 /\ 0 <= m /\ cnt <= 255)) /\
    lanes_ok (B * cnt)
      (range_dot (cells_I IQ) (cells_I code) f (dot_i st)) (dot_ysumI st) /\
    lanes_ok (B * cnt)
      (range_dot (cells_Q IQ) (cells_Q code) f (dot_i st)) (dot_ysumQ st) /\
    dot_c st = (F32.of_int (range_dot (cells_I IQ) (cells_I code) 0 f),
                F32.of_int (range_dot (cells_Q IQ) (cells_Q code) 0 f)).

(** The correlation of [M] cells of [IQ] from [a] with [M] cells of [code]
    from [b]: the sums of the products as integers, converted to [float],
    scaled by [1/M] and by [1/CSCALE]. *)
Definition corr_overlap_exact (IQ code : Z -> sdr_cpx16_t) (a b M : Z)
  : sdr_cpx_t :=
  let scale := F32.div (F32.div F32.one (F32.of_int M)) CSCALE in
  (F32.mul
     (F32.of_int
        (sumZ (map (fun k => cpx16_I (IQ (a + k)) * cpx16_I (code (b + k)))
                 (rangeZ 0 M)))) scale,
   F32.mul
     (F32.of_int
        (sumZ (map (fun k => cpx16_Q (IQ (a + k)) * cpx16_Q (code (b + k)))
                 (rangeZ 0 M)))) scale).

Definition corr_tap_exact (IQ code : Z -> sdr_cpx16_t) (N pos : Z)
  : sdr_cpx_t :=
  if 0 <? pos then corr_overlap_exact IQ code pos 0 (N - pos)
  else if pos <? 0 then corr_overlap_exact IQ code 0 (- pos) (N + pos)
  else corr_overlap_exact IQ code 0 0 N.

(** *** FFT correlator *)

(** Every plan in the cache was made for the length recorded for its
    slot. *)
Definition fft_cache_wf (st : fft_state) : Prop :=
  forall j, fftw_size st j <> 0 ->
    fftw_plans st j =
    (Some (mk_plan (fftw_size st j) FFTW_FORWARD),
     Some (mk_plan (fftw_size st j) FFTW_BACKWARD)).

(** The samples as [corr_fft] converts them: scaled by [1/CSCALE]. *)
Definition fft_samples (IQ : Z -> sdr_cpx16_t) (j : Z) : sdr_cpx_t :=
  (F32.div (F32.of_int (cpx16_I (IQ j))) CSCALE,
   F32.div (F32.of_int (cpx16_Q (IQ j))) CSCALE).

(** The complex product [a * b * s]. *)
Definition cpx_mul_scaled (a b : sdr_cpx_t) (s : float) : sdr_cpx_t :=
  (F32.mul (F32.sub (F32.mul (fst a) (fst b)) (F32.mul (snd a) (snd b))) s,
   F32.mul (F32.add (F32.mul (fst a) (snd b)) (F32.mul (snd a) (fst b))) s).

(** Cell [j] of the spectrum product of [corr_fft]: the transform of the
    samples, times the code spectrum, times [1/N/N]. *)
Definition fft_product (dft : Z -> list sdr_cpx_t -> Z -> sdr_cpx_t)
    (IQ : Z -> sdr_cpx16_t) (code_fft : Z -> sdr_cpx_t) (N j : Z) : sdr_cpx_t :=
  cpx_mul_scaled
    (dft FFTW_FORWARD (map (fft_samples IQ) (rangeZ 0 N)) j) (code_fft j)
    (F32.div (F32.div F32.one (F32.of_int N)) (F32.of_int N)).

(** *** Fine Doppler *)

(** [x^j] as [poly_fit] computes it: [1.0] multiplied [j] times by [x]. *)
Fixpoint pow_iter (x : double) (j : nat) : double :=
  match j with
  | O => F64.one
  | S j' => F64.mul (pow_iter x j') x
  end.

(** ** Inputs of the examples *)

(** A window of three samples [0x01] read from the start of a buffer of
    three cells, and the same window read from cell 1 around the end;
    [fs = 16777216 Hz], [fc = 65536.001953125 Hz],
    [phi = 16777215 / 2^32] cycles. *)
Definition wrap_buff : sdr_buff_t := mk_buff (fun _ => 1) 3 1.
Definition wrap_fs : double := F64.of_int 16777216.
Definition wrap_fc : double := F64.of_ratio 33554433 512.
Definition wrap_phi : double := F64.of_ratio 16777215 4294967296.
Definition wrap_IQ : Z -> sdr_cpx16_t := fun _ => mk_cpx16 0 0.

(** The same windows with [fs = 4 Hz], [fc = 1 Hz] and [phi = 0]. *)
Definition exact_fs : double := F64.of_int 4.
Definition exact_fc : double := F64.of_int 1.

(** A grid of two rows and two columns, [{{0, 2}, {2, 1}}], and the grid
    of zeros. *)
Definition peak_grid : Z -> float :=
  fun k => F32.of_int (nth (Z.to_nat k) [0; 2; 2; 1] 0).
Definition zero_grid : Z -> float := fun _ => F32.zero.
Definition ms : double := F64.of_ratio 1 1000.

(** The powers [{1, 4, 3}] at the Doppler bins [{100, 200, 300}] Hz, in a
    grid of one column. *)
Definition fine_P : Z -> float :=
  fun k => F32.of_int (nth (Z.to_nat k) [1; 4; 3] 0).
Definition fine_fds : Z -> float :=
  fun k => F32.of_int (nth (Z.to_nat k) [100; 200; 300] 0).

(** A cache whose 32 slots hold plans of length 8. *)
Definition full_cache : fft_state :=
  mk_fft_state
    (fun _ => (Some (mk_plan 8 FFTW_FORWARD), Some (mk_plan 8 FFTW_BACKWARD)))
    (fun _ => 8) [].

(** ** Notions for the bit utilities, the plan cache and the search *)

(** *** Bits *)

(** The exclusive-or, and the number, of the bits set among the [n] low
    bits of [x]. *)
Fixpoint xor_low_bits (n : nat) (x : Z) : bool :=
  match n with
  | O => false
  | S n' => xorb (Z.testbit x (Z.of_nat n')) (xor_low_bits n' x)
  end.

Fixpoint bit_count (n : nat) (x : Z) : Z :=
  match n with
  | O => 0
  | S n' => Z.b2z (Z.testbit x (Z.of_nat n')) + bit_count n' x
  end.

(** The value of the [n] cells [b 0 .. b (n-1)] read as bits, the most
    significant first. *)
Definition msb_value (b : Z -> Z) (n : Z) : Z :=
  for_loop 0 n (fun i acc => 2 * acc + b i) 0.

(** The bit at position [p] of the stream that [sdr_pack_bits] packs:
    [nz] zero bits, the [nbit] bits of [data], then zero bits. *)
Definition packed_bit (data : Z -> Z) (nbit nz p : Z) : bool :=
  (nz <=? p) && (p <? nz + nbit) && (load_u8 data (p - nz) =? 1).

(** The items added one after the other to a buffer. *)
Definition add_buff_all (buff : Z -> Z) (len_buff : Z) (items : list (Z -> Z))
    (size_item : Z) : Z -> Z :=
  fold_left (fun b item => sdr_add_buff b len_buff item size_item) items buff.

(** *** FFT plan cache *)

(** The two plans [get_fftw_plan] makes for the length [N]. *)
Definition plans_of (N : Z) : option fftwf_plan * option fftwf_plan :=
  (Some (mk_plan N FFTW_FORWARD), Some (mk_plan N FFTW_BACKWARD)).

(** The lengths recorded in the cache are those of the list [l], in the
    first slots and in the order of [l]; the other slots are empty. *)
Definition cache_lens (st : fft_state) (l : list Z) : Prop :=
  Z.of_nat (length l) <= MAX_FFTW_PLAN /\ NoDup l /\ ~ In 0 l /\
  (forall i, 0 <= i < Z.of_nat (length l) ->
     fftw_size st i = nth (Z.to_nat i) l 0) /\
  (forall i, Z.of_nat (length l) <= i < MAX_FFTW_PLAN -> fftw_size st i = 0).

(** A request for the length [N] to a set of at most [MAX_FFTW_PLAN]
    lengths, kept in the order of arrival: whether it is served, and the
    set after it. *)
Definition cache_request (l : list Z) (N : Z) : bool * list Z :=
  if existsb (Z.eqb N) l then (true, l)
  else if Z.of_nat (length l) <? MAX_FFTW_PLAN then (true, l ++ [N])
  else (false, l).

(** *** Signs, NaNs and powers *)

(** A number that is not a NaN and has the sign bit clear: [+0.0], a
    positive number or [+inf]. *)
Definition is_plus (x : spec_float) : bool :=
  match x with
  | S754_zero s | S754_infinity s | S754_finite s _ _ => negb s
  | S754_nan => false
  end.

(** A NaN, whose sign [spec_float] does not record, or a number with the
    sign bit clear. *)
Definition nan_or_plus (x : spec_float) : bool := is_nan x || is_plus x.


(** [abs(c) ** 2], as [sdr_search_code] computes it. *)
Definition cpx_power (c : sdr_cpx_t) : float :=
  F32.add (SQR (fst c)) (SQR (snd c)).

(** Cell [j] of the FFT correlation of the samples [IQ] with the code
    spectrum [code_fft]: the inverse transform of the spectrum product. *)
Definition fft_corr (dft : Z -> list sdr_cpx_t -> Z -> sdr_cpx_t)
    (IQ : Z -> sdr_cpx16_t) (code_fft : Z -> sdr_cpx_t) (N j : Z) : sdr_cpx_t :=
  dft FFTW_BACKWARD (map (fft_product dft IQ code_fft N) (rangeZ 0 N)) j.

Section SearchSpec.
Variable dft : Z -> list sdr_cpx_t -> Z -> sdr_cpx_t.
Variable tbl : Z -> sdr_cpx16_t.
Variable AVX2 : bool.
Variable IQ0 : Z -> Z -> sdr_cpx16_t.

(** The cell [x] of the grid after the search, for [x = i * N + j]: the
    power of the correlation at the Doppler bin [i] and the code offset
    [j], added to the cell. *)
Definition search_cell (code_fft : Z -> sdr_cpx_t) (buff : sdr_buff_t)
    (ix N : Z) (fs fi : double) (fds : Z -> float) (P : Z -> float) (x : Z)
  : float :=
  F32.add (P x)
    (cpx_power
       (fft_corr dft
          (sdr_mix_carr tbl AVX2 buff ix N fs
             (F64.add fi (double_of_float (fds (x / N)))) F64.zero
             (IQ0 (x / N)))
          code_fft N (x mod N))).

(** The invariant of the loop of [sdr_search_code] before the bin [i]:
    the cache serves the length [N], and the rows before [i] hold their
    powers. *)
Definition search_inv (code_fft : Z -> sdr_cpx_t) (buff : sdr_buff_t)
    (ix N : Z) (fs fi : double) (fds : Z -> float) (P : Z -> float)
    (st1 : fft_state) (i : Z)
    (s : (Z -> float) * (Z -> sdr_cpx_t) * fft_state) : Prop :=
  get_fftw_plan N (snd s) = (Some (plans_of N), st1) /\
  (0 < i -> snd s = st1) /\
  forall x, fst (fst s) x =
    if (0 <=? x) && (x <? i * N)
    then search_cell code_fft buff ix N fs fi fds P x else P x.
End SearchSpec.

(** *** The ring buffer of the mixer *)

(** The index of the LUT cell that [sdr_mix_carr] stores in [IQ[k]]: the
    sample is read from the buffer modulo its size; the phase is the
    accumulator of the first pass before the end of the buffer, and that
    of the second pass, which restarts from [phi + step * n], after it. *)
Definition mix_cell_index (buff : sdr_buff_t) (ix : Z) (fs fc phi : double)
    (k : Z) : Z :=
  let step := F64.mul (F64.div fc fs) (F64.of_int NTBL) in
  let phi' := F64.mul (fmod1 phi) (F64.of_int NTBL) in
  let n := buff_N buff - ix in
  Z.shiftl (load_u8 (buff_data buff) ((ix + k) mod buff_N buff)) 8 +
  (if ix + k <? buff_N buff
   then Z.shiftr (u32 (mix_phase phi' + mix_phase step * k)) 24
   else Z.shiftr
          (u32 (mix_phase (F64.add phi' (F64.mul step (F64.of_int n))) +
                mix_phase step * (k - n))) 24).

(** *** Frequency channels *)

(** The shift of the IF frequency per GLONASS frequency channel, in Hz:
    562.5 kHz for the signal G1CA, 437.5 kHz for G2CA, none for the other
    signals. *)
Definition fdma_step (sig : String.string) : Z :=
  if String.eqb sig "G1CA"%string then 562500
  else if String.eqb sig "G2CA"%string then 437500
  else 0.

(** ** Further inputs of the examples *)

(** Five bits, and two items of two bytes. *)
Definition five_bits : Z -> Z := fun k => nth (Z.to_nat k) [1; 0; 1; 1; 0] 0.
Definition item_a : Z -> Z := fun j => 10 + j.
Definition item_b : Z -> Z := fun j => 20 + j.

(** A transform that returns its first input cell, a LUT of one entry,
    and arrays of zeros. *)
Definition dft_first : Z -> list sdr_cpx_t -> Z -> sdr_cpx_t :=
  fun _ x _ => hd (F32.zero, F32.zero) x.
Definition tbl_one : Z -> sdr_cpx16_t := fun _ => mk_cpx16 1 0.
Definition cpx_zero : Z -> sdr_cpx_t := fun _ => (F32.zero, F32.zero).
Definition code_plus : Z -> sdr_cpx16_t := fun _ => mk_cpx16 1 (-1).

(** * Part II: properties *)

(** ** Loops *)

Lemma rangeZ_nil lo hi : hi <= lo -> rangeZ lo hi = [].
Proof.
  intros H. unfold rangeZ. replace (Z.to_nat (hi - lo)) with O by lia.
  reflexivity.
Qed.

Lemma rangeZ_snoc lo hi : lo <= hi -> rangeZ lo (hi + 1) = rangeZ lo hi ++ [hi].
Proof.
  intros H. unfold rangeZ.
  replace (Z.to_nat (hi + 1 - lo)) with (S (Z.to_nat (hi - lo))) by lia.
  rewrite seq_S, map_app. simpl. f_equal. f_equal. lia.
Qed.

Lemma in_rangeZ k lo hi : In k (rangeZ lo hi) <-> lo <= k < hi.
Proof.
  unfold rangeZ. rewrite in_map_iff. split.
  - intros [n [<- Hn]]. apply in_seq in Hn. lia.
  - intros H. exists (Z.to_nat (k - lo)). split; [lia|]. apply in_seq. lia.
Qed.

Lemma length_rangeZ lo hi : length (rangeZ lo hi) = Z.to_nat (hi - lo).
Proof. unfold rangeZ. now rewrite length_map, length_seq. Qed.

Lemma map_rangeZ_ext {A : Type} (f g : Z -> A) lo hi :
  (forall k, lo <= k < hi -> f k = g k) ->
  map f (rangeZ lo hi) = map g (rangeZ lo hi).
Proof. intros H. apply map_ext_in. intros k Hk. apply H. now apply in_rangeZ. Qed.

Lemma for_loop_nil {St : Type} lo hi (body : Z -> St -> St) s :
  hi <= lo -> for_loop lo hi body s = s.
Proof. intros H. unfold for_loop. now rewrite rangeZ_nil. Qed.

Lemma for_loop_snoc {St : Type} lo hi (body : Z -> St -> St) s :
  lo <= hi -> for_loop lo (hi + 1) body s = body hi (for_loop lo hi body s).
Proof.
  intros H. unfold for_loop. rewrite rangeZ_snoc by assumption.
  now rewrite fold_left_app.
Qed.

(** Loop invariants: [Inv k s] holds of the state [s] before iteration [k]. *)
Lemma for_loop_ind {St : Type} (Inv : Z -> St -> Prop) lo hi
    (body : Z -> St -> St) s :
  Inv lo s ->
  (forall k st, lo <= k < hi -> Inv k st -> Inv (k + 1) (body k st)) ->
  Inv (Z.max lo hi) (for_loop lo hi body s).
Proof.
  intros H0 Hstep.
  destruct (Z_le_gt_dec hi lo) as [Hle|Hgt].
  - rewrite for_loop_nil by assumption. now rewrite Z.max_l by lia.
  - rewrite Z.max_r by lia.
    assert (G : forall n : nat, lo + Z.of_nat n <= hi ->
                Inv (lo + Z.of_nat n) (for_loop lo (lo + Z.of_nat n) body s)).
    { induction n as [|n IH]; intros Hn.
      - rewrite Z.add_0_r, for_loop_nil by lia. exact H0.
      - replace (lo + Z.of_nat (S n)) with (lo + Z.of_nat n + 1) by lia.
        rewrite for_loop_snoc by lia. apply Hstep; [lia|]. apply IH. lia. }
    specialize (G (Z.to_nat (hi - lo))).
    replace (lo + Z.of_nat (Z.to_nat (hi - lo))) with hi in G by lia.
    apply G. lia.
Qed.

Lemma for_loop_ext {St : Type} lo hi (f g : Z -> St -> St) s :
  (forall k st, lo <= k < hi -> f k st = g k st) ->
  for_loop lo hi f s = for_loop lo hi g s.
Proof.
  intros H. unfold for_loop.
  assert (G : forall l, (forall k, In k l -> lo <= k < hi) ->
            forall s, fold_left (fun acc k => f k acc) l s =
                      fold_left (fun acc k => g k acc) l s).
  { induction l as [|a l IH]; intros Hl s0; [reflexivity|]. simpl.
    rewrite H by (apply Hl; now left). apply IH. intros k Hk. apply Hl. now right. }
  apply G. intros k Hk. now apply in_rangeZ.
Qed.

(** A component of the state that a loop folds over the cells it reads. *)
Lemma for_loop_map_fold {St A B : Type} (proj : St -> A) (step : A -> B -> A)
    (cell : Z -> B) lo hi (body : Z -> St -> St) s :
  (forall k st, proj (body k st) = step (proj st) (cell k)) ->
  proj (for_loop lo hi body s) = fold_left step (map cell (rangeZ lo hi)) (proj s).
Proof.
  intros H. unfold for_loop. generalize (rangeZ lo hi) as l. intros l. revert s.
  induction l as [|a l IH]; intros s; [reflexivity|].
  simpl. rewrite IH, H. reflexivity.
Qed.

(** A loop that assigns [f i] to cell [i]. *)
Lemma for_loop_upd {A : Type} lo hi (f : Z -> A) (a : Z -> A) k :
  for_loop lo hi (fun i acc => upd acc i (f i)) a k =
  if (lo <=? k) && (k <? hi) then f k else a k.
Proof.
  assert (G : (fun i acc => forall k, acc k =
                 if (lo <=? k) && (k <? i) then f k else a k)
              (Z.max lo hi)
              (for_loop lo hi (fun i acc => upd acc i (f i)) a)).
  { apply for_loop_ind.
    - intros j. destruct (lo <=? j) eqn:E1, (j <? lo) eqn:E2; try reflexivity. lia.
    - intros i acc Hi H j. unfold upd. destruct (Z.eqb_spec j i).
      + subst j. replace ((lo <=? i) && (i <? i + 1)) with true
          by (symmetry; apply andb_true_iff; lia). reflexivity.
      + rewrite H. destruct (lo <=? j) eqn:E1; cbn [andb]; [|reflexivity].
        destruct (j <? i) eqn:E2, (j <? i + 1) eqn:E3; try reflexivity; lia. }
  cbv beta in G. rewrite G.
  destruct (lo <=? k) eqn:E1; cbn [andb]; [|reflexivity].
  destruct (k <? Z.max lo hi) eqn:E2, (k <? hi) eqn:E3; try reflexivity; lia.
Qed.

(** ** Order of the IEEE comparisons *)

Lemma SFcompare_key x y :
  is_nan x = false -> is_nan y = false ->
  SFcompare x y = Some (lex3 (SFkey x) (SFkey y)).
Proof.
  destruct x as [sx|sx| |sx mx ex], y as [sy|sy| |sy my ey]; try discriminate;
    intros _ _; try (destruct sx); try (destruct sy); try reflexivity.
  all: unfold lex3, SFkey, SFcompare, fst, snd;
    rewrite Pos.compare_cont_spec, ?Z.compare_opp, ?(Z.compare_antisym ex ey);
    try change (Z.neg mx ?= Z.neg my) with (CompOpp (mx ?= my)%positive);
    try change (Z.pos mx ?= Z.pos my) with (mx ?= my)%positive;
    destruct (ex ?= ey); simpl; try reflexivity;
    destruct (mx ?= my)%positive; reflexivity.
Qed.

Lemma lex3_Lt a b : lex3 a b = Lt <-> lex3_lt a b.
Proof.
  unfold lex3, lex3_lt.
  destruct (Z.compare_spec (fst (fst a)) (fst (fst b)));
    destruct (Z.compare_spec (snd (fst a)) (snd (fst b)));
    destruct (Z.compare_spec (snd a) (snd b));
    split; intros; try discriminate; try reflexivity; try lia.
Qed.

Lemma lex3_Gt a b : lex3 a b = Gt <-> lex3_lt b a.
Proof.
  unfold lex3, lex3_lt.
  destruct (Z.compare_spec (fst (fst a)) (fst (fst b)));
    destruct (Z.compare_spec (snd (fst a)) (snd (fst b)));
    destruct (Z.compare_spec (snd a) (snd b));
    split; intros; try discriminate; try reflexivity; try lia.
Qed.

Lemma SFltb_key x y :
  is_nan x = false -> is_nan y = false ->
  (SFltb x y = true <-> lex3_lt (SFkey x) (SFkey y)).
Proof.
  intros Hx Hy. unfold SFltb. rewrite (SFcompare_key x y Hx Hy).
  rewrite <- lex3_Lt. destruct (lex3 _ _); split; congruence.
Qed.

Lemma SFleb_key x y :
  is_nan x = false -> is_nan y = false ->
  (SFleb x y = true <-> ~ lex3_lt (SFkey y) (SFkey x)).
Proof.
  intros Hx Hy. unfold SFleb. rewrite (SFcompare_key x y Hx Hy).
  rewrite <- lex3_Gt. destruct (lex3 _ _); split; congruence.
Qed.

Lemma lex3_lt_dec a b : {lex3_lt a b} + {~ lex3_lt a b}.
Proof.
  unfold lex3_lt.
  destruct a as [[a1 a2] a3], b as [[b1 b2] b3]; simpl.
  destruct (Z_lt_dec a1 b1); [left; lia|].
  destruct (Z.eq_dec a1 b1); [|right; lia].
  destruct (Z_lt_dec a2 b2); [left; lia|].
  destruct (Z.eq_dec a2 b2); [|right; lia].
  destruct (Z_lt_dec a3 b3); [left; lia|right; lia].
Qed.

(** On numbers, [x <= y] fails only when [y < x]. *)
Lemma SFleb_false_ltb x y :
  is_nan x = false -> is_nan y = false -> SFleb x y = false -> SFltb y x = true.
Proof.
  intros Hx Hy H. apply (SFltb_key y x Hy Hx).
  destruct (lex3_lt_dec (SFkey y) (SFkey x)) as [D|D]; [exact D|].
  apply (SFleb_key x y Hx Hy) in D. congruence.
Qed.

Lemma SFleb_ltb_trans x y z :
  is_nan x = false -> is_nan y = false -> is_nan z = false ->
  SFleb x y = true -> SFltb y z = true -> SFltb x z = true.
Proof.
  intros Hx Hy Hz H1 H2.
  apply (SFleb_key x y Hx Hy) in H1. apply (SFltb_key y z Hy Hz) in H2.
  apply (SFltb_key x z Hx Hz). unfold lex3_lt in *.
  destruct (SFkey x) as [[a1 a2] a3], (SFkey y) as [[b1 b2] b3],
    (SFkey z) as [[c1 c2] c3]; simpl in *. lia.
Qed.

Lemma SFltb_leb_trans x y z :
  is_nan x = false -> is_nan y = false -> is_nan z = false ->
  SFltb x y = true -> SFleb y z = true -> SFltb x z = true.
Proof.
  intros Hx Hy Hz H1 H2.
  apply (SFltb_key x y Hx Hy) in H1. apply (SFleb_key y z Hy Hz) in H2.
  apply (SFltb_key x z Hx Hz). unfold lex3_lt in *.
  destruct (SFkey x) as [[a1 a2] a3], (SFkey y) as [[b1 b2] b3],
    (SFkey z) as [[c1 c2] c3]; simpl in *. lia.
Qed.

Lemma SFltb_leb x y : SFltb x y = true -> SFleb x y = true.
Proof. unfold SFltb, SFleb. destruct (SFcompare x y) as [[]|]; congruence. Qed.

Lemma SFleb_refl x : is_nan x = false -> SFleb x x = true.
Proof.
  intros Hx. apply (SFleb_key x x Hx Hx). unfold lex3_lt. lia.
Qed.

Lemma SFleb_ltb_false x y : SFleb x y = true -> SFltb y x = false.
Proof.
  destruct (is_nan x) eqn:Hx; [destruct x; try discriminate; destruct y; reflexivity|].
  destruct (is_nan y) eqn:Hy; [destruct y; try discriminate; reflexivity|].
  intros H. apply (SFleb_key x y Hx Hy) in H.
  destruct (SFltb y x) eqn:E; [|reflexivity].
  apply (SFltb_key y x Hy Hx) in E. contradiction.
Qed.

(** ** Peak detection: [sdr_corr_max] *)

Section CorrMaxInv.
Variable P : Z -> float.
Variables N Nmax M : Z.
Variable ix0 : Z * Z.
Hypothesis P_not_nan :
  forall i j, 0 <= i < M -> 0 <= j < Nmax -> is_nan (P (i * N + j)) = false.

Lemma corr_max_inv_step i j st :
  0 <= i < M -> 0 <= j < Nmax ->
  corr_max_inv P N Nmax ix0 i j st ->
  corr_max_inv P N Nmax ix0 i (j + 1) (corr_max_body P N i j st).
Proof.
  intros Hi Hj (Hnan & Hle & Hix).
  pose proof (P_not_nan i j Hi Hj) as Hx.
  assert (Hvis : forall i' j', visited Nmax i (j + 1) i' j' ->
             visited Nmax i j i' j' \/ (i' = i /\ j' = j)).
  { unfold visited. intros i' j' H.
    destruct (Z.eq_dec i' i); destruct (Z.eq_dec j' j); lia. }
  assert (Hnan' : forall i' j', visited Nmax i j i' j' ->
             is_nan (P (i' * N + j')) = false).
  { unfold visited. intros i' j' H. apply P_not_nan; lia. }
  unfold corr_max_body, F32.leb, F32.ltb in *.
  destruct (SFleb (P (i * N + j)) (cm_P_max st)) eqn:E; simpl.
  - split; [exact Hnan|]. split.
    + intros i' j' H. destruct (Hvis _ _ H) as [H'|[-> ->]]; auto.
    + destruct Hix as [(Hi0 & Hz & Hno)|(i0 & j0 & Hv & H1 & H2 & H3 & H4)].
      * left. split; [exact Hi0|]. split; [exact Hz|].
        intros i' j' H. destruct (Hvis _ _ H) as [H'|[-> ->]]; auto.
        apply SFleb_ltb_false. now rewrite <- Hz.
      * right. exists i0, j0. split; [|auto].
        unfold visited in *. lia.
  - pose proof (SFleb_false_ltb _ _ Hx Hnan E) as Hlt.
    split; [exact Hx|]. split.
    + intros i' j' H. destruct (Hvis _ _ H) as [H'|[-> ->]].
      * apply SFltb_leb.
        apply (SFleb_ltb_trans _ (cm_P_max st)); auto.
      * now apply SFleb_refl.
    + right. exists i, j. split; [unfold visited; lia|].
      split; [reflexivity|]. split; [reflexivity|]. split.
      * destruct Hix as [(Hi0 & Hz & Hno)|(i0 & j0 & Hv & H1 & H2 & H3 & H4)].
        -- now rewrite <- Hz.
        -- apply (SFltb_leb_trans _ (cm_P_max st)); auto.
           now apply SFltb_leb.
      * intros i' j' H.
        apply (SFleb_ltb_trans _ (cm_P_max st)); auto.
Qed.

Lemma corr_max_inv_row i st :
  0 <= i < M ->
  corr_max_inv P N Nmax ix0 i 0 st ->
  corr_max_inv P N Nmax ix0 (i + 1) 0
    (for_loop 0 Nmax (fun j => corr_max_body P N i j) st).
Proof.
  intros Hi H0.
  assert (G : corr_max_inv P N Nmax ix0 i (Z.max 0 Nmax)
                (for_loop 0 Nmax (fun j => corr_max_body P N i j) st)).
  { apply (for_loop_ind (corr_max_inv P N Nmax ix0 i)); [exact H0|].
    intros k s Hk. now apply corr_max_inv_step. }
  revert G. generalize (for_loop 0 Nmax (fun j => corr_max_body P N i j) st).
  intros s (Hnan & Hle & Hix).
  assert (Hvis : forall i' j', visited Nmax (i + 1) 0 i' j' <->
             visited Nmax i (Z.max 0 Nmax) i' j').
  { unfold visited. intros; lia. }
  split; [exact Hnan|]. split.
  - intros i' j' H. apply Hle. now apply Hvis.
  - destruct Hix as [(Hi0 & Hz & Hno)|(i0 & j0 & Hv & H1 & H2 & H3 & H4)].
    + left. split; [exact Hi0|]. split; [exact Hz|].
      intros i' j' H. apply Hno. now apply Hvis.
    + right. exists i0, j0. split; [now apply Hvis|auto].
Qed.

Lemma corr_max_inv_final :
  corr_max_inv P N Nmax ix0 (Z.max 0 M) 0 (corr_max_scan P N Nmax M ix0).
Proof.
  unfold corr_max_scan.
  apply (for_loop_ind (fun i st => corr_max_inv P N Nmax ix0 i 0 st)).
  - split; [reflexivity|]. split.
    + unfold visited. intros; lia.
    + left. split; [reflexivity|]. split; [reflexivity|].
      unfold visited. intros; lia.
  - intros k st Hk. now apply corr_max_inv_row.
Qed.
End CorrMaxInv.

(** The mean of the scan is the running mean of the scanned cells. *)
Lemma corr_max_scan_mean P N Nmax M ix0 :
  cm_mean (corr_max_scan P N Nmax M ix0) =
  fold_left (mean_step float F32.add F32.sub F32.div F32.of_int)
    (scan_cells P N Nmax M) (F32.zero, 0).
Proof.
  unfold corr_max_scan, scan_cells.
  change (F32.zero, 0) with (cm_mean (mk_corr_max_st F32.zero F32.zero 0 ix0)).
  generalize (mk_corr_max_st F32.zero F32.zero 0 ix0) as s.
  unfold for_loop at 1.
  generalize (rangeZ 0 M) as l.
  induction l as [|i l IH]; intros s; [reflexivity|].
  simpl. rewrite fold_left_app, IH. f_equal.
  apply (for_loop_map_fold cm_mean
           (mean_step float F32.add F32.sub F32.div F32.of_int)
           (fun j => P (i * N + j))).
  intros k st. unfold corr_max_body, mean_step, cm_mean.
  destruct (F32.leb _ _); reflexivity.
Qed.

(** The scan reads the scanned cells only. *)
Lemma corr_max_scan_ext P P' N Nmax M ix0 :
  (forall i j, 0 <= i < M -> 0 <= j < Nmax -> P' (i * N + j) = P (i * N + j)) ->
  corr_max_scan P' N Nmax M ix0 = corr_max_scan P N Nmax M ix0.
Proof.
  intros H. unfold corr_max_scan. apply for_loop_ext. intros i st Hi.
  apply for_loop_ext. intros j st' Hj. unfold corr_max_body.
  now rewrite H.
Qed.

(** A mean that is zero or not a number stays so at a zero cell. *)
Lemma mean_step_zero a x d :
  zero_or_nan a = true -> is_zero x = true ->
  zero_or_nan (F32.add a (F32.div (F32.sub x a) d)) = true.
Proof.
  destruct a as [sa| | |]; try discriminate; destruct x as [sx| | |];
    try discriminate; intros _ _.
  - destruct d as [sd|sd| |sd md ed], sx, sa; try destruct sd; reflexivity.
  - destruct d; reflexivity.
Qed.

(** In exact arithmetic the incremental update computes the arithmetic
    mean. *)
Lemma running_mean_Q_sum (xs : list Q) : forall (a : Q) (n : Z),
  0 <= n ->
  (fst (fold_left (mean_step Q Qplus Qminus Qdiv inject_Z) xs (a, n)) *
     inject_Z (n + Z.of_nat (length xs)) ==
   a * inject_Z n + fold_right Qplus 0 xs)%Q.
Proof.
  induction xs as [|x xs IH]; intros a n Hn.
  - simpl. rewrite Z.add_0_r. ring.
  - cbn [fold_left fold_right length]. unfold mean_step at 2. cbn [fst snd].
    replace (n + Z.of_nat (S (length xs))) with (n + 1 + Z.of_nat (length xs))
      by lia.
    rewrite IH by lia. rewrite inject_Z_plus.
    assert (Hn1 : ~ (inject_Z n + inject_Z 1 == 0)%Q).
    { rewrite <- inject_Z_plus. intros E.
      apply (Qeq_bool_neq (inject_Z (n + 1)) 0); [|exact E].
      unfold Qeq_bool, inject_Z. simpl. apply Z.eqb_neq. lia. }
    field. exact Hn1.
Qed.

Lemma running_mean_Q_exact (xs : list Q) :
  xs <> [] ->
  (running_mean_Q xs ==
   fold_right Qplus 0 xs / inject_Z (Z.of_nat (length xs)))%Q.
Proof.
  intros Hxs. unfold running_mean_Q, running_mean_from.
  pose proof (running_mean_Q_sum xs 0%Q 0 ltac:(lia)) as H.
  rewrite Z.add_0_l in H.
  assert (Hl : ~ (inject_Z (Z.of_nat (length xs)) == 0)%Q).
  { intros E. apply (Qeq_bool_neq (inject_Z (Z.of_nat (length xs))) 0);
      [|exact E].
    unfold Qeq_bool, inject_Z. simpl. apply Z.eqb_neq.
    destruct xs; [congruence|simpl; lia]. }
  apply (Qmult_inj_r _ _ _ Hl). rewrite H. field. exact Hl.
Qed.

Section CorrMaxSpec.
Variable log10f : float -> float.

(** C2, as amended.  When no scanned cell is a NaN and some scanned cell
    exceeds [0.0], [sdr_corr_max] leaves in [ix] the first cell [(i, j)] in
    row-major order that holds the maximum of the scanned cells
    [P[i'][j']], [0 <= i' < M], [0 <= j' < Nmax]: every scanned cell is at
    most [P[i][j]] and every earlier one is less.  [P_max] is that cell,
    [P_ave] is the running mean of the scanned cells (the incremental
    update, in single precision), and the returned value is
    [10 log10((P_max - P_ave) / P_ave / T)] when [P_ave > 0] and [0]
    otherwise.  The result depends on the scanned cells only. *)
Theorem sdr_corr_max_spec (P : Z -> float) (N Nmax M : Z) (T : double)
    (ix0 : Z * Z) :
  (forall i j, 0 <= i < M -> 0 <= j < Nmax -> is_nan (P (i * N + j)) = false) ->
  (exists i j, 0 <= i < M /\ 0 <= j < Nmax /\
     F32.ltb F32.zero (P (i * N + j)) = true) ->
  exists i j,
    0 <= i < M /\ 0 <= j < Nmax /\
    (forall i' j', 0 <= i' < M -> 0 <= j' < Nmax ->
       F32.leb (P (i' * N + j')) (P (i * N + j)) = true) /\
    (forall i' j', 0 <= i' < M -> 0 <= j' < Nmax -> row_major_lt i' j' i j ->
       F32.ltb (P (i' * N + j')) (P (i * N + j)) = true) /\
    cm_P_max (corr_max_scan P N Nmax M ix0) = P (i * N + j) /\
    cm_P_ave (corr_max_scan P N Nmax M ix0) =
      running_mean (scan_cells P N Nmax M) /\
    sdr_corr_max log10f P N Nmax M T ix0 =
      (let P_max := P (i * N + j) in
       let P_ave := running_mean (scan_cells P N Nmax M) in
       if F32.ltb F32.zero P_ave
       then F32.mul F32.ten
              (log10f (float_of_double
                 (F64.div (double_of_float
                             (F32.div (F32.sub P_max P_ave) P_ave)) T)))
       else F32.zero,
       (i, j)) /\
    (forall P', (forall i' j', 0 <= i' < M -> 0 <= j' < Nmax ->
                   P' (i' * N + j') = P (i' * N + j')) ->
       sdr_corr_max log10f P' N Nmax M T ix0 =
       sdr_corr_max log10f P N Nmax M T ix0).
Proof.
  intros Hnan (ip & jp & Hip & Hjp & Hpos).
  pose proof (corr_max_inv_final P N Nmax M ix0 Hnan) as (Hn & Hle & Hix).
  pose proof (corr_max_scan_mean P N Nmax M ix0) as Hmean.
  rewrite Z.max_r in * by lia.
  assert (Hall : forall i' j', 0 <= i' < M -> 0 <= j' < Nmax ->
             visited Nmax M 0 i' j') by (unfold visited; intros; lia).
  destruct Hix as [(_ & _ & Hno)|(i0 & j0 & Hv & H1 & H2 & H3 & H4)].
  { rewrite Hno in Hpos by now apply Hall. discriminate. }
  assert (Have : cm_P_ave (corr_max_scan P N Nmax M ix0) =
                 running_mean (scan_cells P N Nmax M)).
  { change (cm_P_ave (corr_max_scan P N Nmax M ix0))
      with (fst (cm_mean (corr_max_scan P N Nmax M ix0))).
    rewrite Hmean. reflexivity. }
  exists i0, j0. unfold visited in Hv.
  split; [lia|]. split; [lia|]. split.
  { intros i' j' Hi' Hj'. rewrite <- H2. apply Hle. now apply Hall. }
  split.
  { intros i' j' Hi' Hj' Hlt. rewrite <- H2. apply H4.
    unfold visited, row_major_lt in *. lia. }
  split; [exact H2|]. split; [exact Have|]. split.
  { unfold sdr_corr_max, corr_max_cn0. now rewrite H1, H2, Have. }
  intros P' HP'. unfold sdr_corr_max.
  now rewrite (corr_max_scan_ext P P' N Nmax M ix0 HP').
Qed.

(** C10, as amended.  [sdr_corr_max] writes [ix] only at a cell that
    fails the test [P[i*N+j] <= P_max] against the running maximum, which
    starts at [0.0]: a cell strictly greater than the running maximum, or
    a cell such that it or the running maximum is a NaN.  A NaN cell is
    always written to [ix] and becomes the running maximum.  When every
    scanned cell is zero the function returns [0.0] and leaves [ix] as the
    caller passed it. *)
Theorem sdr_corr_max_zero_grid (P : Z -> float) (N Nmax M : Z) (T : double)
    (ix : Z * Z) :
  (forall i j, 0 <= i < M -> 0 <= j < Nmax -> is_zero (P (i * N + j)) = true) ->
  (forall st i j,
     cm_ix (corr_max_body P N i j st) <> cm_ix st ->
     F32.ltb (cm_P_max st) (P (i * N + j)) = true \/
     is_nan (P (i * N + j)) = true \/ is_nan (cm_P_max st) = true) /\
  (forall st i j,
     is_nan (P (i * N + j)) = true ->
     cm_ix (corr_max_body P N i j st) = (i, j) /\
     is_nan (cm_P_max (corr_max_body P N i j st)) = true) /\
  cm_P_max (corr_max_scan P N 0 0 ix) = F32.zero /\
  sdr_corr_max log10f P N Nmax M T ix = (F32.zero, ix).
Proof.
  intros Hz. split; [|split; [|split; [reflexivity|]]].
  - intros st i j Hne. unfold corr_max_body in Hne.
    destruct (F32.leb (P (i * N + j)) (cm_P_max st)) eqn:E.
    + now elim Hne.
    + destruct (is_nan (P (i * N + j))) eqn:Hx; [right; left; reflexivity|].
      destruct (is_nan (cm_P_max st)) eqn:Hm; [right; right; reflexivity|].
      left. now apply SFleb_false_ltb.
  - intros st i j Hx. unfold corr_max_body.
    destruct (P (i * N + j)); try discriminate Hx.
    split; reflexivity.
  - assert (G : let st := corr_max_scan P N Nmax M ix in
                cm_P_max st = F32.zero /\ cm_ix st = ix /\
                zero_or_nan (cm_P_ave st) = true).
    { unfold corr_max_scan.
      apply (for_loop_ind (fun (_ : Z) st =>
               cm_P_max st = F32.zero /\ cm_ix st = ix /\
               zero_or_nan (cm_P_ave st) = true)).
      - simpl. auto.
      - intros i st Hi Hst.
        apply (for_loop_ind (fun (_ : Z) st =>
               cm_P_max st = F32.zero /\ cm_ix st = ix /\
               zero_or_nan (cm_P_ave st) = true)); [exact Hst|].
        intros j s Hj (Hm & Hi0 & Ha). specialize (Hz i j Hi Hj).
        unfold corr_max_body. rewrite Hm.
        replace (F32.leb (P (i * N + j)) F32.zero) with true
          by (destruct (P (i * N + j)); try discriminate; reflexivity).
        simpl. split; [reflexivity|]. split; [exact Hi0|].
        now apply mean_step_zero. }
    destruct G as (Hm & Hi0 & Ha). unfold sdr_corr_max, corr_max_cn0.
    rewrite Hm, Hi0.
    destruct (cm_P_ave (corr_max_scan P N Nmax M ix)); try discriminate;
      reflexivity.
Qed.
End CorrMaxSpec.

(** The grid [{{0, 2}, {2, 1}}]: the maximum [2] is first met at cell
    [(0, 1)]. *)
Lemma sdr_corr_max_spec_witness :
  exists i j,
    snd (sdr_corr_max (fun x => x) peak_grid 2 2 2 ms (7, 7)) = (i, j) /\
    F32.leb (peak_grid (1 * 2 + 0)) (peak_grid (i * 2 + j)) = true.
Proof.
  destruct (sdr_corr_max_spec (fun x => x) peak_grid 2 2 2 ms (7, 7))
    as (i & j & Hi & Hj & Hle & Hlt & Hmax & Have & Hret & Hext).
  - intros i j Hi Hj.
    assert (Ei : i = 0 \/ i = 1) by lia. assert (Ej : j = 0 \/ j = 1) by lia.
    destruct Ei as [-> | ->], Ej as [-> | ->]; reflexivity.
  - exists 0, 1. split; [lia|]. split; [lia|]. reflexivity.
  - exists i, j. split.
    + rewrite Hret. reflexivity.
    + apply Hle; lia.
Defined.

(** C2 fails as stated: in a grid of row stride 2 scanned over one row
    and one column, the only scanned cell is [P[0][0] = 0]; with [ix]
    holding [(0, 1)] on entry, [sdr_corr_max] leaves [(0, 1)] in [ix],
    which is not a scanned cell, and [P[0][1] = 5] is not the maximum of
    the scanned region. *)
Lemma sdr_corr_max_ix_not_stored :
  let P := fun k => if k =? 0 then F32.zero else F32.of_int 5 in
  scan_cells P 2 1 1 = [F32.zero] /\
  snd (sdr_corr_max (fun x => x) P 2 1 1 ms (0, 1)) = (0, 1) /\
  F32.leb (P (0 * 2 + 1)) (P (0 * 2 + 0)) = false.
Proof. vm_compute. repeat split. Qed.

(** C10 fails as stated: on a grid of one cell that is a NaN, with [ix]
    holding [(5, 7)] on entry, [sdr_corr_max] writes [(0, 0)] to [ix]
    though the cell is not strictly greater than the running maximum
    [0.0]. *)
Lemma sdr_corr_max_nan_writes_ix :
  let P := fun _ : Z => S754_nan in
  cm_P_max (corr_max_scan P 1 0 0 (5, 7)) = F32.zero /\
  F32.ltb F32.zero (P (0 * 1 + 0)) = false /\
  cm_ix (corr_max_body P 1 0 0 (corr_max_scan P 1 0 0 (5, 7))) = (0, 0) /\
  snd (sdr_corr_max (fun x => x) P 1 1 1 ms (5, 7)) = (0, 0).
Proof. vm_compute. repeat split. Qed.

Lemma sdr_corr_max_zero_grid_witness :
  sdr_corr_max (fun x => x) zero_grid 2 2 2 ms (5, 7) = (F32.zero, (5, 7)).
Proof.
  apply (sdr_corr_max_zero_grid (fun x => x) zero_grid 2 2 2 ms (5, 7)).
  intros i j Hi Hj. reflexivity.
Defined.

(** ** Carrier mixer: [mix_carr] and [sdr_mix_carr] *)

Lemma u32_range z : 0 <= u32 z < 2 ^ 32.
Proof. unfold u32. apply Z.mod_pos_bound. lia. Qed.

Lemma u32_small z : 0 <= z < 2 ^ 32 -> u32 z = z.
Proof. unfold u32. apply Z.mod_small. Qed.

Lemma u32_add_l a b : u32 (u32 a + b) = u32 (a + b).
Proof. unfold u32. now rewrite Z.add_mod_idemp_l by lia. Qed.

Lemma u32_add_r a b : u32 (a + u32 b) = u32 (a + b).
Proof. unfold u32. now rewrite Z.add_mod_idemp_r by lia. Qed.

Lemma uint32_of_double_range x : 0 <= uint32_of_double x < 2 ^ 32.
Proof.
  unfold uint32_of_double. destruct (_ && _); [apply u32_range|lia].
Qed.

Lemma load_u8_range data k : 0 <= load_u8 data k < 256.
Proof. unfold load_u8. apply Z.mod_pos_bound. lia. Qed.

Lemma phase_index_range q : 0 <= q < 2 ^ 32 -> 0 <= Z.shiftr q 24 < 256.
Proof.
  intros H. rewrite Z.shiftr_div_pow2 by lia. split.
  - apply Z.div_pos; lia.
  - apply Z.div_lt_upper_bound; lia.
Qed.

(** Below a byte shifted by 8 bits, adding a byte is setting its bits. *)
Lemma shl8_add_lor b x :
  0 <= x < 256 -> Z.shiftl b 8 + x = Z.lor (Z.shiftl b 8) x.
Proof.
  intros Hx.
  assert (L : Z.land (Z.shiftl b 8) x = 0).
  { apply Z.bits_inj'. intros n Hn. rewrite Z.land_spec, Z.bits_0.
    destruct (Z_lt_dec n 8).
    - rewrite Z.shiftl_spec_low by lia. reflexivity.
    - replace (Z.testbit x n) with false; [apply andb_false_r|].
      symmetry. destruct (Z.eq_dec x 0) as [->|Hne]; [apply Z.bits_0|].
      apply Z.bits_above_log2; [lia|].
      apply Z.log2_lt_pow2; [lia|].
      apply Z.lt_le_trans with (2 ^ 8); [lia|].
      apply Z.pow_le_mono_r; lia. }
  pose proof (Z.add_lor_land (Z.shiftl b 8) x). lia.
Qed.

Lemma phase_acc_closed p s i :
  0 <= p < 2 ^ 32 -> phase_acc p s i = u32 (p + s * Z.of_nat i).
Proof.
  intros Hp. induction i as [|i IH].
  - simpl. rewrite Z.mul_0_r, Z.add_0_r. symmetry. now apply u32_small.
  - cbn [phase_acc]. rewrite IH, u32_add_l. f_equal. lia.
Qed.

Section MixerProofs.
Variable tbl : Z -> sdr_cpx16_t.

Lemma mix_carr_scalar_spec data N s i0 p0 IQ :
  let r := mix_carr_scalar tbl data N s i0 p0 IQ in
  forall k, snd r k =
    if (i0 <=? k) && (k <? N) then mix_ref tbl data p0 s k else IQ k.
Proof.
  unfold mix_carr_scalar.
  assert (G : (fun i st =>
             fst st = u32 (p0 + s * i) /\
             forall k, snd st k =
               if (i0 <=? k) && (k <? i) then mix_ref tbl data p0 s k else IQ k)
            (Z.max i0 N)
            (for_loop i0 N
               (fun i st =>
                  (u32 (fst st + s),
                   upd (snd st) i
                     (tbl (Z.shiftl (load_u8 data i) 8 + Z.shiftr (fst st) 24))))
               (u32 (p0 + u32 (s * i0)), IQ))).
  { apply for_loop_ind.
    - simpl. split; [apply u32_add_r|].
      intros k. destruct (i0 <=? k) eqn:E1, (k <? i0) eqn:E2; try reflexivity.
      lia.
    - intros i [p IQ'] Hi [Hp HIQ]. simpl in *. split.
      + rewrite Hp, u32_add_l. f_equal. lia.
      + intros k. unfold upd. destruct (k =? i) eqn:E.
        * apply Z.eqb_eq in E. subst k.
          replace ((i0 <=? i) && (i <? i + 1)) with true
            by (symmetry; apply andb_true_iff; lia).
          unfold mix_ref. now rewrite Hp.
        * rewrite HIQ. apply Z.eqb_neq in E.
          destruct (i0 <=? k) eqn:E1; simpl; [|reflexivity].
          destruct (k <? i) eqn:E2, (k <? i + 1) eqn:E3; try reflexivity; lia. }
  simpl. intros k. destruct G as [_ G]. rewrite G.
  destruct (i0 <=? k) eqn:E1; simpl; [|reflexivity].
  destruct (k <? Z.max i0 N) eqn:E2, (k <? N) eqn:E3; try reflexivity; lia.
Qed.

Lemma store8_spec (IQ : Z -> sdr_cpx16_t) i (f : Z -> Z) k :
  store8 tbl IQ i (map f (rangeZ 0 8)) k =
  if (i <=? k) && (k <? i + 8) then tbl (f (k - i)) else IQ k.
Proof.
  unfold store8, upd.
  change (rangeZ 0 8) with [0; 1; 2; 3; 4; 5; 6; 7].
  cbn [map combine fold_left fst snd].
  repeat match goal with
         | |- context [k =? ?a] =>
             destruct (Z.eqb_spec k a); try (exfalso; lia)
         end;
    match goal with
    | |- context [(i <=? k) && (k <? i + 8)] =>
        destruct (i <=? k) eqn:E1, (k <? i + 8) eqn:E2;
        try reflexivity; try (exfalso; lia)
    end;
    cbn [andb]; f_equal; f_equal; lia.
Qed.

(** The eight indices of an iteration of the vector loop. *)
Lemma avx2_step_idx data p s i :
  mm256_add_epi32 (mm256_slli_epi32 (mm256_cvtepu8_epi32_loadu data i) 8)
    (mm256_srli_epi32 (yphi_at p s i) 24) =
  map (fun k => Z.shiftl (load_u8 data (i + k)) 8 +
                Z.shiftr (u32 (p + s * (i + k))) 24) (rangeZ 0 8).
Proof.
  unfold mm256_add_epi32, mm256_slli_epi32, mm256_srli_epi32,
    mm256_cvtepu8_epi32_loadu, yphi_at, zip_with.
  change (rangeZ 0 8) with [0; 1; 2; 3; 4; 5; 6; 7].
  cbn [map combine fst snd].
  repeat (f_equal;
    try (match goal with
         | |- u32 (u32 (Z.shiftl ?d 8) + Z.shiftr ?q 24) = _ =>
             let Hd := fresh in let Hq := fresh in
             assert (Hd : 0 <= d < 256) by apply load_u8_range;
             assert (Hq : 0 <= Z.shiftr q 24 < 256)
               by (apply phase_index_range, u32_range);
             rewrite (u32_small (Z.shiftl d 8))
               by (rewrite Z.shiftl_mul_pow2 by lia; lia);
             apply u32_small; rewrite Z.shiftl_mul_pow2 by lia; lia
         end)).
Qed.

(** The eight phases advance by eight steps. *)
Lemma avx2_step_phi p s i :
  mm256_add_epi32 (yphi_at p s i)
    (mm256_set_epi32 (u32 (s * 8)) (u32 (s * 8)) (u32 (s * 8)) (u32 (s * 8))
       (u32 (s * 8)) (u32 (s * 8)) (u32 (s * 8)) (u32 (s * 8))) =
  yphi_at p s (i + 8).
Proof.
  unfold mm256_add_epi32, mm256_set_epi32, yphi_at, zip_with.
  change (rangeZ 0 8) with [0; 1; 2; 3; 4; 5; 6; 7].
  cbn [map combine fst snd].
  repeat (f_equal; try (rewrite u32_add_l, u32_add_r; f_equal; lia)).
Qed.

(** The vector loop ends by its test, not by its fuel, and writes the
    cells before its final index as the scalar loop would. *)
Lemma mix_carr_avx2_spec data N p s :
  let ystp := mm256_set_epi32 (u32 (s * 8)) (u32 (s * 8)) (u32 (s * 8))
                (u32 (s * 8)) (u32 (s * 8)) (u32 (s * 8)) (u32 (s * 8))
                (u32 (s * 8)) in
  forall fuel i IQ,
    0 <= i ->
    (N - 16 - i <= 8 * Z.of_nat fuel) ->
    let r := mix_carr_avx2 tbl fuel data N ystp i (yphi_at p s i) IQ in
    i <= fst r /\ N - 16 <= fst r /\ (fst r = i \/ fst r < N - 8) /\
    forall k, snd r k =
      if (i <=? k) && (k <? fst r) then mix_ref tbl data p s k else IQ k.
Proof.
  intros ystp. induction fuel as [|fuel IH]; intros i IQ Hi Hfuel.
  - simpl. split; [lia|]. split; [lia|]. split; [now left|].
    intros k. destruct (i <=? k) eqn:E1, (k <? i) eqn:E2; try reflexivity; lia.
  - cbn [mix_carr_avx2]. destruct (i <? N - 16) eqn:E.
    + apply Z.ltb_lt in E.
      rewrite avx2_step_idx.
      replace (mm256_add_epi32 (yphi_at p s i) ystp) with (yphi_at p s (i + 8))
        by (symmetry; apply avx2_step_phi).
      specialize (IH (i + 8)
        (store8 tbl IQ i
           (map (fun k => Z.shiftl (load_u8 data (i + k)) 8 +
                          Z.shiftr (u32 (p + s * (i + k))) 24) (rangeZ 0 8)))
        ltac:(lia) ltac:(lia)).
      cbv zeta in IH |- *.
      match goal with
      | |- context [mix_carr_avx2 ?a ?b ?c ?d ?e ?f ?g ?h] =>
          set (r := mix_carr_avx2 a b c d e f g h) in *
      end.
      destruct IH as (H1 & H2 & H3 & H4).
      split; [lia|]. split; [exact H2|]. split; [right; lia|].
      intros k. rewrite H4, store8_spec.
      destruct (i + 8 <=? k) eqn:E1, (k <? fst r) eqn:E2; cbn [andb].
      * replace (i <=? k) with true by (symmetry; apply Z.leb_le; lia).
        reflexivity.
      * replace (i <=? k) with true by (symmetry; apply Z.leb_le; lia).
        replace (k <? i + 8) with false by (symmetry; apply Z.ltb_ge; lia).
        reflexivity.
      * destruct (i <=? k) eqn:E3; cbn [andb]; [|reflexivity].
        replace (k <? i + 8) with true by (symmetry; apply Z.ltb_lt; lia).
        unfold mix_ref. do 4 f_equal; lia.
      * destruct (i <=? k) eqn:E3; cbn [andb]; [|reflexivity].
        apply Z.ltb_ge in E2. apply Z.leb_gt in E1. lia.
    + apply Z.ltb_ge in E. simpl. split; [lia|]. split; [lia|].
      split; [now left|].
      intros k. destruct (i <=? k) eqn:E1, (k <? i) eqn:E2; try reflexivity; lia.
Qed.

Variable AVX2 : bool.

(** A pass of [mix_carr] writes the [N] cells of its window, with or
    without the vector loop. *)
Lemma mix_carr_spec buff ix N phi step IQ k :
  mix_carr tbl AVX2 buff ix N phi step IQ k =
  if (0 <=? k) && (k <? N)
  then mix_ref tbl (fun j => buff_data buff (ix + j))
         (mix_phase phi) (mix_phase step) k
  else IQ k.
Proof.
  unfold mix_carr. fold mix_scale. fold (mix_phase phi). fold (mix_phase step).
  set (p := mix_phase phi). set (s := mix_phase step).
  set (data := fun j => buff_data buff (ix + j)).
  assert (Hp : 0 <= p < 2 ^ 32) by apply uint32_of_double_range.
  destruct AVX2.
  - assert (Hy : mm256_set_epi32 (u32 (p + u32 (s * 7))) (u32 (p + u32 (s * 6)))
               (u32 (p + u32 (s * 5))) (u32 (p + u32 (s * 4)))
               (u32 (p + u32 (s * 3))) (u32 (p + u32 (s * 2)))
               (u32 (p + s)) p = yphi_at p s 0).
    { unfold mm256_set_epi32, yphi_at.
      change (rangeZ 0 8) with [0; 1; 2; 3; 4; 5; 6; 7].
      cbn [map].
      repeat (f_equal; try (rewrite ?u32_add_r; f_equal; lia)).
      rewrite Z.add_0_l, Z.mul_0_r, Z.add_0_r. symmetry. now apply u32_small. }
    rewrite Hy.
    pose proof (mix_carr_avx2_spec data N p s (Z.to_nat N) 0 IQ
                  ltac:(lia) ltac:(lia)) as H.
    cbv zeta in H.
    match type of H with
    | context [mix_carr_avx2 ?a ?b ?c ?d ?e ?f ?g ?h] =>
        set (r := mix_carr_avx2 a b c d e f g h) in *
    end.
    destruct r as [i IQ1] eqn:Er. cbn [fst snd] in H.
    destruct H as (H1 & H2 & H3 & H4).
    pose proof (mix_carr_scalar_spec data N s i p IQ1) as Hs.
    cbv zeta in Hs. rewrite Hs, H4.
    destruct (0 <=? k) eqn:E0, (k <? N) eqn:E1, (i <=? k) eqn:E2,
      (k <? i) eqn:E3; cbn [andb]; try reflexivity; lia.
  - pose proof (mix_carr_scalar_spec data N s 0 p IQ) as Hs.
    cbv zeta in Hs. now rewrite Hs.
Qed.

(** The two passes of a window across the buffer boundary. *)
Lemma sdr_mix_carr_wrapped buff ix N fs fc phi IQ k :
  buff_N buff < ix + N -> ix <= buff_N buff ->
  let step := F64.mul (F64.div fc fs) (F64.of_int NTBL) in
  let phi' := F64.mul (fmod1 phi) (F64.of_int NTBL) in
  let n := buff_N buff - ix in
  sdr_mix_carr tbl AVX2 buff ix N fs fc phi IQ k =
  if (0 <=? k) && (k <? n)
  then mix_ref tbl (fun j => buff_data buff (ix + j))
         (mix_phase phi') (mix_phase step) k
  else if (n <=? k) && (k <? N)
  then mix_ref tbl (fun j => buff_data buff (0 + j))
         (mix_phase (F64.add phi' (F64.mul step (F64.of_int n))))
         (mix_phase step) (k - n)
  else IQ k.
Proof.
  intros Hw Hix step phi' n. unfold sdr_mix_carr.
  replace (ix + N <=? buff_N buff) with false by (symmetry; apply Z.leb_gt; lia).
  fold step. fold phi'. fold n. rewrite !mix_carr_spec.
  replace (n + (k - n)) with k by lia.
  destruct (0 <=? k) eqn:E0, (k <? n) eqn:E1, (n <=? k) eqn:E2,
    (k <? N) eqn:E3, (0 <=? k - n) eqn:E4, (k - n <? N - n) eqn:E5;
    cbn [andb]; try reflexivity; lia.
Qed.

(** C5.  For a window within the buffer, each output cell [i] of
    [sdr_mix_carr] is [LUT[(buff[ix+i] << 8) | (p >> 24)]], where [p] is the
    32-bit accumulator after [i] additions, modulo [2^32], of the step
    [fc / fs * 256] to the phase [(phi mod 1) * 256], both scaled by [2^24]
    and truncated to unsigned 32-bit values; no other cell is written.  This
    holds of the scalar loop and of the vector loop. *)
Theorem sdr_mix_carr_contiguous buff ix N fs fc phi IQ :
  ix + N <= buff_N buff ->
  let step := F64.mul (F64.div fc fs) (F64.of_int 256) in
  let p0 := F64.mul (fmod1 phi) (F64.of_int 256) in
  let s := uint32_of_double (F64.mul step (F64.of_int (2 ^ 24))) in
  let p := uint32_of_double (F64.mul p0 (F64.of_int (2 ^ 24))) in
  (forall i : nat, Z.of_nat i < N ->
     sdr_mix_carr tbl AVX2 buff ix N fs fc phi IQ (Z.of_nat i) =
     tbl (Z.lor (Z.shiftl (load_u8 (buff_data buff) (ix + Z.of_nat i)) 8)
                (Z.shiftr (phase_acc p s i) 24))) /\
  (forall k, ~ 0 <= k < N ->
     sdr_mix_carr tbl AVX2 buff ix N fs fc phi IQ k = IQ k).
Proof.
  intros Hc step p0 s p. unfold sdr_mix_carr.
  replace (ix + N <=? buff_N buff) with true by (symmetry; apply Z.leb_le; lia).
  split.
  - intros i Hi. rewrite mix_carr_spec.
    replace ((0 <=? Z.of_nat i) && (Z.of_nat i <? N)) with true
      by (symmetry; apply andb_true_iff; lia).
    unfold mix_ref. f_equal.
    assert (Hp : 0 <= p < 2 ^ 32) by apply uint32_of_double_range.
    rewrite (phase_acc_closed p s i Hp).
    rewrite <- shl8_add_lor by apply phase_index_range, u32_range.
    reflexivity.
  - intros k Hk. rewrite mix_carr_spec.
    destruct (0 <=? k) eqn:E0, (k <? N) eqn:E1; cbn [andb]; try reflexivity.
    lia.
Qed.

(** C1, as amended.  A window that wraps past the end of the buffer is
    mixed in two passes, and the second pass starts from the phase
    [phi + step * n] converted anew to fixed point.  Its output is that of
    the contiguous window of the same samples whenever that phase equals the
    accumulator [p + n * s] (modulo [2^32]) that a single pass reaches after
    [n] cells. *)
Theorem sdr_mix_carr_wrap_equiv (b1 b2 : sdr_buff_t) (ix1 ix2 N : Z)
    (fs fc phi : double) (IQ1 IQ2 : Z -> sdr_cpx16_t) :
  ix1 + N <= buff_N b1 ->
  ix2 <= buff_N b2 -> buff_N b2 < ix2 + N ->
  window b1 ix1 N = window b2 ix2 N ->
  let step := F64.mul (F64.div fc fs) (F64.of_int NTBL) in
  let phi' := F64.mul (fmod1 phi) (F64.of_int NTBL) in
  let n := buff_N b2 - ix2 in
  mix_phase (F64.add phi' (F64.mul step (F64.of_int n))) =
    u32 (mix_phase phi' + mix_phase step * n) ->
  forall k, 0 <= k < N ->
    sdr_mix_carr tbl AVX2 b2 ix2 N fs fc phi IQ2 k =
    sdr_mix_carr tbl AVX2 b1 ix1 N fs fc phi IQ1 k.
Proof.
  intros Hc Hix Hw Hwin step phi' n Hphase k Hk.
  rewrite (sdr_mix_carr_wrapped b2 ix2 N fs fc phi IQ2 k Hw Hix).
  fold step. fold phi'. fold n.
  unfold sdr_mix_carr.
  replace (ix1 + N <=? buff_N b1) with true by (symmetry; apply Z.leb_le; lia).
  fold step. fold phi'. rewrite mix_carr_spec.
  replace ((0 <=? k) && (k <? N)) with true
    by (symmetry; apply andb_true_iff; lia).
  assert (Hs : forall j, 0 <= j < N ->
            (if ix1 + j <? buff_N b1
             then load_u8 (buff_data b1) (ix1 + j)
             else load_u8 (buff_data b1) (ix1 + j - buff_N b1)) =
            (if ix2 + j <? buff_N b2
             then load_u8 (buff_data b2) (ix2 + j)
             else load_u8 (buff_data b2) (ix2 + j - buff_N b2))).
  { intros j Hj. unfold window in Hwin.
    assert (In j (rangeZ 0 N)) by (apply in_rangeZ; lia).
    revert H. generalize dependent (rangeZ 0 N). intros l Hl.
    induction l as [|a l IH]; [intros []|].
    cbn [map] in Hl. injection Hl as Ha Hl'.
    intros [->|Hin]; [exact Ha|now apply IH]. }
  specialize (Hs k Hk).
  replace (ix1 + k <? buff_N b1) with true in Hs
    by (symmetry; apply Z.ltb_lt; lia).
  unfold mix_ref, load_u8 in *.
  destruct (Z.ltb_spec k n) as [Hkn|Hkn].
  - replace ((0 <=? k) && true) with true
      by (symmetry; apply andb_true_iff; split; [apply Z.leb_le; lia|reflexivity]).
    replace (ix2 + k <? buff_N b2) with true in Hs
      by (symmetry; apply Z.ltb_lt; unfold n in Hkn; lia).
    now rewrite Hs.
  - rewrite andb_false_r.
    replace ((n <=? k) && (k <? N)) with true
      by (symmetry; apply andb_true_iff; lia).
    replace (ix2 + k <? buff_N b2) with false in Hs
      by (symmetry; apply Z.ltb_ge; unfold n in Hkn; lia).
    rewrite Hphase, u32_add_l.
    replace (0 + (k - n)) with (ix2 + k - buff_N b2) by (unfold n; lia).
    rewrite Hs.
    replace (mix_phase phi' + mix_phase step * n + mix_phase step * (k - n))
      with (mix_phase phi' + mix_phase step * k) by lia.
    reflexivity.
Qed.
End MixerProofs.

(** With [fc / fs = 1/4] the step is the integer [2^30] and the second
    pass continues the first. *)
Lemma sdr_mix_carr_wrap_equiv_witness :
  sdr_mix_carr (mix_tbl 16) true wrap_buff 1 3 exact_fs exact_fc F64.zero
    wrap_IQ 2 =
  sdr_mix_carr (mix_tbl 16) true wrap_buff 0 3 exact_fs exact_fc F64.zero
    wrap_IQ 2.
Proof.
  apply (sdr_mix_carr_wrap_equiv (mix_tbl 16) true wrap_buff wrap_buff 0 1 3
           exact_fs exact_fc F64.zero wrap_IQ wrap_IQ).
  - simpl. lia.
  - simpl. lia.
  - simpl. lia.
  - reflexivity.
  - vm_compute. reflexivity.
  - lia.
Defined.

Lemma sdr_mix_carr_contiguous_witness :
  sdr_mix_carr (mix_tbl 16) true wrap_buff 0 3 wrap_fs wrap_fc wrap_phi
    wrap_IQ 2 = mix_tbl 16 (Z.lor (Z.shiftl 1 8) 2) /\
  sdr_mix_carr (mix_tbl 16) true wrap_buff 0 3 wrap_fs wrap_fc wrap_phi
    wrap_IQ 5 = wrap_IQ 5.
Proof.
  destruct (sdr_mix_carr_contiguous (mix_tbl 16) true wrap_buff 0 3 wrap_fs
              wrap_fc wrap_phi wrap_IQ) as [H1 H2].
  - simpl. lia.
  - split.
    + etransitivity; [apply (H1 2%nat); simpl; lia|].
      f_equal.
    + apply H2. lia.
Defined.

(** ** The carrier table *)

Lemma PI_bounds : (3141592 / 1000000 < PI < 3141593 / 1000000)%R.
Proof.
  pose proof (PI_2_3_7_ineq 3) as H.
  unfold sum_f_R0, tg_alt, PI_2_3_7_tg, Ratan_seq in H.
  simpl in H. lra.
Qed.

Lemma INR_fact_eq (n : nat) (z : Z) : Z.of_nat (fact n) = z -> INR (fact n) = IZR z.
Proof. intros <-. apply INR_IZR_INZ. Qed.

Lemma cos_approx_3 a :
  (cos_approx a 3 = 1 - a ^ 2 / 2 + a ^ 4 / 24 - a ^ 6 / 720)%R.
Proof.
  unfold cos_approx, cos_term. cbn [sum_f_R0].
  change (2 * 0)%nat with 0%nat. change (2 * 1)%nat with 2%nat.
  change (2 * 2)%nat with 4%nat. change (2 * 3)%nat with 6%nat.
  rewrite (INR_fact_eq 0 1), (INR_fact_eq 2 2), (INR_fact_eq 4 24),
    (INR_fact_eq 6 720) by (vm_compute; reflexivity).
  field.
Qed.

Lemma cos_approx_4 a :
  (cos_approx a 4 =
   1 - a ^ 2 / 2 + a ^ 4 / 24 - a ^ 6 / 720 + a ^ 8 / 40320)%R.
Proof.
  unfold cos_approx, cos_term. cbn [sum_f_R0].
  change (2 * 0)%nat with 0%nat. change (2 * 1)%nat with 2%nat.
  change (2 * 2)%nat with 4%nat. change (2 * 3)%nat with 6%nat.
  change (2 * 4)%nat with 8%nat.
  rewrite (INR_fact_eq 0 1), (INR_fact_eq 2 2), (INR_fact_eq 4 24),
    (INR_fact_eq 6 720), (INR_fact_eq 8 40320) by (vm_compute; reflexivity).
  field.
Qed.

Lemma sin_approx_3 a :
  (sin_approx a 3 = a - a ^ 3 / 6 + a ^ 5 / 120 - a ^ 7 / 5040)%R.
Proof.
  unfold sin_approx, sin_term. cbn [sum_f_R0].
  change (2 * 0 + 1)%nat with 1%nat. change (2 * 1 + 1)%nat with 3%nat.
  change (2 * 2 + 1)%nat with 5%nat. change (2 * 3 + 1)%nat with 7%nat.
  rewrite (INR_fact_eq 1 1), (INR_fact_eq 3 6), (INR_fact_eq 5 120),
    (INR_fact_eq 7 5040) by (vm_compute; reflexivity).
  field.
Qed.

Lemma sin_approx_4 a :
  (sin_approx a 4 =
   a - a ^ 3 / 6 + a ^ 5 / 120 - a ^ 7 / 5040 + a ^ 9 / 362880)%R.
Proof.
  unfold sin_approx, sin_term. cbn [sum_f_R0].
  change (2 * 0 + 1)%nat with 1%nat. change (2 * 1 + 1)%nat with 3%nat.
  change (2 * 2 + 1)%nat with 5%nat. change (2 * 3 + 1)%nat with 7%nat.
  change (2 * 4 + 1)%nat with 9%nat.
  rewrite (INR_fact_eq 1 1), (INR_fact_eq 3 6), (INR_fact_eq 5 120),
    (INR_fact_eq 7 5040), (INR_fact_eq 9 362880) by (vm_compute; reflexivity).
  field.
Qed.

(** Enclosures of [cos a] and [sin a] for [a] in [[l, h]], from the
    alternating series. *)
Lemma cos_interval l h a :
  (0 <= l -> l <= a -> a <= h -> h <= 1 ->
   1 - h ^ 2 / 2 + l ^ 4 / 24 - h ^ 6 / 720 <= cos a /\
   cos a <= 1 - l ^ 2 / 2 + h ^ 4 / 24 - l ^ 6 / 720 + h ^ 8 / 40320)%R.
Proof.
  intros Hl Hla Hah Hh.
  pose proof PI_bounds as HPI.
  destruct (cos_bound a 1) as [B1 B2]; [lra|lra|].
  change (2 * 1 + 1)%nat with 3%nat in B1.
  change (2 * (1 + 1))%nat with 4%nat in B2.
  rewrite cos_approx_3 in B1. rewrite cos_approx_4 in B2.
  assert (Pl : forall n, (l ^ n <= a ^ n)%R) by (intros n; apply pow_incr; lra).
  assert (Ph : forall n, (a ^ n <= h ^ n)%R) by (intros n; apply pow_incr; lra).
  pose proof (Pl 2%nat); pose proof (Pl 4%nat); pose proof (Pl 6%nat).
  pose proof (Ph 2%nat); pose proof (Ph 4%nat); pose proof (Ph 6%nat).
  pose proof (Ph 8%nat).
  split; lra.
Qed.

Lemma sin_interval l h a :
  (0 <= l -> l <= a -> a <= h -> h <= 1 ->
   l - h ^ 3 / 6 + l ^ 5 / 120 - h ^ 7 / 5040 <= sin a /\
   sin a <= h - l ^ 3 / 6 + h ^ 5 / 120 - l ^ 7 / 5040 + h ^ 9 / 362880)%R.
Proof.
  intros Hl Hla Hah Hh.
  pose proof PI_bounds as HPI.
  destruct (sin_bound a 1) as [B1 B2]; [lra|lra|].
  change (2 * 1 + 1)%nat with 3%nat in B1.
  change (2 * (1 + 1))%nat with 4%nat in B2.
  rewrite sin_approx_3 in B1. rewrite sin_approx_4 in B2.
  assert (Pl : forall n, (l ^ n <= a ^ n)%R) by (intros n; apply pow_incr; lra).
  assert (Ph : forall n, (a ^ n <= h ^ n)%R) by (intros n; apply pow_incr; lra).
  pose proof (Pl 1%nat); pose proof (Pl 3%nat); pose proof (Pl 5%nat).
  pose proof (Pl 7%nat).
  pose proof (Ph 1%nat); pose proof (Ph 3%nat); pose proof (Ph 5%nat).
  pose proof (Ph 7%nat); pose proof (Ph 9%nat).
  split; lra.
Qed.

Ltac quarter_cos_by_cos k :=
  let H1 := fresh in let H2 := fresh in
  destruct (cos_interval (3141592 / 1000000 * IZR k / 128)
              (3141593 / 1000000 * IZR k / 128) (PI * IZR k / 128))
    as [H1 H2]; [lra | lra | lra | lra | split; lra].

Ltac quarter_cos_by_sin k :=
  let H1 := fresh in let H2 := fresh in
  rewrite <- (sin_shift (PI * IZR k / 128));
  destruct (sin_interval (3141592 / 1000000 * (64 - IZR k) / 128)
              (3141593 / 1000000 * (64 - IZR k) / 128)
              (PI / 2 - PI * IZR k / 128))
    as [H1 H2]; [lra | lra | lra | lra | split; lra].

Ltac quarter_cos_case :=
  match goal with
  | |- near_quarter_cos ?k =>
      let v := eval cbv in (quarter_cos k) in
      unfold near_quarter_cos, near; change (quarter_cos k) with v;
      first [quarter_cos_by_cos k | quarter_cos_by_sin k]
  end.

(** Each entry of [cos_tbl] is within a half of [10 cos(pi k / 128)]. *)
Lemma near_quarter_cos_all :
  Forall near_quarter_cos (map Z.of_nat (seq 0 65)).
Proof.
  pose proof PI_bounds as HPI.
  let l := eval cbv in (map Z.of_nat (seq 0 65)) in
  change (map Z.of_nat (seq 0 65)) with l.
  repeat (apply Forall_cons; [quarter_cos_case|]).
  apply Forall_nil.
Qed.

Lemma quarter_cos_near k : 0 <= k <= 64 -> near_quarter_cos k.
Proof.
  intros Hk. pose proof near_quarter_cos_all as H.
  rewrite Forall_forall in H. apply H.
  apply in_map_iff. exists (Z.to_nat k). split; [lia|].
  apply in_seq. lia.
Qed.

Lemma near_opp x t : near x t -> near (- x) (- t).
Proof. unfold near. rewrite opp_IZR. intros [H1 H2]. split; lra. Qed.

Lemma near_ROUND x t : near x t -> ROUND x = t.
Proof. unfold near, ROUND. intros [H1 H2]. apply Zfloor_eq. lra. Qed.

Lemma near_round_half_away x t : near x t -> round_half_away x = t.
Proof.
  unfold near, round_half_away. intros [H1 H2].
  destruct (Rle_dec 0 x).
  - apply Zfloor_eq. lra.
  - rewrite (Zfloor_eq (- t)); [lia|]. rewrite opp_IZR. lra.
Qed.

Lemma cos_idx_near j :
  0 <= j <= 256 -> near (10 * cos (PI * IZR j / 128)) (cos_idx j).
Proof.
  intros Hj. unfold cos_idx.
  destruct (Z.leb_spec j 64).
  { apply quarter_cos_near. lia. }
  destruct (Z.leb_spec j 128).
  { replace (10 * cos (PI * IZR j / 128))%R
      with (- (10 * cos (PI * IZR (128 - j) / 128)))%R.
    - apply near_opp, quarter_cos_near. lia.
    - rewrite minus_IZR.
      replace (PI * IZR j / 128)%R
        with (- (PI * (128 - IZR j) / 128) + PI)%R by field.
      rewrite neg_cos, cos_neg. lra. }
  destruct (Z.leb_spec j 192).
  { replace (10 * cos (PI * IZR j / 128))%R
      with (- (10 * cos (PI * IZR (j - 128) / 128)))%R.
    - apply near_opp, quarter_cos_near. lia.
    - rewrite minus_IZR.
      replace (PI * IZR j / 128)%R
        with (PI * (IZR j - 128) / 128 + PI)%R by field.
      rewrite neg_cos. lra. }
  replace (10 * cos (PI * IZR j / 128))%R
    with (10 * cos (PI * IZR (256 - j) / 128))%R.
  - apply quarter_cos_near. lia.
  - rewrite minus_IZR.
    replace (PI * IZR j / 128)%R
      with (- (PI * (256 - IZR j) / 128) + PI + PI)%R by field.
    rewrite !neg_cos, cos_neg. lra.
Qed.

(** The carrier values are off every rounding boundary: they round to the
    table whichever way ties are broken. *)
Lemma carr_I_near i :
  0 <= i < 256 ->
  near (cos (- 2 * PI * IZR i / IZR NTBL) * 10) (carr_tbl_I i).
Proof.
  intros Hi. unfold carr_tbl_I, NTBL.
  replace (cos (- 2 * PI * IZR i / 256) * 10)%R
    with (10 * cos (PI * IZR i / 128))%R.
  - apply cos_idx_near. lia.
  - replace (- 2 * PI * IZR i / 256)%R with (- (PI * IZR i / 128))%R by field.
    rewrite cos_neg. lra.
Qed.

Lemma carr_Q_near i :
  0 <= i < 256 ->
  near (sin (- 2 * PI * IZR i / IZR NTBL) * 10) (carr_tbl_Q i).
Proof.
  intros Hi. unfold carr_tbl_Q, NTBL.
  replace (sin (- 2 * PI * IZR i / 256) * 10)%R
    with (- (10 * cos (PI * IZR (Z.abs (i - 64)) / 128)))%R.
  - apply near_opp, cos_idx_near. lia.
  - replace (- 2 * PI * IZR i / 256)%R with (- (PI * IZR i / 128))%R by field.
    rewrite sin_neg, <- cos_shift.
    destruct (Z.le_ge_cases 64 i) as [H|H].
    + rewrite Z.abs_eq by lia. rewrite minus_IZR.
      replace (PI / 2 - PI * IZR i / 128)%R
        with (- (PI * (IZR i - 64) / 128))%R by field.
      rewrite cos_neg. lra.
    + rewrite Z.abs_neq by lia. rewrite opp_IZR, minus_IZR.
      replace (PI / 2 - PI * IZR i / 128)%R
        with (PI * - (IZR i - 64) / 128)%R by field.
      lra.
Qed.

Lemma sint_small w z :
  0 < w -> - 2 ^ (w - 1) <= z < 2 ^ (w - 1) -> sint w z = z.
Proof.
  intros Hw Hz. unfold sint.
  assert (E : 2 ^ w = 2 * 2 ^ (w - 1)).
  { replace w with (Z.succ (w - 1)) at 1 by lia. apply Z.pow_succ_r. lia. }
  rewrite Z.mod_small by lia. lia.
Qed.

Lemma sint_range w z : 0 < w -> - 2 ^ (w - 1) <= sint w z < 2 ^ (w - 1).
Proof.
  intros Hw. unfold sint.
  assert (E : 2 ^ w = 2 * 2 ^ (w - 1)).
  { replace w with (Z.succ (w - 1)) at 1 by lia. apply Z.pow_succ_r. lia. }
  assert (0 < 2 ^ (w - 1)) by (apply Z.pow_pos_nonneg; lia).
  pose proof (Z.mod_pos_bound (z + 2 ^ (w - 1)) (2 ^ w) ltac:(lia)). lia.
Qed.

Lemma SDR_CPX8_I_range x : -8 <= SDR_CPX8_I x < 8.
Proof. unfold SDR_CPX8_I. apply (sint_range 4). lia. Qed.

Lemma SDR_CPX8_Q_range x : -8 <= SDR_CPX8_Q x < 8.
Proof. unfold SDR_CPX8_Q. apply (sint_range 4). lia. Qed.

Lemma quarter_cos_range k : 0 <= quarter_cos k <= 10.
Proof.
  unfold quarter_cos.
  assert (F : Forall (fun q => 0 <= q <= 10) cos_tbl)
    by (unfold cos_tbl; repeat constructor; lia).
  rewrite Forall_forall in F.
  destruct (nth_in_or_default (Z.to_nat k) cos_tbl 0) as [H | ->]; [auto | lia].
Qed.

Lemma cos_idx_range j : -10 <= cos_idx j <= 10.
Proof.
  unfold cos_idx.
  pose proof (quarter_cos_range j). pose proof (quarter_cos_range (128 - j)).
  pose proof (quarter_cos_range (j - 128)).
  pose proof (quarter_cos_range (256 - j)).
  destruct (j <=? 64), (j <=? 128), (j <=? 192); lia.
Qed.

Lemma carr_I_tbl i : 0 <= i < 256 -> carr_I i = carr_tbl_I i.
Proof.
  intros Hi. unfold carr_I. rewrite (near_ROUND _ _ (carr_I_near i Hi)).
  apply sint_small; [lia|]. unfold carr_tbl_I.
  pose proof (cos_idx_range i). lia.
Qed.

Lemma carr_Q_tbl i : 0 <= i < 256 -> carr_Q i = carr_tbl_Q i.
Proof.
  intros Hi. unfold carr_Q. rewrite (near_ROUND _ _ (carr_Q_near i Hi)).
  apply sint_small; [lia|]. unfold carr_tbl_Q.
  pose proof (cos_idx_range (Z.abs (i - 64))). lia.
Qed.

(** The magnitudes of the two carrier values add up to 15 at most. *)
Lemma carr_tbl_sum i :
  0 <= i < 256 -> Z.abs (carr_tbl_I i) + Z.abs (carr_tbl_Q i) <= 15.
Proof.
  intros Hi.
  assert (F : forallb (fun i => Z.abs (carr_tbl_I i) + Z.abs (carr_tbl_Q i) <=? 15)
                (rangeZ 0 256) = true) by (vm_compute; reflexivity).
  rewrite forallb_forall in F. apply Z.leb_le, F, in_rangeZ. lia.
Qed.

(** ** The mixer LUT: [sdr_func_init] *)

Lemma sdr_func_init_spec W tbl b p :
  0 <= b < 256 -> 0 <= p < 256 ->
  sdr_func_init W tbl (Z.shiftl b 8 + p) = mix_entry W b p.
Proof.
  intros Hb Hp. unfold sdr_func_init, NTBL.
  assert (G : (fun i t => forall b p, 0 <= b < 256 -> 0 <= p < i ->
                 t (Z.shiftl b 8 + p) = mix_entry W b p)
              (Z.max 0 256)
              (for_loop 0 256
                 (fun i => for_loop 0 256 (fun j => sdr_func_init_body W i j))
                 tbl)).
  { apply for_loop_ind; [intros; lia|].
    intros i t Hi Ht.
    assert (G : (fun j t' =>
                 (forall b p, 0 <= b < 256 -> 0 <= p < i ->
                    t' (Z.shiftl b 8 + p) = mix_entry W b p) /\
                 (forall b, 0 <= b < j ->
                    t' (Z.shiftl b 8 + i) = mix_entry W b i))
                (Z.max 0 256)
                (for_loop 0 256 (fun j => sdr_func_init_body W i j) t)).
    { apply for_loop_ind; [split; [exact Ht|intros; lia]|].
      intros j t' Hj [H1 H2]. unfold sdr_func_init_body, upd.
      rewrite Z.shiftl_mul_pow2 by lia. split.
      - intros b0 p0 Hb0 Hp0. rewrite Z.shiftl_mul_pow2 by lia.
        destruct (Z.eqb_spec (b0 * 2 ^ 8 + p0) (j * 2 ^ 8 + i)); [lia|].
        rewrite <- (Z.shiftl_mul_pow2 b0 8) by lia. now apply H1.
      - intros b0 Hb0. rewrite Z.shiftl_mul_pow2 by lia.
        destruct (Z.eqb_spec (b0 * 2 ^ 8 + i) (j * 2 ^ 8 + i)).
        + assert (b0 = j) by lia. subst b0. reflexivity.
        + rewrite <- (Z.shiftl_mul_pow2 b0 8) by lia. apply H2. lia. }
    cbv beta in G. destruct G as [G1 G2].
    intros b0 p0 Hb0 Hp0.
    destruct (Z.eq_dec p0 i) as [->|Hne]; [apply G2; lia|apply G1; lia]. }
  cbv beta in G. apply G; lia.
Qed.

(** With fields of 8 bits or more, no entry of the LUT wraps. *)
Lemma mix_entry_exact W b p :
  8 <= W -> 0 <= p < 256 ->
  mix_entry W b p =
  mk_cpx16 (SDR_CPX8_I b * carr_tbl_I p - SDR_CPX8_Q b * carr_tbl_Q p)
           (SDR_CPX8_I b * carr_tbl_Q p + SDR_CPX8_Q b * carr_tbl_I p).
Proof.
  intros HW Hp. unfold mix_entry.
  rewrite (carr_I_tbl p Hp), (carr_Q_tbl p Hp).
  pose proof (SDR_CPX8_I_range b). pose proof (SDR_CPX8_Q_range b).
  pose proof (carr_tbl_sum p Hp).
  assert (P : 2 ^ 7 <= 2 ^ (W - 1)) by (apply Z.pow_le_mono_r; lia).
  f_equal; apply sint_small; try lia; nia.
Qed.

Lemma mix_tbl_entry W b p :
  8 <= W -> 0 <= b < 256 -> 0 <= p < 256 ->
  mix_tbl W (Z.shiftl b 8 + p) =
  mk_cpx16 (SDR_CPX8_I b * carr_tbl_I p - SDR_CPX8_Q b * carr_tbl_Q p)
           (SDR_CPX8_I b * carr_tbl_Q p + SDR_CPX8_Q b * carr_tbl_I p).
Proof.
  intros HW Hb Hp. unfold mix_tbl.
  rewrite sdr_func_init_spec by assumption. now apply mix_entry_exact.
Qed.

(** C6.  After initialisation, for fields of [sdr_cpx16_t] of 8 bits or
    more, the LUT entry at [(b << 8) | p] is
    [(sI cI - sQ cQ, sI cQ + sQ cI)], where [sI], [sQ] are the signed
    nibbles of [b] and [cI], [cQ] are [cos(-2 pi p / 256) CSCALE] and
    [sin(-2 pi p / 256) CSCALE] rounded half away from zero, which fit 8
    bits.  At phase 0 the entry of the sample [(I = 1, Q = 0)] is [(10, 0)]
    and that of [(I = 0, Q = 1)] is [(0, 10)]; at phase 64 the entry of the
    byte [0x01] is [(0, -10)]. *)
Theorem mix_tbl_spec (W : Z) :
  8 <= W ->
  (forall b p, 0 <= b < 256 -> 0 <= p < 256 ->
     let sI := SDR_CPX8_I b in
     let sQ := SDR_CPX8_Q b in
     let cI := round_half_away (cos (- 2 * PI * IZR p / 256) * 10) in
     let cQ := round_half_away (sin (- 2 * PI * IZR p / 256) * 10) in
     -128 <= cI < 128 /\ -128 <= cQ < 128 /\
     -8 <= sI < 8 /\ -8 <= sQ < 8 /\
     mix_tbl W (Z.lor (Z.shiftl b 8) p) =
     mk_cpx16 (sI * cI - sQ * cQ) (sI * cQ + sQ * cI)) /\
  SDR_CPX8_I 1 = 1 /\ SDR_CPX8_Q 1 = 0 /\
  SDR_CPX8_I 16 = 0 /\ SDR_CPX8_Q 16 = 1 /\
  mix_tbl W (Z.lor (Z.shiftl 1 8) 0) = mk_cpx16 10 0 /\
  mix_tbl W (Z.lor (Z.shiftl 16 8) 0) = mk_cpx16 0 10 /\
  mix_tbl W (Z.lor (Z.shiftl 1 8) 64) = mk_cpx16 0 (-10).
Proof.
  intros HW. split; [|repeat split].
  - intros b p Hb Hp sI sQ cI cQ.
    assert (EI : cI = carr_tbl_I p)
      by (apply near_round_half_away, (carr_I_near p Hp)).
    assert (EQ : cQ = carr_tbl_Q p)
      by (apply near_round_half_away, (carr_Q_near p Hp)).
    pose proof (carr_tbl_sum p Hp).
    split; [lia|]. split; [lia|].
    split; [apply SDR_CPX8_I_range|]. split; [apply SDR_CPX8_Q_range|].
    rewrite <- shl8_add_lor by lia. rewrite EI, EQ.
    now apply mix_tbl_entry.
  - rewrite <- shl8_add_lor, mix_tbl_entry by lia. reflexivity.
  - rewrite <- shl8_add_lor, mix_tbl_entry by lia. reflexivity.
  - rewrite <- shl8_add_lor, mix_tbl_entry by lia. reflexivity.
Qed.

Lemma mix_tbl_spec_witness :
  mix_tbl 16 (Z.lor (Z.shiftl 1 8) 64) = mk_cpx16 0 (-10).
Proof. apply (mix_tbl_spec 16). lia. Defined.

(** C1 fails as stated: three samples [0x01] mixed with
    [fs = 16777216 Hz], [fc = 65536.001953125 Hz] and
    [phi = 16777215 / 2^32].  The step is [2^24 + 0.5], truncated to
    [2^24], and the phase is [2^24 - 1].  Read from the start of the buffer,
    the third sample is mixed at the accumulated phase [3 * 2^24 - 1], of
    index 2; read around the end of the buffer (one pass of two samples,
    then one of one sample), it is mixed at the phase [3 * 2^24] of
    [phi + 2 step], of index 3, and the two LUT entries differ. *)
Lemma sdr_mix_carr_wrap_differs :
  window wrap_buff 0 3 = window wrap_buff 1 3 /\
  sdr_mix_carr (mix_tbl 16) false wrap_buff 0 3 wrap_fs wrap_fc wrap_phi
    wrap_IQ 2 = mk_cpx16 10 0 /\
  sdr_mix_carr (mix_tbl 16) false wrap_buff 1 3 wrap_fs wrap_fc wrap_phi
    wrap_IQ 2 = mk_cpx16 10 (-1).
Proof.
  split; [reflexivity|]. split.
  - unfold sdr_mix_carr.
    change (0 + 3 <=? buff_N wrap_buff) with true. cbv iota.
    rewrite mix_carr_spec.
    change ((0 <=? 2) && (2 <? 3)) with true. cbv iota. unfold mix_ref.
    match goal with
    | |- mix_tbl 16 ?i = _ =>
        replace i with (Z.shiftl 1 8 + 2) by (vm_compute; reflexivity)
    end.
    rewrite mix_tbl_entry by lia. reflexivity.
  - rewrite sdr_mix_carr_wrapped by (cbn; lia).
    change (buff_N wrap_buff - 1) with 2.
    change ((0 <=? 2) && (2 <? 2)) with false.
    change ((2 <=? 2) && (2 <? 3)) with true. cbv iota. unfold mix_ref.
    match goal with
    | |- mix_tbl 16 ?i = _ =>
        replace i with (Z.shiftl 1 8 + 3) by (vm_compute; reflexivity)
    end.
    rewrite mix_tbl_entry by lia. reflexivity.
Qed.

(** ** Integers in single precision *)

Lemma iter_pos_iter {A : Type} (f : A -> A) n : forall x,
  SpecFloat.iter_pos f n x = Pos.iter f x n.
Proof.
  induction n as [n IH|n IH|]; intros x; cbn [SpecFloat.iter_pos Pos.iter].
  - rewrite !IH, <- !Pos.iter_swap. reflexivity.
  - now rewrite !IH.
  - reflexivity.
Qed.

Lemma iter_xO_Z p j : Z.pos (Pos.iter xO p j) = Z.pos p * 2 ^ Z.pos j.
Proof.
  induction j as [|j IH] using Pos.peano_ind.
  - cbn [Pos.iter]. lia.
  - rewrite Pos.iter_succ, Pos2Z.inj_succ, Z.pow_succ_r by lia.
    rewrite Pos2Z.inj_xO, IH. lia.
Qed.

Lemma digits2_iter_xO p j :
  Z.pos (digits2_pos (Pos.iter xO p j)) = Z.pos (digits2_pos p) + Z.pos j.
Proof.
  induction j as [|j IH] using Pos.peano_ind.
  - cbn [Pos.iter digits2_pos]. lia.
  - rewrite Pos.iter_succ. cbn [digits2_pos]. lia.
Qed.

Lemma digits2_bounds p :
  2 ^ (Z.pos (digits2_pos p) - 1) <= Z.pos p < 2 ^ Z.pos (digits2_pos p).
Proof.
  induction p as [p IH|p IH|]; cbn [digits2_pos].
  - rewrite Pos2Z.inj_succ, Z.pow_succ_r by lia.
    replace (Z.succ (Z.pos (digits2_pos p)) - 1)
      with (Z.succ (Z.pos (digits2_pos p) - 1)) by lia.
    rewrite Z.pow_succ_r by lia. lia.
  - rewrite Pos2Z.inj_succ, Z.pow_succ_r by lia.
    replace (Z.succ (Z.pos (digits2_pos p)) - 1)
      with (Z.succ (Z.pos (digits2_pos p) - 1)) by lia.
    rewrite Z.pow_succ_r by lia. lia.
  - simpl. lia.
Qed.

(** Shifting out the zero bits of a mantissa is exact. *)
Lemma shr_exact j : forall q,
  SpecFloat.iter_pos shr_1 j
    {| shr_m := Z.pos (Pos.iter xO q j); shr_r := false; shr_s := false |} =
  {| shr_m := Z.pos q; shr_r := false; shr_s := false |}.
Proof.
  intros q. rewrite iter_pos_iter.
  induction j as [|j IH] using Pos.peano_ind.
  - reflexivity.
  - rewrite !Pos.iter_succ, <- Pos.iter_swap. cbn [shr_1 orb]. exact IH.
Qed.

Lemma fexp32 z : -125 <= z -> fexp 24 128 z = z - 24.
Proof. intros H. unfold fexp, emin. lia. Qed.

(** A mantissa of 24 digits is kept as it is. *)
Lemma binary_round_aux_canon s q e :
  Z.pos (digits2_pos q) = 24 -> -149 <= e <= 104 ->
  binary_round_aux 24 128 s (Z.pos q) e loc_Exact = S754_finite s q e.
Proof.
  intros Hd He. unfold binary_round_aux, shr_fexp.
  cbn [Zdigits2 shr_record_of_loc]. rewrite Hd, fexp32 by lia.
  replace (24 + e - 24 - e) with 0 by lia.
  cbn [shr shr_m loc_of_shr_record round_nearest_even Zdigits2
       shr_record_of_loc].
  rewrite Hd, fexp32 by lia. replace (24 + e - 24 - e) with 0 by lia.
  cbn [shr shr_m].
  replace (e <=? 128 - 24) with true by (symmetry; apply Z.leb_le; lia).
  reflexivity.
Qed.

(** Rounding a number that is a 24-digit mantissa [q] at the exponent [e],
    given with a longer or with a shorter mantissa. *)
Lemma binary_round_canon s q e m x :
  Z.pos (digits2_pos q) = 24 -> -125 <= e <= 104 ->
  (exists j, 0 <= j /\ Z.pos m = Z.pos q * 2 ^ j /\ x = e - j) \/
  (exists j, 0 <= j /\ Z.pos q = Z.pos m * 2 ^ j /\ x = e + j) ->
  binary_round 24 128 s m x = S754_finite s q e.
Proof.
  intros Hd He H. unfold binary_round.
  destruct H as [(j & Hj & Hm & ->)|(j & Hj & Hq & ->)].
  - destruct j as [|j|j]; [| |lia].
    + assert (m = q) by lia. subst m.
      rewrite Hd, fexp32 by lia. unfold shl_align.
      replace (24 + (e - 0) - 24 - (e - 0)) with 0 by lia.
      replace (e - 0) with e by lia.
      now apply binary_round_aux_canon; [|lia].
    + assert (Em : m = Pos.iter xO q j).
      { apply Pos2Z.inj. now rewrite iter_xO_Z. }
      subst m. rewrite digits2_iter_xO, Hd, fexp32 by lia.
      unfold shl_align.
      replace (24 + Z.pos j + (e - Z.pos j) - 24 - (e - Z.pos j))
        with (Z.pos j) by lia.
      unfold binary_round_aux, shr_fexp.
      cbn [Zdigits2 shr_record_of_loc].
      rewrite digits2_iter_xO, Hd, fexp32 by lia.
      replace (24 + Z.pos j + (e - Z.pos j) - 24 - (e - Z.pos j))
        with (Z.pos j) by lia.
      cbn [shr]. rewrite shr_exact.
      cbn [shr_m loc_of_shr_record round_nearest_even Zdigits2
           shr_record_of_loc].
      rewrite Hd, fexp32 by lia.
      replace (24 + (e - Z.pos j + Z.pos j) - 24 - (e - Z.pos j + Z.pos j))
        with 0 by lia.
      cbn [shr shr_m].
      replace (e - Z.pos j + Z.pos j <=? 128 - 24) with true
        by (symmetry; apply Z.leb_le; lia).
      f_equal. lia.
  - destruct j as [|j|j]; [| |lia].
    + assert (m = q) by lia. subst m.
      rewrite Hd, fexp32 by lia. unfold shl_align.
      replace (24 + (e + 0) - 24 - (e + 0)) with 0 by lia.
      replace (e + 0) with e by lia.
      now apply binary_round_aux_canon; [|lia].
    + assert (Eq : q = Pos.iter xO m j).
      { apply Pos2Z.inj. now rewrite iter_xO_Z. }
      assert (Hdm : Z.pos (digits2_pos m) = 24 - Z.pos j).
      { rewrite Eq, digits2_iter_xO in Hd. lia. }
      rewrite Hdm, fexp32 by lia. unfold shl_align.
      replace (24 - Z.pos j + (e + Z.pos j) - 24 - (e + Z.pos j))
        with (Z.neg j) by lia.
      rewrite <- Eq.
      replace (24 - Z.pos j + (e + Z.pos j) - 24) with e by lia.
      now apply binary_round_aux_canon; [|lia].
Qed.

(** The single-precision number of a positive integer below [2^24]: a
    mantissa of 24 digits at an exponent in [[-23, 0]]. *)
Lemma pos_canon p :
  Z.pos p < 2 ^ 24 ->
  exists q e, Z.pos (digits2_pos q) = 24 /\ -23 <= e <= 0 /\
              Z.pos q = Z.pos p * 2 ^ (- e).
Proof.
  intros Hp. pose proof (digits2_bounds p) as [Hlo Hhi].
  assert (Hd : Z.pos (digits2_pos p) <= 24).
  { destruct (Z_le_gt_dec (Z.pos (digits2_pos p)) 24) as [H|H]; [exact H|].
    assert (2 ^ 24 <= 2 ^ (Z.pos (digits2_pos p) - 1))
      by (apply Z.pow_le_mono_r; lia).
    lia. }
  destruct (Z.eq_dec (Z.pos (digits2_pos p)) 24) as [E|E].
  - exists p, 0. split; [exact E|]. split; [lia|]. simpl. lia.
  - exists (Pos.iter xO p (Z.to_pos (24 - Z.pos (digits2_pos p)))),
      (Z.pos (digits2_pos p) - 24).
    split; [rewrite digits2_iter_xO; lia|]. split; [lia|].
    rewrite iter_xO_Z. f_equal. f_equal. lia.
Qed.

(** Rounding an integer below [2^24] given at a finer exponent. *)
Lemma binary_normalize_int z k :
  Z.abs z < 2 ^ 24 -> 0 <= k ->
  binary_normalize 24 128 (z * 2 ^ k) (- k) false = F32.of_int z.
Proof.
  intros Hz Hk. unfold F32.of_int, F32.prec, F32.emax.
  assert (Hpow : 0 < 2 ^ k) by (apply Z.pow_pos_nonneg; lia).
  destruct z as [|p|p].
  - reflexivity.
  - destruct (pos_canon p ltac:(lia)) as (q & e & Hd & He & Hq).
    destruct (Z.pos p * 2 ^ k) as [|m|m] eqn:Em; [nia| |nia].
    cbn [binary_normalize].
    rewrite (binary_round_canon false q e p 0 Hd ltac:(lia)).
    2:{ right. exists (- e). split; [lia|]. split; [exact Hq|lia]. }
    apply (binary_round_canon false q e m (- k) Hd ltac:(lia)).
    destruct (Z_le_gt_dec (- e) k) as [H|H].
    + left. exists (k + e). split; [lia|]. split; [|lia].
      rewrite Hq, <- Em, <- Z.mul_assoc, <- Z.pow_add_r by lia.
      f_equal. f_equal. lia.
    + right. exists (- e - k). split; [lia|]. split; [|lia].
      rewrite Hq, <- Em, <- Z.mul_assoc, <- Z.pow_add_r by lia.
      f_equal. f_equal. lia.
  - destruct (pos_canon p ltac:(lia)) as (q & e & Hd & He & Hq).
    destruct (Z.neg p * 2 ^ k) as [|m|m] eqn:Em; [nia|nia|].
    assert (Em' : Z.pos m = Z.pos p * 2 ^ k) by lia.
    cbn [binary_normalize].
    rewrite (binary_round_canon true q e p 0 Hd ltac:(lia)).
    2:{ right. exists (- e). split; [lia|]. split; [exact Hq|lia]. }
    apply (binary_round_canon true q e m (- k) Hd ltac:(lia)).
    destruct (Z_le_gt_dec (- e) k) as [H|H].
    + left. exists (k + e). split; [lia|]. split; [|lia].
      rewrite Hq, Em', <- Z.mul_assoc, <- Z.pow_add_r by lia.
      f_equal. f_equal. lia.
    + right. exists (- e - k). split; [lia|]. split; [|lia].
      rewrite Hq, Em', <- Z.mul_assoc, <- Z.pow_add_r by lia.
      f_equal. f_equal. lia.
Qed.

(** The shape of the single-precision number of an integer below
    [2^24]. *)
Lemma of_int_shape z :
  Z.abs z < 2 ^ 24 -> z <> 0 ->
  exists q e, -23 <= e <= 0 /\ Z.pos q = Z.abs z * 2 ^ (- e) /\
              F32.of_int z = S754_finite (z <? 0) q e.
Proof.
  intros Hz Hnz. unfold F32.of_int, F32.prec, F32.emax.
  destruct z as [|p|p]; [congruence| |].
  - destruct (pos_canon p ltac:(lia)) as (q & e & Hd & He & Hq).
    exists q, e. split; [lia|]. split; [exact Hq|].
    cbn [binary_normalize].
    apply (binary_round_canon false q e p 0 Hd ltac:(lia)).
    right. exists (- e). split; [lia|]. split; [exact Hq|lia].
  - destruct (pos_canon p ltac:(lia)) as (q & e & Hd & He & Hq).
    exists q, e. split; [lia|]. split; [exact Hq|].
    cbn [binary_normalize].
    apply (binary_round_canon true q e p 0 Hd ltac:(lia)).
    right. exists (- e). split; [lia|]. split; [exact Hq|lia].
Qed.

Lemma shl_align_value q e e' :
  e' <= e -> Z.pos (fst (shl_align q e e')) = Z.pos q * 2 ^ (e - e').
Proof.
  intros H. unfold shl_align.
  destruct (e' - e) as [|d|d] eqn:E; cbn [fst].
  - replace (e - e') with 0 by lia. simpl. lia.
  - lia.
  - rewrite iter_xO_Z. f_equal. f_equal. lia.
Qed.

(** Single-precision addition is exact on integers below [2^24]. *)
Lemma F32_add_of_int a b :
  Z.abs a < 2 ^ 24 -> Z.abs b < 2 ^ 24 -> Z.abs (a + b) < 2 ^ 24 ->
  F32.add (F32.of_int a) (F32.of_int b) = F32.of_int (a + b).
Proof.
  intros Ha Hb Hab.
  destruct (Z.eq_dec a 0) as [->|Na].
  { destruct (Z.eq_dec b 0) as [->|Nb]; [reflexivity|].
    destruct (of_int_shape b Hb Nb) as (q & e & _ & _ & E).
    rewrite Z.add_0_l, E. reflexivity. }
  destruct (Z.eq_dec b 0) as [->|Nb].
  { destruct (of_int_shape a Ha Na) as (q & e & _ & _ & E).
    rewrite Z.add_0_r, E. reflexivity. }
  destruct (of_int_shape a Ha Na) as (qa & ea & Hea & Hqa & Ea).
  destruct (of_int_shape b Hb Nb) as (qb & eb & Heb & Hqb & Eb).
  rewrite Ea, Eb. unfold F32.add, F32.prec, F32.emax. cbn [SFadd].
  set (ez := Z.min ea eb).
  rewrite <- (binary_normalize_int (a + b) (- ez)) by lia.
  rewrite Z.opp_involutive. f_equal.
  rewrite !shl_align_value by lia.
  rewrite Hqa, Hqb, <- !Z.mul_assoc, <- !Z.pow_add_r by lia.
  replace (- ea + (ea - ez)) with (- ez) by lia.
  replace (- eb + (eb - ez)) with (- ez) by lia.
  unfold cond_Zopp.
  destruct (Z.ltb_spec a 0), (Z.ltb_spec b 0); lia.
Qed.

Lemma sum_abs_nonneg xs : 0 <= sum_abs xs.
Proof. induction xs as [|x xs IH]; simpl; lia. Qed.

Lemma sumZ_abs xs : Z.abs (sumZ xs) <= sum_abs xs.
Proof. induction xs as [|x xs IH]; simpl; lia. Qed.

Lemma sumZ_app xs ys : sumZ (xs ++ ys) = sumZ xs + sumZ ys.
Proof. induction xs as [|x xs IH]; simpl; lia. Qed.

Lemma sum_abs_app xs ys : sum_abs (xs ++ ys) = sum_abs xs + sum_abs ys.
Proof. induction xs as [|x xs IH]; simpl; lia. Qed.

(** Integers accumulated in a [float] from an integer: the accumulation
    is exact while the magnitudes total less than [2^24]. *)
Lemma fold_add_of_int xs : forall a,
  Z.abs a + sum_abs xs < 2 ^ 24 ->
  fold_left (fun acc x => F32.add acc (F32.of_int x)) xs (F32.of_int a) =
  F32.of_int (a + sumZ xs).
Proof.
  induction xs as [|x xs IH]; intros a H; cbn [fold_left sumZ fold_right].
  - now rewrite Z.add_0_r.
  - cbn [sum_abs fold_right] in H. fold (sum_abs xs) in H.
    pose proof (sum_abs_nonneg xs).
    rewrite F32_add_of_int by lia.
    fold (sumZ xs). rewrite IH by lia. f_equal. lia.
Qed.

Lemma fsum_exact xs :
  sum_abs xs < 2 ^ 24 -> fsum xs = F32.of_int (sumZ xs).
Proof.
  intros H. unfold fsum. change F32.zero with (F32.of_int 0).
  rewrite fold_add_of_int by (simpl; lia). reflexivity.
Qed.

(** ** Vector operations of [dot_IQ_code] *)

Lemma sign_flat (a b c d : Z -> Z) l :
  mm256_sign_epi8 (flat_map (fun k => [a k; b k]) l)
    (flat_map (fun k => [c k; d k]) l) =
  flat_map (fun k => [sign8 (a k) (c k); sign8 (b k) (d k)]) l.
Proof.
  unfold mm256_sign_epi8, zip_with.
  induction l as [|x l IH]; [reflexivity|].
  cbn [flat_map app combine map fst snd]. now rewrite IH.
Qed.

Lemma maddubs_flat (u v : Z) (f g : Z -> Z) l :
  mm256_maddubs_epi16 (flat_map (fun _ => [u; v]) l)
    (flat_map (fun k => [f k; g k]) l) =
  map (fun k => sat16 (u mod 2 ^ 8 * f k + v mod 2 ^ 8 * g k)) l.
Proof.
  induction l as [|x l IH]; [reflexivity|].
  cbn [flat_map app map mm256_maddubs_epi16]. now rewrite IH.
Qed.

Lemma yextI_flat : yextI = flat_map (fun _ => [1; 0]) (rangeZ 0 16).
Proof. reflexivity. Qed.

Lemma yextQ_flat : yextQ = flat_map (fun _ => [0; 1]) (rangeZ 0 16).
Proof. reflexivity. Qed.

Lemma sint_id w z : 0 < w -> - 2 ^ (w - 1) <= z < 2 ^ (w - 1) -> sint w z = z.
Proof.
  intros Hw Hz. unfold sint.
  replace (2 ^ w) with (2 * 2 ^ (w - 1))
    by (rewrite <- Z.pow_succ_r by lia; f_equal; lia).
  rewrite Z.mod_small by lia. lia.
Qed.

Lemma sign8_ternary x y :
  Z.abs x <= 127 -> ternary y -> sign8 x y = x * y.
Proof.
  intros Hx [-> | [-> | ->]]; unfold sign8; simpl.
  - rewrite sint_id by (simpl; lia). lia.
  - lia.
  - lia.
Qed.

Lemma sat16_id z : Z.abs z <= 127 -> sat16 z = z.
Proof. intros H. unfold sat16. simpl. lia. Qed.

(** One block of sixteen cells: the lanes of the two products. *)
Lemma dot_block (IQ code : Z -> sdr_cpx16_t) (i : Z) :
  (forall k, 0 <= k < 16 ->
     Z.abs (cpx16_I (IQ (i + k))) <= 127 /\
     Z.abs (cpx16_Q (IQ (i + k))) <= 127 /\
     ternary (cpx16_I (code (i + k))) /\ ternary (cpx16_Q (code (i + k)))) ->
  let ycorr := mm256_sign_epi8 (mm256_loadu_cpx16 IQ i)
                 (mm256_loadu_cpx16 code i) in
  mm256_maddubs_epi16 yextI ycorr =
    map (fun k => cpx16_I (IQ (i + k)) * cpx16_I (code (i + k))) (rangeZ 0 16) /\
  mm256_maddubs_epi16 yextQ ycorr =
    map (fun k => cpx16_Q (IQ (i + k)) * cpx16_Q (code (i + k))) (rangeZ 0 16).
Proof.
  intros H ycorr. unfold ycorr, mm256_loadu_cpx16.
  rewrite sign_flat, yextI_flat, yextQ_flat, !maddubs_flat.
  split; apply map_rangeZ_ext; intros k Hk;
    destruct (H k Hk) as (HI & HQ & HcI & HcQ);
    rewrite !sign8_ternary by assumption;
    change (1 mod 2 ^ 8) with 1; change (0 mod 2 ^ 8) with 0;
    (rewrite sat16_id; [lia|]);
    destruct HcI as [-> | [-> | ->]]; destruct HcQ as [-> | [-> | ->]]; lia.
Qed.

Lemma add_epi16_sum xs : forall ys b1 b2,
  length xs = length ys ->
  Forall (fun y => Z.abs y <= b1) xs -> Forall (fun y => Z.abs y <= b2) ys ->
  b1 + b2 < 2 ^ 15 ->
  length (mm256_add_epi16 xs ys) = length xs /\
  Forall (fun y => Z.abs y <= b1 + b2) (mm256_add_epi16 xs ys) /\
  sumZ (mm256_add_epi16 xs ys) = sumZ xs + sumZ ys.
Proof.
  unfold mm256_add_epi16, zip_with.
  induction xs as [|x xs IH]; intros ys b1 b2 Hl Hx Hy Hb.
  - simpl. repeat split; [constructor|].
    destruct ys; [reflexivity|discriminate].
  - destruct ys as [|y ys]; [discriminate|].
    inversion Hx as [|? ? Hx0 Hx']; subst. inversion Hy as [|? ? Hy0 Hy']; subst.
    destruct (IH ys b1 b2 ltac:(simpl in Hl; lia) Hx' Hy' Hb) as (L & F & S).
    cbn [combine map fst snd length sumZ fold_right].
    assert (E : sint 16 (x + y) = x + y).
    { apply sint_id; [lia|]. change (2 ^ (16 - 1)) with (2 ^ 15). lia. }
    rewrite E. split; [now rewrite L|]. split.
    + constructor; [lia|exact F].
    + fold (sumZ xs). fold (sumZ ys).
      change (fold_right Z.add 0 ?l) with (sumZ l) in S |- *.
      rewrite S. lia.
Qed.

Lemma lanes_add b1 t1 b2 t2 xs ys :
  lanes_ok b1 t1 xs -> lanes_ok b2 t2 ys -> b1 + b2 < 2 ^ 15 ->
  lanes_ok (b1 + b2) (t1 + t2) (mm256_add_epi16 xs ys).
Proof.
  intros (L1 & F1 & S1) (L2 & F2 & S2) Hb.
  destruct (add_epi16_sum xs ys b1 b2 ltac:(lia) F1 F2 Hb) as (L & F & S).
  split; [lia|]. split; [exact F|]. lia.
Qed.

Lemma lanes_zero : lanes_ok 0 0 mm256_setzero_si256.
Proof.
  split; [reflexivity|]. split; [|reflexivity].
  unfold mm256_setzero_si256. cbn [repeat].
  repeat (apply Forall_cons; [simpl; lia|]). apply Forall_nil.
Qed.

Lemma lanes_weaken b b' t ys : lanes_ok b t ys -> b <= b' -> lanes_ok b' t ys.
Proof.
  intros (L & F & S) Hb. split; [exact L|]. split; [|exact S].
  eapply Forall_impl; [|exact F]. simpl. intros. lia.
Qed.

Lemma fold_add_sumZ xs : forall a, fold_left Z.add xs a = a + sumZ xs.
Proof.
  induction xs as [|x xs IH]; intros a; simpl; [lia|]. rewrite IH.
  change (fold_right Z.add 0 xs) with (sumZ xs). lia.
Qed.

(** ** Sums over ranges of cells *)

Lemma map_seq_from {A : Type} n : forall (f : nat -> A) a,
  map f (seq a n) = map (fun k => f (a + k)%nat) (seq 0 n).
Proof.
  induction n as [|n IH]; intros f a; [reflexivity|].
  cbn [seq map]. f_equal; [f_equal; lia|].
  rewrite (IH f (S a)), (IH (fun k => f (a + k)%nat) 1%nat).
  apply map_ext. intros k. f_equal. lia.
Qed.

Lemma rangeZ_split lo mid hi :
  lo <= mid <= hi -> rangeZ lo hi = rangeZ lo mid ++ rangeZ mid hi.
Proof.
  intros H. unfold rangeZ.
  replace (Z.to_nat (hi - lo))
    with (Z.to_nat (mid - lo) + Z.to_nat (hi - mid))%nat by lia.
  rewrite seq_app, map_app. f_equal.
  rewrite map_seq_from. apply map_ext. intros k. lia.
Qed.

Lemma rangeZ_shift lo n :
  rangeZ lo (lo + n) = map (fun k => lo + k) (rangeZ 0 n).
Proof.
  unfold rangeZ. rewrite map_map.
  replace (lo + n - lo) with (n - 0) by lia. reflexivity.
Qed.

Lemma sum_abs_range (P : Z -> Z) B a b :
  (forall k, a <= k < b -> Z.abs (P k) <= B) ->
  sum_abs (map P (rangeZ a b)) <= B * Z.max 0 (b - a).
Proof.
  intros HP.
  destruct (Z_le_gt_dec b a) as [H|H].
  { rewrite rangeZ_nil by lia. simpl. lia. }
  assert (G : forall n : nat, a + Z.of_nat n <= b ->
            sum_abs (map P (rangeZ a (a + Z.of_nat n))) <= B * Z.of_nat n).
  { induction n as [|n IH]; intros Hn.
    - rewrite rangeZ_nil by lia. simpl. lia.
    - replace (a + Z.of_nat (S n)) with (a + Z.of_nat n + 1) by lia.
      rewrite rangeZ_snoc, map_app, sum_abs_app by lia.
      specialize (IH ltac:(lia)). cbn [map sum_abs fold_right].
      pose proof (HP (a + Z.of_nat n) ltac:(lia)). lia. }
  specialize (G (Z.to_nat (b - a)) ltac:(lia)).
  replace (a + Z.of_nat (Z.to_nat (b - a))) with b in G by lia. lia.
Qed.

Lemma range_dot_split u v a b c :
  a <= b <= c -> range_dot u v a c = range_dot u v a b + range_dot u v b c.
Proof.
  intros H. unfold range_dot.
  now rewrite (rangeZ_split a b c H), map_app, sumZ_app.
Qed.

Lemma range_dot_nil u v a b : b <= a -> range_dot u v a b = 0.
Proof. intros H. unfold range_dot. now rewrite rangeZ_nil. Qed.

Section DotLoops.
Variables IQ code : Z -> sdr_cpx16_t.
Variables N B : Z.
Hypothesis B_range : 0 <= B <= 127.
Hypothesis N_small : B * N < 2 ^ 24.
Hypothesis IQ_bounded : forall k, 0 <= k < N ->
  Z.abs (cpx16_I (IQ k)) <= B /\ Z.abs (cpx16_Q (IQ k)) <= B.
Hypothesis code_ternary : forall k, 0 <= k < N ->
  ternary (cpx16_I (code k)) /\ ternary (cpx16_Q (code k)).

Lemma prod_bounded k :
  0 <= k < N ->
  Z.abs (cells_I IQ k * cells_I code k) <= B /\
  Z.abs (cells_Q IQ k * cells_Q code k) <= B.
Proof.
  intros Hk. unfold cells_I, cells_Q.
  destruct (IQ_bounded k Hk) as [HI HQ].
  destruct (code_ternary k Hk) as [[-> | [-> | ->]] [-> | [-> | ->]]]; lia.
Qed.

Lemma range_dot_bound_I a b :
  0 <= a <= b -> b <= N ->
  sum_abs (map (fun k => cells_I IQ k * cells_I code k) (rangeZ a b)) <= B * (b - a).
Proof.
  intros Ha Hb.
  pose proof (sum_abs_range (fun k => cells_I IQ k * cells_I code k) B a b) as H.
  rewrite Z.max_r in H by lia. apply H. intros k Hk.
  apply prod_bounded. lia.
Qed.

Lemma range_dot_bound_Q a b :
  0 <= a <= b -> b <= N ->
  sum_abs (map (fun k => cells_Q IQ k * cells_Q code k) (rangeZ a b)) <= B * (b - a).
Proof.
  intros Ha Hb.
  pose proof (sum_abs_range (fun k => cells_Q IQ k * cells_Q code k) B a b) as H.
  rewrite Z.max_r in H by lia. apply H. intros k Hk.
  apply prod_bounded. lia.
Qed.

(** The lanes of a block of sixteen products. *)
Lemma block_lanes (u v : Z -> Z) i :
  0 <= i -> i + 16 <= N ->
  (forall k, 0 <= k < N -> Z.abs (u k * v k) <= B) ->
  lanes_ok B (range_dot u v i (i + 16))
    (map (fun k => u (i + k) * v (i + k)) (rangeZ 0 16)).
Proof.
  intros Hi HN Hb. split; [reflexivity|]. split.
  - apply Forall_forall. intros x Hx. apply in_map_iff in Hx.
    destruct Hx as (k & <- & Hk). apply in_rangeZ in Hk. apply Hb. lia.
  - unfold range_dot. rewrite rangeZ_shift, map_map. reflexivity.
Qed.

Lemma flush_exact (u v : Z -> Z) f i ys :
  0 <= f <= i -> i <= N ->
  (forall a b, 0 <= a <= b -> b <= N ->
     sum_abs (map (fun k => u k * v k) (rangeZ a b)) <= B * (b - a)) ->
  sumZ ys = range_dot u v f i ->
  F32.add (F32.of_int (range_dot u v 0 f)) (F32.of_int (fold_left Z.add ys 0)) =
  F32.of_int (range_dot u v 0 i).
Proof.
  intros Hf Hi Hb Hs. rewrite fold_add_sumZ, Z.add_0_l, Hs.
  pose proof (sumZ_abs (map (fun k => u k * v k) (rangeZ 0 f))) as H1.
  pose proof (sumZ_abs (map (fun k => u k * v k) (rangeZ f i))) as H2.
  pose proof (sumZ_abs (map (fun k => u k * v k) (rangeZ 0 i))) as H3.
  pose proof (Hb 0 f ltac:(lia) ltac:(lia)).
  pose proof (Hb f i ltac:(lia) ltac:(lia)).
  pose proof (Hb 0 i ltac:(lia) ltac:(lia)).
  fold (range_dot u v 0 f) in H1. fold (range_dot u v f i) in H2.
  fold (range_dot u v 0 i) in H3.
  assert (B * f <= B * N /\ B * (i - f) <= B * N /\ B * i <= B * N) by nia.
  rewrite F32_add_of_int.
  - now rewrite <- (range_dot_split u v 0 f i) by lia.
  - lia.
  - lia.
  - rewrite <- (range_dot_split u v 0 f i) by lia. lia.
Qed.

Lemma dot_IQ_code_avx2_inv fuel : forall st,
  dot_inv IQ code N B st -> 0 <= dot_i st ->
  N - 15 - dot_i st <= 16 * Z.of_nat fuel ->
  let r := dot_IQ_code_avx2 fuel IQ code N st in
  dot_inv IQ code N B r /\ 0 <= dot_i r /\ N - 15 <= dot_i r.
Proof.
  induction fuel as [|fuel IH]; intros st Hinv Hi Hfuel.
  - simpl. split; [exact Hinv|]. lia.
  - cbn [dot_IQ_code_avx2]. cbv zeta.
    destruct (dot_i st <? N - 15) eqn:E; [|apply Z.ltb_ge in E; now auto].
    apply Z.ltb_lt in E.
    destruct Hinv as (f & cnt & m & Hif & Hcnt & HiN & Hf & HI & HQ & Hc).
    set (i := dot_i st) in *.
    destruct (dot_block IQ code i) as [EI EQ].
    { intros k Hk.
      destruct (IQ_bounded (i + k) ltac:(lia)), (code_ternary (i + k) ltac:(lia)).
      repeat split; try assumption; lia. }
    cbv zeta in EI, EQ. rewrite EI, EQ.
    assert (HbI : forall k, 0 <= k < N -> Z.abs (cells_I IQ k * cells_I code k) <= B)
      by (intros k Hk; apply prod_bounded, Hk).
    assert (HbQ : forall k, 0 <= k < N -> Z.abs (cells_Q IQ k * cells_Q code k) <= B)
      by (intros k Hk; apply prod_bounded, Hk).
    assert (Hcnt' : cnt <= 255) by (destruct Hf as [[_ ->]|(_ & _ & H)]; lia).
    assert (Hf0 : 0 <= f) by (destruct Hf as [[-> _]|(-> & H & _)]; lia).
    pose proof (lanes_add _ _ _ _ _ _ HI
                  (block_lanes (cells_I IQ) (cells_I code) i ltac:(lia) ltac:(lia) HbI)
                  ltac:(simpl; nia)) as HI'.
    pose proof (lanes_add _ _ _ _ _ _ HQ
                  (block_lanes (cells_Q IQ) (cells_Q code) i ltac:(lia) ltac:(lia) HbQ)
                  ltac:(simpl; nia)) as HQ'.
    rewrite <- range_dot_split in HI', HQ' by lia.
    destruct (Z.rem i (16 * 256) =? 0) eqn:R.
    + apply Z.eqb_eq in R. rewrite Z.rem_mod_nonneg in R by lia.
      unfold sum_16x16. cbn [dot_i dot_ysumI dot_ysumQ dot_c fst snd].
      apply IH; cbn [dot_i]; [|lia|lia].
      exists (i + 16), 0, (i / 4096).
      cbn [dot_i dot_ysumI dot_ysumQ dot_c].
      split; [lia|]. split; [lia|]. split; [lia|]. split.
      { right. split; [|split; [|lia]].
        - change (16 * 256) with 4096 in R.
          pose proof (Z.div_mod i 4096 ltac:(lia)). lia.
        - apply Z.div_pos; lia. }
      rewrite !range_dot_nil by lia. rewrite Z.mul_0_r.
      split; [apply lanes_zero|]. split; [apply lanes_zero|].
      rewrite Hc. cbn [fst snd].
      destruct HI' as (_ & _ & SI). destruct HQ' as (_ & _ & SQ).
      f_equal.
      * apply flush_exact; [lia|lia|apply range_dot_bound_I|exact SI].
      * apply flush_exact; [lia|lia|apply range_dot_bound_Q|exact SQ].
    + apply Z.eqb_neq in R. rewrite Z.rem_mod_nonneg in R by lia.
      cbn [dot_i dot_ysumI dot_ysumQ dot_c].
      apply IH; cbn [dot_i]; [|lia|lia].
      exists f, (cnt + 1), m.
      cbn [dot_i dot_ysumI dot_ysumQ dot_c].
      split; [lia|]. split; [lia|]. split; [lia|]. split.
      { right. destruct Hf as [[-> ->]|(Ef & Hm & Hc255)].
        - exfalso. apply R. replace i with 0 by lia. reflexivity.
        - split; [exact Ef|]. split; [exact Hm|].
          destruct (Z.eq_dec cnt 255) as [->|]; [|lia].
          exfalso. apply R. replace i with ((m + 1) * (16 * 256)) by lia.
          apply Z.mod_mul. lia. }
      split; [|split; [|exact Hc]].
      * eapply lanes_weaken; [exact HI'|lia].
      * eapply lanes_weaken; [exact HQ'|lia].
Qed.

(** The scalar loop from [i], entered with the exact sums of the cells
    before [i]. *)
Lemma dot_IQ_code_tail i :
  0 <= i <= N ->
  for_loop i N
    (fun k c =>
       (F32.add (fst c) (F32.of_int (cpx16_I (IQ k) * cpx16_I (code k))),
        F32.add (snd c) (F32.of_int (cpx16_Q (IQ k) * cpx16_Q (code k)))))
    (F32.of_int (range_dot (cells_I IQ) (cells_I code) 0 i), F32.of_int (range_dot (cells_Q IQ) (cells_Q code) 0 i)) =
  (F32.of_int (range_dot (cells_I IQ) (cells_I code) 0 N), F32.of_int (range_dot (cells_Q IQ) (cells_Q code) 0 N)).
Proof.
  intros Hi.
  pose proof (range_dot_bound_I 0 i ltac:(lia) ltac:(lia)) as B1.
  pose proof (range_dot_bound_I i N ltac:(lia) ltac:(lia)) as B2.
  pose proof (range_dot_bound_Q 0 i ltac:(lia) ltac:(lia)) as B3.
  pose proof (range_dot_bound_Q i N ltac:(lia) ltac:(lia)) as B4.
  pose proof (sumZ_abs (map (fun k => cells_I IQ k * cells_I code k) (rangeZ 0 i))) as A1.
  pose proof (sumZ_abs (map (fun k => cells_Q IQ k * cells_Q code k) (rangeZ 0 i))) as A3.
  fold (range_dot (cells_I IQ) (cells_I code) 0 i) in A1. fold (range_dot (cells_Q IQ) (cells_Q code) 0 i) in A3.
  assert (B * i + B * (N - i) = B * N) by lia.
  match goal with |- ?l = _ => rewrite (surjective_pairing l) end.
  f_equal.
  - rewrite (for_loop_map_fold fst (fun acc x => F32.add acc (F32.of_int x))
               (fun k => cells_I IQ k * cells_I code k)) by reflexivity.
    cbn [fst]. rewrite fold_add_of_int by lia.
    fold (range_dot (cells_I IQ) (cells_I code) i N). now rewrite <- range_dot_split by lia.
  - rewrite (for_loop_map_fold snd (fun acc x => F32.add acc (F32.of_int x))
               (fun k => cells_Q IQ k * cells_Q code k)) by reflexivity.
    cbn [snd]. rewrite fold_add_of_int by lia.
    fold (range_dot (cells_Q IQ) (cells_Q code) i N). now rewrite <- range_dot_split by lia.
Qed.

Hypothesis N_nonneg : 0 <= N.

(** With or without the vector loop, [dot_IQ_code] holds the exact sums
    of the products before the scaling. *)
Lemma dot_IQ_code_exact AVX2 s :
  dot_IQ_code AVX2 IQ code N s =
  (F32.mul (F32.of_int (range_dot (cells_I IQ) (cells_I code) 0 N)) (F32.div s CSCALE),
   F32.mul (F32.of_int (range_dot (cells_Q IQ) (cells_Q code) 0 N)) (F32.div s CSCALE)).
Proof.
  unfold dot_IQ_code. cbv zeta.
  set (st0 := mk_dot_st 0 mm256_setzero_si256 mm256_setzero_si256
                (F32.zero, F32.zero)).
  assert (H0 : dot_inv IQ code N B st0).
  { exists 0, 0, 0. cbn [st0 dot_i dot_ysumI dot_ysumQ dot_c].
    split; [lia|]. split; [lia|]. split; [lia|]. split; [left; lia|].
    rewrite !range_dot_nil by lia. rewrite Z.mul_0_r.
    split; [apply lanes_zero|]. split; [apply lanes_zero|]. reflexivity. }
  destruct AVX2.
  - destruct (dot_IQ_code_avx2_inv (Z.to_nat N) st0 H0 ltac:(simpl; lia)
                ltac:(cbn [st0 dot_i]; lia)) as (Hinv & Hi & _).
    cbv zeta in Hinv, Hi.
    set (r := dot_IQ_code_avx2 (Z.to_nat N) IQ code N st0) in *.
    destruct Hinv as (f & cnt & m & Hif & Hcnt & HiN & Hf & HI & HQ & Hc).
    assert (Hf0 : 0 <= f) by (destruct Hf as [[-> _]|(-> & H & _)]; lia).
    unfold sum_16x16. cbn [dot_i dot_c fst snd]. rewrite Hc. cbn [fst snd].
    destruct HI as (_ & _ & SI). destruct HQ as (_ & _ & SQ).
    rewrite (flush_exact (cells_I IQ) (cells_I code) f (dot_i r) _ ltac:(lia) HiN
               range_dot_bound_I SI).
    rewrite (flush_exact (cells_Q IQ) (cells_Q code) f (dot_i r) _ ltac:(lia) HiN
               range_dot_bound_Q SQ).
    rewrite dot_IQ_code_tail by lia. reflexivity.
  - cbn [st0 dot_i dot_c].
    change (F32.zero, F32.zero)
      with (F32.of_int (range_dot (cells_I IQ) (cells_I code) 0 0), F32.of_int (range_dot (cells_Q IQ) (cells_Q code) 0 0)).
    rewrite dot_IQ_code_tail by lia. reflexivity.
Qed.
End DotLoops.

(** ** Standard correlator: [dot_IQ_code] and [corr_std] *)




(** ** FFT plan cache and FFT correlator *)

Lemma fft_state_init_wf : fft_cache_wf fft_state_init.
Proof. intros j H. now elim H. Qed.

Lemma get_fftw_plan_from_none k : forall i N st,
  (forall j, i <= j < i + Z.of_nat k ->
     fftw_size st j <> 0 /\ fftw_size st j <> N) ->
  get_fftw_plan_from k i N st =
  (None, mk_fft_state (fftw_plans st) (fftw_size st) (fft_stderr st ++ [N])).
Proof.
  induction k as [|k IH]; intros i N st H; [reflexivity|].
  cbn [get_fftw_plan_from].
  destruct (H i ltac:(lia)) as [H0 HN].
  replace (fftw_size st i =? 0) with false by (symmetry; now apply Z.eqb_neq).
  replace (fftw_size st i =? N) with false by (symmetry; now apply Z.eqb_neq).
  apply IH. intros j Hj. apply H. lia.
Qed.

Lemma get_fftw_plan_from_some k : forall i N st,
  fft_cache_wf st ->
  (exists j, i <= j < i + Z.of_nat k /\
     (fftw_size st j = 0 \/ fftw_size st j = N)) ->
  exists st',
    get_fftw_plan_from k i N st =
      (Some (Some (mk_plan N FFTW_FORWARD), Some (mk_plan N FFTW_BACKWARD)), st') /\
    fft_cache_wf st' /\ fft_stderr st' = fft_stderr st.
Proof.
  induction k as [|k IH]; intros i N st Hwf (j & Hj & Hs); [lia|].
  cbn [get_fftw_plan_from].
  destruct (Z.eqb_spec (fftw_size st i) 0) as [E0|E0].
  - cbn [fftw_size fftw_plans]. unfold upd at 1. rewrite Z.eqb_refl, Z.eqb_refl.
    eexists. split; [unfold upd; rewrite Z.eqb_refl; reflexivity|].
    split; [|reflexivity].
    intros j'. cbn [fftw_size fftw_plans]. unfold upd.
    destruct (Z.eqb_spec j' i); [reflexivity|apply Hwf].
  - destruct (Z.eqb_spec (fftw_size st i) N) as [EN|EN].
    + exists st. split; [|split; [exact Hwf|reflexivity]].
      rewrite (Hwf i E0), EN. reflexivity.
    + apply IH; [exact Hwf|]. exists j. split; [|exact Hs].
      destruct (Z.eq_dec j i) as [->|]; [destruct Hs; contradiction|lia].
Qed.

Section FFTSpec.
Variable dft : Z -> list sdr_cpx_t -> Z -> sdr_cpx_t.

(** C3.  From a cache whose plans match their recorded lengths: when all
    [MAX_FFTW_PLAN] slots hold plans of lengths other than [N], [corr_fft]
    leaves [corr] as it was and only logs the error; when a slot is empty
    or holds a plan of length [N], it writes the [N] cells of [corr] with
    the inverse transform of the spectrum product, and no other cell. *)
Theorem corr_fft_plan_cache (cpx0 : Z -> sdr_cpx_t) (IQ : Z -> sdr_cpx16_t)
    (code_fft : Z -> sdr_cpx_t) (N : Z) (corr : Z -> sdr_cpx_t)
    (st : fft_state) :
  fft_cache_wf st ->
  ((forall j, 0 <= j < MAX_FFTW_PLAN ->
      fftw_size st j <> 0 /\ fftw_size st j <> N) ->
   corr_fft dft cpx0 IQ code_fft N corr st =
   (corr, mk_fft_state (fftw_plans st) (fftw_size st) (fft_stderr st ++ [N])))
  /\
  ((exists j, 0 <= j < MAX_FFTW_PLAN /\
      (fftw_size st j = 0 \/ fftw_size st j = N)) ->
   let r := corr_fft dft cpx0 IQ code_fft N corr st in
   (forall k, 0 <= k < N ->
      fst r k =
      dft FFTW_BACKWARD (map (fft_product dft IQ code_fft N) (rangeZ 0 N)) k) /\
   (forall k, ~ 0 <= k < N -> fst r k = corr k) /\
   fft_cache_wf (snd r) /\ fft_stderr (snd r) = fft_stderr st).
Proof.
  intros Hwf. split.
  - intros Hfull. unfold corr_fft, get_fftw_plan.
    rewrite get_fftw_plan_from_none; [reflexivity|].
    intros j Hj. apply Hfull. unfold MAX_FFTW_PLAN in *. lia.
  - intros Hslot.
    destruct (get_fftw_plan_from_some (Z.to_nat MAX_FFTW_PLAN) 0 N st Hwf)
      as (st' & Hget & Hwf' & Herr).
    { destruct Hslot as (j & Hj & Hs). exists j. split; [|exact Hs].
      unfold MAX_FFTW_PLAN in *. lia. }
    unfold corr_fft, get_fftw_plan. rewrite Hget. cbn [fst snd].
    unfold fftwf_execute_dft. cbn [plan_n plan_sign].
    split; [|split; [|split; assumption]].
    + intros k Hk.
      replace ((0 <=? k) && (k <? N)) with true
        by (symmetry; apply andb_true_iff; lia).
      f_equal. apply map_rangeZ_ext. intros j Hj.
      unfold sdr_cpx_mul.
      rewrite (for_loop_upd 0 N
        (fun i => cpx_mul_scaled
           ((if (0 <=? N + i - N) && (N + i - N <? N)
             then dft FFTW_FORWARD
                    (map (for_loop 0 N
                            (fun i0 cpx => upd cpx i0 (fft_samples IQ i0)) cpx0)
                       (rangeZ 0 N)) (N + i - N)
             else for_loop 0 N
                    (fun i0 cpx => upd cpx i0 (fft_samples IQ i0)) cpx0
                    (N + (N + i - N))))
           (code_fft i)
           (F32.div (F32.div F32.one (F32.of_int N)) (F32.of_int N)))).
      replace ((0 <=? j) && (j <? N)) with true
        by (symmetry; apply andb_true_iff; lia).
      replace (N + j - N) with j by lia.
      replace ((0 <=? j) && (j <? N)) with true
        by (symmetry; apply andb_true_iff; lia).
      unfold fft_product. f_equal. f_equal.
      apply map_rangeZ_ext. intros i Hi.
      rewrite (for_loop_upd 0 N (fft_samples IQ)).
      replace ((0 <=? i) && (i <? N)) with true
        by (symmetry; apply andb_true_iff; lia).
      reflexivity.
    + intros k Hk.
      destruct (0 <=? k) eqn:E1, (k <? N) eqn:E2; cbn [andb]; try reflexivity.
      lia.
Qed.
End FFTSpec.

Lemma full_cache_wf : fft_cache_wf full_cache.
Proof. intros j _. reflexivity. Qed.

(** A full cache of plans of length 8 refuses the length 4; the empty
    cache serves it. *)
Lemma corr_fft_plan_cache_witness :
  corr_fft (fun _ _ _ => (F32.zero, F32.zero)) (fun _ => (F32.one, F32.one))
    wrap_IQ (fun _ => (F32.one, F32.zero)) 4 (fun _ => (F32.ten, F32.ten))
    full_cache =
  (fun _ => (F32.ten, F32.ten),
   mk_fft_state (fftw_plans full_cache) (fftw_size full_cache) [4]) /\
  fft_stderr
    (snd (corr_fft (fun _ _ _ => (F32.zero, F32.zero))
            (fun _ => (F32.one, F32.one)) wrap_IQ
            (fun _ => (F32.one, F32.zero)) 4 (fun _ => (F32.ten, F32.ten))
            fft_state_init)) = [].
Proof.
  split.
  - apply (corr_fft_plan_cache (fun _ _ _ => (F32.zero, F32.zero))
             (fun _ => (F32.one, F32.one)) wrap_IQ
             (fun _ => (F32.one, F32.zero)) 4 (fun _ => (F32.ten, F32.ten))
             full_cache full_cache_wf).
    intros j Hj. simpl. lia.
  - apply (corr_fft_plan_cache (fun _ _ _ => (F32.zero, F32.zero))
             (fun _ => (F32.one, F32.one)) wrap_IQ
             (fun _ => (F32.one, F32.zero)) 4 (fun _ => (F32.ten, F32.ten))
             fft_state_init fft_state_init_wf).
    exists 0. unfold MAX_FFTW_PLAN. split; [lia|]. left. reflexivity.
Defined.

(** ** Fine Doppler: [poly_fit] and [sdr_fine_dop] *)

Section FineDopSpec.
Variable lsq : list double -> list double -> Z -> Z -> Z * list double.
Variable V0 : Z -> double.

(** Row [i] of the matrix holds the powers of [x[i]]. *)
Lemma vandermonde_spec x nx np i j :
  0 <= i < nx -> 0 <= j < np ->
  vandermonde V0 x nx np (i * np + j) = pow_iter (x i) (Z.to_nat j).
Proof.
  intros Hi Hj. unfold vandermonde.
  assert (G : (fun i V => forall i' j', 0 <= i' < i -> 0 <= j' < np ->
                 V (i' * np + j') = pow_iter (x i') (Z.to_nat j'))
              (Z.max 0 nx)
              (for_loop 0 nx
                 (fun i => for_loop 0 np
                    (fun j V => upd V (i * np + j)
                       (if j =? 0 then F64.one
                        else F64.mul (V (i * np + j - 1)) (x i)))) V0)).
  { apply for_loop_ind; [intros; lia|].
    intros a V Ha HV.
    assert (G : (fun j V' =>
                  (forall i' j', 0 <= i' < a -> 0 <= j' < np ->
                     V' (i' * np + j') = pow_iter (x i') (Z.to_nat j')) /\
                  (forall j', 0 <= j' < j ->
                     V' (a * np + j') = pow_iter (x a) (Z.to_nat j')))
                (Z.max 0 np)
                (for_loop 0 np
                   (fun j V => upd V (a * np + j)
                      (if j =? 0 then F64.one
                       else F64.mul (V (a * np + j - 1)) (x a))) V)).
    { apply for_loop_ind; [split; [exact HV|intros; lia]|].
      intros b V' Hb [H1 H2]. unfold upd. split.
      - intros i' j' Hi' Hj'.
        destruct (Z.eqb_spec (i' * np + j') (a * np + b)); [nia|].
        now apply H1.
      - intros j' Hj'.
        destruct (Z.eqb_spec (a * np + j') (a * np + b)) as [E|E].
        + assert (j' = b) by lia. subst j'.
          destruct (Z.eqb_spec b 0) as [->|Hb0]; [reflexivity|].
          replace (a * np + b - 1) with (a * np + (b - 1)) by lia.
          rewrite H2 by lia.
          replace (Z.to_nat b) with (S (Z.to_nat (b - 1))) by lia.
          reflexivity.
        + apply H2. lia. }
    cbv beta in G. destruct G as [G1 G2].
    intros i' j' Hi' Hj'.
    destruct (Z.eq_dec i' a) as [->|]; [apply G2; lia|apply G1; lia]. }
  cbv beta in G. apply G; lia.
Qed.

(** C7.  When [ix_doppler] is [0] or [len_fds - 1], [sdr_fine_dop] returns
    [fds[ix_doppler]].  Otherwise it calls the least-squares solver on the
    Vandermonde matrix (rows [1, x, x^2]) of the three bins
    [fds[ix_doppler + k]] and on the three powers
    [P[ix_doppler + k][ix_code]], [k = -1, 0, 1]; when the solver succeeds
    with the coefficients [p], it returns [-p1 / (2 p2)], and when it fails
    it returns [fds[ix_doppler]]. *)
Theorem sdr_fine_dop_spec (P : Z -> float) (N : Z) (fds : Z -> float)
    (len_fds : Z) (ix : Z * Z) :
  let x := fun k => double_of_float (fds (fst ix - 1 + k)) in
  let y := fun k => double_of_float (P ((fst ix - 1 + k) * N + snd ix)) in
  let A := flat_map (fun k => [pow_iter (x k) 0; pow_iter (x k) 1;
                               pow_iter (x k) 2]) [0; 1; 2] in
  let fit := lsq A [y 0; y 1; y 2] 3 3 in
  sdr_fine_dop lsq V0 P N fds len_fds ix =
  if (fst ix =? 0) || (fst ix =? len_fds - 1)
  then double_of_float (fds (fst ix))
  else if fst fit =? 0
  then F64.div (F64.opp (nth 1 (snd fit) F64.zero))
         (F64.mul F64.two (nth 2 (snd fit) F64.zero))
  else double_of_float (fds (fst ix)).
Proof.
  intros x y A fit. unfold sdr_fine_dop.
  destruct ((fst ix =? 0) || (fst ix =? len_fds - 1)); [reflexivity|].
  unfold poly_fit. fold x. fold y.
  change (3 <? 3) with false. cbv iota.
  assert (EA : map (vandermonde V0 x 3 3) (rangeZ 0 (3 * 3)) = A).
  { change (rangeZ 0 (3 * 3))
      with [0 * 3 + 0; 0 * 3 + 1; 0 * 3 + 2; 1 * 3 + 0; 1 * 3 + 1; 1 * 3 + 2;
            2 * 3 + 0; 2 * 3 + 1; 2 * 3 + 2].
    cbn [map]. rewrite !vandermonde_spec by lia. reflexivity. }
  rewrite EA. change (map y (rangeZ 0 3)) with [y 0; y 1; y 2].
  fold fit. destruct fit as [stat p]. cbn [fst snd].
  destruct (stat =? 0); reflexivity.
Qed.
End FineDopSpec.

(** C8, as amended.  For the powers [{1, 4, 3}] at the bins
    [{100, 200, 300}] Hz, with the peak at the middle bin, [sdr_fine_dop]
    returns the vertex of the parabola through the three points, 225 Hz,
    within [1e-6] Hz.  (The solver is the model [Lsq.lsq] of RTKLIB's.) *)
Theorem sdr_fine_dop_example :
  F64.leb
    (F64.abs (F64.sub (sdr_fine_dop Lsq.lsq (fun _ => F64.zero) fine_P 1
                         fine_fds 3 (1, 0))
                (F64.of_int 225)))
    (F64.of_ratio 1 1000000) = true.
Proof. vm_compute. reflexivity. Qed.

(** C8 fails as stated: the value returned is not within 1 Hz of
    237.5 Hz. *)
Lemma sdr_fine_dop_not_237 :
  F64.leb
    (F64.abs (F64.sub (sdr_fine_dop Lsq.lsq (fun _ => F64.zero) fine_P 1
                         fine_fds 3 (1, 0))
                (F64.of_ratio 475 2)))
    F64.one = false.
Proof. vm_compute. reflexivity. Qed.

(** ** Doppler search bins: [sdr_dop_bins] *)

Lemma nth_map_rangeZ {A : Type} (f : Z -> A) lo hi i d :
  0 <= i < hi - lo ->
  nth (Z.to_nat i) (map f (rangeZ lo hi)) d = f (lo + i).
Proof.
  intros Hi. unfold rangeZ. rewrite map_map.
  rewrite (nth_indep _ d ((fun n => f (lo + Z.of_nat n)) O))
    by (rewrite length_map, length_seq; lia).
  rewrite (map_nth (fun n => f (lo + Z.of_nat n))).
  rewrite seq_nth by lia. f_equal. lia.
Qed.

(** C9, as amended.  [sdr_dop_bins] returns [K] bins, where
    [K = (int)(2 max_dop / step) + 1] and [step] is [DOP_STEP / T] rounded
    to single precision; bin [i] is the single-precision value of
    [dop - max_dop + i step].  For [T = 1e-3 s], [dop = 0] and
    [max_dop = 5000 Hz] these are the 21 bins
    [-5000, -4500, ..., 4500, 5000], each less than the next. *)
Theorem sdr_dop_bins_spec (T : double) (dop max_dop : float) :
  let step := float_of_double (F64.div DOP_STEP T) in
  let K := int_of_double
             (F64.div (F64.mul F64.two (double_of_float max_dop))
                (double_of_float step)) + 1 in
  snd (sdr_dop_bins T dop max_dop) = K /\
  length (fst (sdr_dop_bins T dop max_dop)) = Z.to_nat K /\
  (forall i, 0 <= i < K ->
     nth (Z.to_nat i) (fst (sdr_dop_bins T dop max_dop)) F32.zero =
     F32.add (F32.sub dop max_dop) (F32.mul (F32.of_int i) step)) /\
  sdr_dop_bins ms F32.zero (F32.of_int 5000) =
    (map (fun i => F32.of_int (-5000 + 500 * i)) (rangeZ 0 21), 21) /\
  (forall i, 0 <= i < 20 ->
     F32.ltb (F32.of_int (-5000 + 500 * i)) (F32.of_int (-5000 + 500 * (i + 1)))
     = true).
Proof.
  intros step K. unfold sdr_dop_bins. fold step. fold K. cbn [fst snd].
  split; [reflexivity|]. split.
  { rewrite length_map, length_rangeZ. f_equal. lia. }
  split.
  { intros i Hi. rewrite nth_map_rangeZ by lia. reflexivity. }
  split; [vm_compute; reflexivity|].
  intros i Hi.
  assert (F : forallb (fun i => F32.ltb (F32.of_int (-5000 + 500 * i))
                                  (F32.of_int (-5000 + 500 * (i + 1))))
                (rangeZ 0 20) = true) by (vm_compute; reflexivity).
  rewrite forallb_forall in F. apply F, in_rangeZ. lia.
Qed.

(** C9 fails as stated: for [T = 1 s], [dop = 33554432 Hz] and
    [max_dop = 1 Hz] the step is 0.5 Hz and the grid has five bins, which
    are all [33554432]: [dop - max_dop] and the sums [+ i * 0.5] round to
    that single-precision number.  The grid is not strictly increasing. *)
Lemma sdr_dop_bins_not_increasing :
  sdr_dop_bins F64.one (F32.of_int 33554432) F32.one =
    (map F32.of_int [33554432; 33554432; 33554432; 33554432; 33554432], 5) /\
  F32.ltb (nth 0 (fst (sdr_dop_bins F64.one (F32.of_int 33554432) F32.one))
             F32.zero)
          (nth 1 (fst (sdr_dop_bins F64.one (F32.of_int 33554432) F32.one))
             F32.zero) = false.
Proof. vm_compute. split; reflexivity. Qed.

(** * Part III: further functions *)

(** ** [sdr_xor_bits] *)

Lemma xor_low_bits_ext n : forall x y,
  (forall i, 0 <= i < Z.of_nat n -> Z.testbit x i = Z.testbit y i) ->
  xor_low_bits n x = xor_low_bits n y.
Proof.
  induction n as [|n IH]; intros x y H; [reflexivity|].
  cbn [xor_low_bits]. rewrite (H (Z.of_nat n)) by lia.
  f_equal. apply IH. intros i Hi. apply H. lia.
Qed.

Lemma xor_low_bits_add a : forall b x,
  xor_low_bits (a + b) x =
  xorb (xor_low_bits a (Z.shiftr x (Z.of_nat b))) (xor_low_bits b x).
Proof.
  induction a as [|a IH]; intros b x.
  - cbn [Nat.add xor_low_bits]. now rewrite xorb_false_l.
  - cbn [Nat.add xor_low_bits]. rewrite IH, Z.shiftr_spec by lia.
    rewrite xorb_assoc. do 2 f_equal. lia.
Qed.

Lemma xor_low_bits_lxor n : forall x y,
  xor_low_bits n (Z.lxor x y) = xorb (xor_low_bits n x) (xor_low_bits n y).
Proof.
  induction n as [|n IH]; intros x y; [reflexivity|].
  cbn [xor_low_bits]. rewrite IH, Z.lxor_spec.
  destruct (Z.testbit x (Z.of_nat n)), (Z.testbit y (Z.of_nat n)),
    (xor_low_bits n x), (xor_low_bits n y); reflexivity.
Qed.

Lemma xor_8b_at_spec x : xor_8b_at x = Z.b2z (xor_low_bits 8 x).
Proof.
  unfold xor_8b_at.
  rewrite (xor_low_bits_ext 8 x (x mod 256)).
  2:{ intros i Hi. change 256 with (2 ^ 8).
      now rewrite Z.mod_pow2_bits_low by (simpl in Hi; lia). }
  assert (F : forallb (fun b => nth (Z.to_nat b) xor_8b 0 =?
                                Z.b2z (xor_low_bits 8 b)) (rangeZ 0 256) = true)
    by (vm_compute; reflexivity).
  rewrite forallb_forall in F. apply Z.eqb_eq, F, in_rangeZ.
  apply Z.mod_pos_bound. lia.
Qed.

Lemma b2z_lxor a b : Z.lxor (Z.b2z a) (Z.b2z b) = Z.b2z (xorb a b).
Proof. destruct a, b; reflexivity. Qed.

Lemma sdr_xor_bits_low (X : Z) :
  sdr_xor_bits X = Z.b2z (xor_low_bits 32 X).
Proof.
  unfold sdr_xor_bits. rewrite !xor_8b_at_spec, !b2z_lxor. f_equal.
  change 32%nat with (8 + (8 + (8 + 8)))%nat.
  rewrite (xor_low_bits_add 8 (8 + (8 + 8)) X).
  rewrite (xor_low_bits_add 8 (8 + 8) X).
  rewrite (xor_low_bits_add 8 8 X).
  change (Z.of_nat (8 + (8 + 8))) with 24. change (Z.of_nat (8 + 8)) with 16.
  change (Z.of_nat 8) with 8.
  destruct (xor_low_bits 8 X), (xor_low_bits 8 (Z.shiftr X 8)),
    (xor_low_bits 8 (Z.shiftr X 16)), (xor_low_bits 8 (Z.shiftr X 24));
    reflexivity.
Qed.

Lemma xor_low_bits_count n x :
  Z.b2z (xor_low_bits n x) = bit_count n x mod 2.
Proof.
  induction n as [|n IH]; [reflexivity|].
  cbn [xor_low_bits bit_count].
  rewrite <- Z.add_mod_idemp_r, <- IH by lia.
  destruct (Z.testbit x (Z.of_nat n)), (xor_low_bits n x); reflexivity.
Qed.

(** X1.  [sdr_xor_bits(X)] is the exclusive-or of the 32 low bits of [X]:
    [1] when the number of bits set is odd and [0] when it is even. *)
Theorem sdr_xor_bits_parity (X : Z) :
  sdr_xor_bits X = bit_count 32 X mod 2 /\
  (sdr_xor_bits X = 0 \/ sdr_xor_bits X = 1).
Proof.
  rewrite sdr_xor_bits_low. split; [apply xor_low_bits_count|].
  destruct (xor_low_bits 32 X); [right|left]; reflexivity.
Qed.

(** X2.  [sdr_xor_bits] is linear over the exclusive-or:
    [sdr_xor_bits(X ^ Y) = sdr_xor_bits(X) ^ sdr_xor_bits(Y)]. *)
Theorem sdr_xor_bits_lxor (X Y : Z) :
  sdr_xor_bits (Z.lxor X Y) = Z.lxor (sdr_xor_bits X) (sdr_xor_bits Y).
Proof.
  rewrite !sdr_xor_bits_low, xor_low_bits_lxor, b2z_lxor. reflexivity.
Qed.

(** ** [sdr_unpack_data] *)

Lemma land_1_testbit x n :
  0 <= n -> Z.land (Z.shiftr x n) 1 = Z.b2z (Z.testbit x n).
Proof.
  intros Hn. change 1 with (Z.ones 1). rewrite Z.land_ones by lia.
  change (2 ^ 1) with 2. rewrite <- Z.bit0_mod, Z.shiftr_spec by lia.
  now rewrite Z.add_0_l.
Qed.

Lemma sdr_unpack_data_cells data nbit buff i :
  sdr_unpack_data data nbit buff i =
  if (0 <=? i) && (i <? nbit)
  then Z.b2z (Z.testbit data (nbit - 1 - i)) else buff i.
Proof.
  unfold sdr_unpack_data.
  rewrite (for_loop_ext 0 nbit _
    (fun i acc => upd acc i (Z.b2z (Z.testbit data (nbit - 1 - i))))).
  - apply (for_loop_upd 0 nbit (fun i => Z.b2z (Z.testbit data (nbit - 1 - i)))).
  - intros k st Hk. now rewrite land_1_testbit by lia.
Qed.

Lemma msb_value_ext b b' n :
  (forall i, 0 <= i < n -> b i = b' i) -> msb_value b n = msb_value b' n.
Proof.
  intros H. unfold msb_value. apply for_loop_ext.
  intros k st Hk. now rewrite H.
Qed.

Lemma msb_value_testbit data nbit :
  0 <= nbit ->
  msb_value (fun i => Z.b2z (Z.testbit data (nbit - 1 - i))) nbit =
  data mod 2 ^ nbit.
Proof.
  intros Hn. unfold msb_value.
  assert (G : (fun k acc => 0 <= k <= nbit /\
                 acc = (data / 2 ^ (nbit - k)) mod 2 ^ k)
              (Z.max 0 nbit)
              (for_loop 0 nbit
                 (fun i acc => 2 * acc + Z.b2z (Z.testbit data (nbit - 1 - i)))
                 0)).
  { apply for_loop_ind.
    - split; [lia|]. now rewrite Z.pow_0_r, Z.mod_1_r.
    - intros k acc Hk [_ ->]. split; [lia|].
      set (d := data / 2 ^ (nbit - (k + 1))).
      assert (E1 : data / 2 ^ (nbit - k) = d / 2).
      { unfold d. replace (nbit - k) with (nbit - (k + 1) + 1) by lia.
        rewrite Z.pow_add_r, Z.pow_1_r, Z.div_div by lia. reflexivity. }
      assert (E2 : Z.b2z (Z.testbit data (nbit - 1 - k)) = d mod 2).
      { unfold d. rewrite <- Z.shiftr_div_pow2 by lia.
        rewrite <- Z.bit0_mod, Z.shiftr_spec by lia.
        do 2 f_equal. lia. }
      rewrite E1, E2, Z.pow_add_r, Z.pow_1_r by lia.
      rewrite (Z.mul_comm (2 ^ k) 2).
      rewrite (Z.rem_mul_r d 2 (2 ^ k)) by lia. lia. }
  cbv beta in G. destruct G as [_ G]. rewrite G, Z.max_r by lia.
  now rewrite Z.sub_diag, Z.pow_0_r, Z.div_1_r.
Qed.

(** X3.  For [nbit] at most 32, the width of [data],
    [sdr_unpack_data(data, nbit, buff)] stores the [nbit] low bits of
    [data] in [buff[0..nbit)], one per cell and the most significant
    first, so that the cells read back as a number give [data] modulo
    [2^nbit]; the other cells of [buff] are left as they were. *)
Theorem sdr_unpack_data_spec (data nbit : Z) (buff : Z -> Z) :
  0 <= nbit <= 32 ->
  (forall i, 0 <= i < nbit ->
     sdr_unpack_data data nbit buff i = Z.b2z (Z.testbit data (nbit - 1 - i))) /\
  (forall i, ~ 0 <= i < nbit -> sdr_unpack_data data nbit buff i = buff i) /\
  msb_value (sdr_unpack_data data nbit buff) nbit = data mod 2 ^ nbit.
Proof.
  intros Hn. split; [|split].
  - intros i Hi. rewrite sdr_unpack_data_cells.
    replace ((0 <=? i) && (i <? nbit)) with true
      by (symmetry; apply andb_true_iff; lia).
    reflexivity.
  - intros i Hi. rewrite sdr_unpack_data_cells.
    destruct (0 <=? i) eqn:E1, (i <? nbit) eqn:E2; cbn [andb];
      try reflexivity; lia.
  - rewrite <- msb_value_testbit by lia. apply msb_value_ext.
    intros i Hi. rewrite sdr_unpack_data_cells.
    replace ((0 <=? i) && (i <? nbit)) with true
      by (symmetry; apply andb_true_iff; lia).
    reflexivity.
Qed.

(** ** [sdr_pack_bits] and [sdr_unpack_bits] *)

Lemma sdr_unpack_bits_cells data nbit buff i :
  sdr_unpack_bits data nbit buff i =
  if (0 <=? i) && (i <? nbit * 8)
  then Z.b2z (Z.testbit (load_u8 data (i / 8)) (7 - i mod 8)) else buff i.
Proof.
  unfold sdr_unpack_bits.
  rewrite (for_loop_ext 0 (nbit * 8) _
    (fun i acc =>
       upd acc i (Z.b2z (Z.testbit (load_u8 data (i / 8)) (7 - i mod 8))))).
  - apply (for_loop_upd 0 (nbit * 8)
             (fun i => Z.b2z (Z.testbit (load_u8 data (i / 8)) (7 - i mod 8)))).
  - intros k st Hk.
    rewrite Z.quot_div_nonneg, Z.rem_mod_nonneg by lia.
    pose proof (Z.mod_pos_bound k 8 ltac:(lia)).
    now rewrite land_1_testbit by lia.
Qed.

Lemma testbit_bit_shift d s t :
  (d = 0 \/ d = 1) -> 0 <= s -> 0 <= t ->
  Z.testbit (Z.shiftl d s) t = (d =? 1) && (t =? s).
Proof.
  intros Hd Hs Ht. rewrite Z.shiftl_spec by lia.
  destruct Hd as [-> | ->].
  - now rewrite Z.bits_0.
  - cbn [Z.eqb Pos.eqb andb]. destruct (Z.eqb_spec t s) as [->|Hne].
    + now rewrite Z.sub_diag.
    + destruct (Z_lt_dec t s).
      * now rewrite Z.testbit_neg_r by lia.
      * destruct (t - s) as [|p|p] eqn:E; [lia|reflexivity|lia].
Qed.

Lemma sdr_pack_bits_cells data nbit nz buff :
  0 <= nz -> 0 <= nbit ->
  (forall k, 0 <= k < nbit -> load_u8 data k = 0 \/ load_u8 data k = 1) ->
  let nb := (nz + nbit + 7) / 8 in
  forall k,
    (~ 0 <= k < nb -> sdr_pack_bits data nbit nz buff k = buff k) /\
    (0 <= k < nb ->
     0 <= sdr_pack_bits data nbit nz buff k < 256 /\
     forall j, 0 <= j < 8 ->
       Z.testbit (sdr_pack_bits data nbit nz buff k) (7 - j) =
       packed_bit data nbit nz (8 * k + j)).
Proof.
  intros Hnz Hnbit Hbits nb. unfold sdr_pack_bits.
  rewrite Z.quot_div_nonneg by lia. fold nb.
  assert (Hnb : nz + nbit <= 8 * nb).
  { unfold nb. pose proof (Z.div_mod (nz + nbit + 7) 8 ltac:(lia)).
    pose proof (Z.mod_pos_bound (nz + nbit + 7) 8 ltac:(lia)). lia. }
  assert (G : (fun i b => forall k,
                 (~ 0 <= k < nb -> b k = buff k) /\
                 (0 <= k < nb ->
                  0 <= b k < 256 /\
                  forall j, 0 <= j < 8 ->
                    Z.testbit (b k) (7 - j) =
                    (nz <=? 8 * k + j) && (8 * k + j <? i) &&
                    (load_u8 data (8 * k + j - nz) =? 1)))
              (Z.max nz (nz + nbit))
              (for_loop nz (nz + nbit)
                 (fun i b =>
                    upd b (Z.quot i 8)
                      (Z.lor (load_u8 b (Z.quot i 8))
                         (Z.shiftl (load_u8 data (i - nz)) (7 - Z.rem i 8))
                       mod 256))
                 (memset buff 0 nb))).
  { apply for_loop_ind.
    - intros k. unfold memset. split.
      + intros Hk. destruct (0 <=? k) eqn:E1, (k <? nb) eqn:E2; cbn [andb];
          try reflexivity; lia.
      + intros Hk.
        replace ((0 <=? k) && (k <? nb)) with true
          by (symmetry; apply andb_true_iff; lia).
        change (0 mod 256) with 0. split; [lia|].
        intros j Hj. rewrite Z.bits_0.
        destruct (nz <=? 8 * k + j) eqn:E1, (8 * k + j <? nz) eqn:E2;
          cbn [andb]; try reflexivity; lia.
    - intros i b Hi Hb k.
      rewrite Z.quot_div_nonneg, Z.rem_mod_nonneg by lia.
      pose proof (Z.div_mod i 8 ltac:(lia)) as Hdm.
      pose proof (Z.mod_pos_bound i 8 ltac:(lia)) as Hm.
      unfold upd. destruct (Z.eqb_spec k (i / 8)) as [->|Hk].
      + split; [intros Hq; exfalso; apply Hq; split;
                 [apply Z.div_pos; lia|nia]|].
        intros Hq. split; [apply Z.mod_pos_bound; lia|].
        intros j Hj. destruct (Hb (i / 8)) as [_ Hb2].
        destruct (Hb2 Hq) as [Hr Ht].
        change 256 with (2 ^ 8). rewrite Z.mod_pow2_bits_low by lia.
        rewrite Z.lor_spec. unfold load_u8 at 1.
        rewrite (Z.mod_small (b (i / 8)) 256) by lia.
        rewrite Ht by lia.
        rewrite testbit_bit_shift by (try apply Hbits; lia).
        destruct (Z.eqb_spec (7 - j) (7 - i mod 8)) as [Ej|Ej].
        * assert (Eij : 8 * (i / 8) + j = i) by lia. rewrite Eij.
          replace (nz <=? i) with true by (symmetry; apply Z.leb_le; lia).
          replace (i <? i) with false by (symmetry; apply Z.ltb_ge; lia).
          replace (i <? i + 1) with true by (symmetry; apply Z.ltb_lt; lia).
          cbn [andb orb]. now rewrite andb_true_r.
        * rewrite andb_false_r, orb_false_r.
          assert (Eij : 8 * (i / 8) + j <> i) by lia.
          destruct (8 * (i / 8) + j <? i) eqn:E1,
            (8 * (i / 8) + j <? i + 1) eqn:E2; try reflexivity; lia.
      + destruct (Hb k) as [Hb1 Hb2]. split; [exact Hb1|].
        intros Hq. destruct (Hb2 Hq) as [Hr Ht]. split; [exact Hr|].
        intros j Hj. rewrite Ht by lia.
        assert (Eij : 8 * k + j <> i) by lia.
        destruct (8 * k + j <? i) eqn:E1, (8 * k + j <? i + 1) eqn:E2;
          try reflexivity; lia. }
  cbv beta in G. rewrite Z.max_r in G by lia.
  intros k. destruct (G k) as [G1 G2]. split; [exact G1|].
  intros Hk. destruct (G2 Hk) as [Hr Ht]. split; [exact Hr|].
  intros j Hj. rewrite Ht by lia. unfold packed_bit. reflexivity.
Qed.

Lemma byte_ext a b :
  0 <= a < 256 -> 0 <= b < 256 ->
  (forall j, 0 <= j < 8 -> Z.testbit a (7 - j) = Z.testbit b (7 - j)) ->
  a = b.
Proof.
  intros Ha Hb H. rewrite <- (Z.mod_small a 256), <- (Z.mod_small b 256) by lia.
  change 256 with (2 ^ 8). apply Z.bits_inj'. intros t Ht.
  destruct (Z_lt_dec t 8) as [L|L].
  - rewrite !Z.mod_pow2_bits_low by lia.
    replace t with (7 - (7 - t)) by lia. apply H. lia.
  - now rewrite !Z.mod_pow2_bits_high by lia.
Qed.

(** X4.  Unpacking what [sdr_pack_bits] packed gives the bits back: for
    bits that are 0 or 1, the [(nz + nbit + 7) / 8] bytes written by
    [sdr_pack_bits(data, nbit, nz, buff)] unpack to [nz] zero bits, the
    [nbit] bits of [data], and zero bits up to the end of the last byte.
    [sdr_pack_bits] writes no other byte. *)
Theorem sdr_pack_unpack_bits (data : Z -> Z) (nbit nz : Z)
    (buff0 buff1 : Z -> Z) :
  0 <= nz -> 0 <= nbit ->
  (forall k, 0 <= k < nbit -> load_u8 data k = 0 \/ load_u8 data k = 1) ->
  let nb := (nz + nbit + 7) / 8 in
  (forall i, 0 <= i < 8 * nb ->
     sdr_unpack_bits (sdr_pack_bits data nbit nz buff0) nb buff1 i =
     if (nz <=? i) && (i <? nz + nbit) then load_u8 data (i - nz) else 0) /\
  (forall k, ~ 0 <= k < nb -> sdr_pack_bits data nbit nz buff0 k = buff0 k).
Proof.
  intros Hnz Hnbit Hbits nb. split.
  - intros i Hi. rewrite sdr_unpack_bits_cells.
    replace ((0 <=? i) && (i <? nb * 8)) with true
      by (symmetry; apply andb_true_iff; lia).
    pose proof (Z.div_mod i 8 ltac:(lia)) as Hdm.
    pose proof (Z.mod_pos_bound i 8 ltac:(lia)) as Hm.
    assert (Hq : 0 <= i / 8 < nb)
      by (split; [apply Z.div_pos; lia|apply Z.div_lt_upper_bound; lia]).
    destruct (sdr_pack_bits_cells data nbit nz buff0 Hnz Hnbit Hbits (i / 8))
      as [_ H].
    destruct (H Hq) as [Hr Ht]. unfold load_u8 at 1.
    rewrite Z.mod_small by exact Hr. rewrite Ht by lia.
    replace (8 * (i / 8) + i mod 8) with i by lia.
    unfold packed_bit.
    destruct ((nz <=? i) && (i <? nz + nbit)) eqn:E; cbn [andb]; [|reflexivity].
    apply andb_true_iff in E.
    destruct (Hbits (i - nz) ltac:(lia)) as [-> | ->]; reflexivity.
  - intros k Hk.
    now apply (sdr_pack_bits_cells data nbit nz buff0 Hnz Hnbit Hbits k).
Qed.

(** X5.  Packing what [sdr_unpack_bits] unpacked gives the bytes back:
    the [8 n] bits unpacked from [n] bytes pack, with no leading zero bit,
    to the same [n] bytes. *)
Theorem sdr_unpack_pack_bits (data : Z -> Z) (n : Z) (buff0 buff1 : Z -> Z)
    (k : Z) :
  0 <= k < n ->
  sdr_pack_bits (sdr_unpack_bits data n buff1) (8 * n) 0 buff0 k =
  load_u8 data k.
Proof.
  intros Hk.
  assert (Hbits : forall i, 0 <= i < 8 * n ->
            load_u8 (sdr_unpack_bits data n buff1) i = 0 \/
            load_u8 (sdr_unpack_bits data n buff1) i = 1).
  { intros i Hi. unfold load_u8. rewrite sdr_unpack_bits_cells.
    replace ((0 <=? i) && (i <? n * 8)) with true
      by (symmetry; apply andb_true_iff; lia).
    destruct (Z.testbit _ _); [right|left]; reflexivity. }
  destruct (sdr_pack_bits_cells (sdr_unpack_bits data n buff1) (8 * n) 0 buff0
              ltac:(lia) ltac:(lia) Hbits k) as [_ H].
  assert (Enb : (0 + 8 * n + 7) / 8 = n).
  { replace (0 + 8 * n + 7) with (n * 8 + 7) by lia.
    rewrite Z.div_add_l by lia. change (7 / 8) with 0. lia. }
  rewrite Enb in H. destruct (H Hk) as [Hr Ht].
  apply byte_ext; [exact Hr|apply load_u8_range|].
  intros j Hj. rewrite Ht by lia. unfold packed_bit.
  replace (0 <=? 8 * k + j) with true by (symmetry; apply Z.leb_le; lia).
  replace (8 * k + j <? 0 + 8 * n) with true by (symmetry; apply Z.ltb_lt; lia).
  cbn [andb]. unfold load_u8 at 1. rewrite sdr_unpack_bits_cells.
  replace ((0 <=? 8 * k + j - 0) && (8 * k + j - 0 <? n * 8)) with true
    by (symmetry; apply andb_true_iff; lia).
  replace ((8 * k + j - 0) / 8) with k
    by (replace (8 * k + j - 0) with (k * 8 + j) by lia;
        rewrite Z.div_add_l, Z.div_small by lia; lia).
  replace ((8 * k + j - 0) mod 8) with j
    by (replace (8 * k + j - 0) with (j + k * 8) by lia;
        rewrite Z.mod_add, Z.mod_small by lia; lia).
  destruct (Z.testbit (load_u8 data k) (7 - j)); reflexivity.
Qed.

(** ** [sdr_add_buff] *)

Lemma sdr_add_buff_cells buff len item size k j :
  1 <= len -> 0 <= j < size -> 0 <= k < len ->
  sdr_add_buff buff len item size (k * size + j) =
  if k <? len - 1 then buff ((k + 1) * size + j) else item j.
Proof.
  intros Hl Hj Hk. unfold sdr_add_buff, memcpy, memmove.
  destruct (Z.ltb_spec k (len - 1)) as [L|L].
  - replace (size * (len - 1) <=? k * size + j) with false
      by (symmetry; apply Z.leb_gt; nia).
    cbn [andb].
    replace ((0 <=? k * size + j) && (k * size + j <? 0 + size * (len - 1)))
      with true by (symmetry; apply andb_true_iff; split;
                    [apply Z.leb_le|apply Z.ltb_lt]; nia).
    f_equal. lia.
  - assert (k = len - 1) by lia. subst k.
    replace ((size * (len - 1) <=? (len - 1) * size + j) &&
             ((len - 1) * size + j <? size * (len - 1) + size))
      with true by (symmetry; apply andb_true_iff; split;
                    [apply Z.leb_le|apply Z.ltb_lt]; nia).
    f_equal. lia.
Qed.

Lemma sdr_add_buff_frame buff len item size x :
  1 <= len -> 0 <= size -> ~ 0 <= x < len * size ->
  sdr_add_buff buff len item size x = buff x.
Proof.
  intros Hl Hs Hx. unfold sdr_add_buff, memcpy, memmove.
  replace ((size * (len - 1) <=? x) && (x <? size * (len - 1) + size))
    with false by (symmetry; apply andb_false_iff;
                   destruct (Z_lt_dec x 0);
                   [left; apply Z.leb_gt; nia|right; apply Z.ltb_ge; nia]).
  replace ((0 <=? x) && (x <? 0 + size * (len - 1)))
    with false by (symmetry; apply andb_false_iff;
                   destruct (Z_lt_dec x 0);
                   [left; apply Z.leb_gt; lia|right; apply Z.ltb_ge; nia]).
  reflexivity.
Qed.

(** X6.  [sdr_add_buff] keeps a sliding window: after the items of a list
    are added one after the other to a buffer of [len] items of [size]
    bytes, the buffer holds the last [len] items of its former content
    followed by the list, in order, and no byte beyond the buffer is
    written. *)
Theorem sdr_add_buff_window (len size : Z) (items : list (Z -> Z)) :
  1 <= len -> 0 <= size ->
  forall buff : Z -> Z,
  (forall k j, 0 <= k < len -> 0 <= j < size ->
     add_buff_all buff len items size (k * size + j) =
     if k + Z.of_nat (length items) <? len
     then buff ((k + Z.of_nat (length items)) * size + j)
     else nth (Z.to_nat (k + Z.of_nat (length items) - len)) items
            (fun _ => 0) j) /\
  (forall x, ~ 0 <= x < len * size ->
     add_buff_all buff len items size x = buff x).
Proof.
  intros Hl Hs. unfold add_buff_all.
  induction items as [|it its IH]; intros buff.
  - split.
    + intros k j Hk Hj. cbn [fold_left length Z.of_nat].
      rewrite Z.add_0_r.
      replace (k <? len) with true by (symmetry; apply Z.ltb_lt; lia).
      reflexivity.
    + intros x Hx. reflexivity.
  - cbn [fold_left]. destruct (IH (sdr_add_buff buff len it size)) as [IH1 IH2].
    split.
    + intros k j Hk Hj. rewrite IH1 by assumption.
      cbn [length]. rewrite Nat2Z.inj_succ.
      destruct (Z.ltb_spec (k + Z.of_nat (length its)) len) as [L|L].
      * rewrite sdr_add_buff_cells by lia.
        destruct (Z.ltb_spec (k + Z.of_nat (length its)) (len - 1)) as [L1|L1].
        -- replace (k + Z.succ (Z.of_nat (length its)) <? len) with true
             by (symmetry; apply Z.ltb_lt; lia).
           f_equal. lia.
        -- replace (k + Z.succ (Z.of_nat (length its)) <? len) with false
             by (symmetry; apply Z.ltb_ge; lia).
           replace (k + Z.succ (Z.of_nat (length its)) - len) with 0 by lia.
           reflexivity.
      * replace (k + Z.succ (Z.of_nat (length its)) <? len) with false
          by (symmetry; apply Z.ltb_ge; lia).
        replace (Z.to_nat (k + Z.succ (Z.of_nat (length its)) - len))
          with (S (Z.to_nat (k + Z.of_nat (length its) - len))) by lia.
        reflexivity.
    + intros x Hx. rewrite IH2 by assumption.
      now apply sdr_add_buff_frame.
Qed.

(** ** Examples *)

Lemma sdr_unpack_data_spec_witness :
  msb_value (sdr_unpack_data 5 3 (fun _ => 9)) 3 = 5 mod 2 ^ 3.
Proof. apply (sdr_unpack_data_spec 5 3 (fun _ => 9)). lia. Defined.

Lemma five_bits_binary k :
  0 <= k < 5 -> load_u8 five_bits k = 0 \/ load_u8 five_bits k = 1.
Proof.
  intros Hk.
  assert (E : k = 0 \/ k = 1 \/ k = 2 \/ k = 3 \/ k = 4) by lia.
  destruct E as [-> | [-> | [-> | [-> | ->]]]]; vm_compute; auto.
Qed.

Lemma sdr_pack_unpack_bits_witness :
  sdr_unpack_bits (sdr_pack_bits five_bits 5 3 (fun _ => 255)) 1
    (fun _ => 7) 5 = 1.
Proof.
  apply (proj1 (sdr_pack_unpack_bits five_bits 5 3 (fun _ => 255)
                  (fun _ => 7) ltac:(lia) ltac:(lia) five_bits_binary) 5).
  vm_compute. split; [discriminate|reflexivity].
Defined.

Lemma sdr_unpack_pack_bits_witness :
  sdr_pack_bits (sdr_unpack_bits (fun _ => 165) 2 (fun _ => 7)) (8 * 2) 0
    (fun _ => 255) 1 = 165.
Proof.
  apply (sdr_unpack_pack_bits (fun _ => 165) 2 (fun _ => 7) (fun _ => 255) 1).
  lia.
Defined.

Lemma sdr_add_buff_window_witness :
  add_buff_all (fun x => x) 3 [item_a; item_b] 2 (1 * 2 + 1) = 11.
Proof.
  apply (proj1 (sdr_add_buff_window 3 2 [item_a; item_b] ltac:(lia) ltac:(lia)
                  (fun x => x)) 1 1); lia.
Defined.

(** ** The FFT plan cache: [get_fftw_plan] *)

(** The three cases of an iteration of the loop of [get_fftw_plan]. *)
Lemma get_fftw_plan_from_empty N k i st :
  fftw_size st i = 0 ->
  get_fftw_plan_from (S k) i N st =
  (Some (plans_of N),
   mk_fft_state (upd (fftw_plans st) i (plans_of N)) (upd (fftw_size st) i N)
     (fft_stderr st)).
Proof.
  intros E. cbn [get_fftw_plan_from]. rewrite E. cbn [Z.eqb fftw_size fftw_plans].
  unfold upd. now rewrite !Z.eqb_refl.
Qed.

Lemma get_fftw_plan_from_hit N k i st :
  fftw_size st i <> 0 -> fftw_size st i = N ->
  get_fftw_plan_from (S k) i N st = (Some (fftw_plans st i), st).
Proof.
  intros E0 EN. cbn [get_fftw_plan_from].
  replace (fftw_size st i =? 0) with false by (symmetry; now apply Z.eqb_neq).
  now rewrite EN, Z.eqb_refl.
Qed.

Lemma get_fftw_plan_from_next N k i st :
  fftw_size st i <> 0 -> fftw_size st i <> N ->
  get_fftw_plan_from (S k) i N st = get_fftw_plan_from k (i + 1) N st.
Proof.
  intros E0 EN. cbn [get_fftw_plan_from].
  replace (fftw_size st i =? 0) with false by (symmetry; now apply Z.eqb_neq).
  replace (fftw_size st i =? N) with false by (symmetry; now apply Z.eqb_neq).
  reflexivity.
Qed.

Ltac fftw_slot_cases st i N :=
  destruct (Z.eq_dec (fftw_size st i) 0) as [E0|E0];
  [rewrite (get_fftw_plan_from_empty N _ i st E0)
  |destruct (Z.eq_dec (fftw_size st i) N) as [EN|EN];
   [rewrite (get_fftw_plan_from_hit N _ i st E0 EN)
   |rewrite (get_fftw_plan_from_next N _ i st E0 EN)]].

(** The loop passes the slots that hold other lengths. *)
Lemma get_fftw_plan_from_skip N st d : forall k i,
  (forall t, i <= t < i + Z.of_nat d ->
     fftw_size st t <> 0 /\ fftw_size st t <> N) ->
  get_fftw_plan_from (d + k) i N st =
  get_fftw_plan_from k (i + Z.of_nat d) N st.
Proof.
  induction d as [|d IH]; intros k i H.
  - cbn [Nat.add Z.of_nat]. now rewrite Z.add_0_r.
  - destruct (H i ltac:(lia)) as [H0 HN].
    cbn [Nat.add]. rewrite get_fftw_plan_from_next by assumption.
    rewrite IH by (intros t Ht; apply H; lia). f_equal. lia.
Qed.

(** A call changes no slot that holds a plan. *)
Lemma get_fftw_plan_from_keeps N k : forall i st j,
  fftw_size st j <> 0 ->
  fftw_size (snd (get_fftw_plan_from k i N st)) j = fftw_size st j /\
  fftw_plans (snd (get_fftw_plan_from k i N st)) j = fftw_plans st j.
Proof.
  induction k as [|k IH]; intros i st j Hj; [now split|].
  fftw_slot_cases st i N.
  - cbn [snd fftw_size fftw_plans]. unfold upd.
    destruct (Z.eqb_spec j i) as [->|]; [contradiction|now split].
  - now split.
  - now apply IH.
Qed.

Lemma get_fftw_plan_from_wf N k : forall i st,
  fft_cache_wf st -> fft_cache_wf (snd (get_fftw_plan_from k i N st)).
Proof.
  induction k as [|k IH]; intros i st Hwf; [exact Hwf|].
  fftw_slot_cases st i N.
  - cbn [snd]. intros j. cbn [fftw_size fftw_plans]. unfold upd.
    destruct (Z.eqb_spec j i); [reflexivity|apply Hwf].
  - exact Hwf.
  - now apply IH.
Qed.

(** The slots before the first one examined are left as they are. *)
Lemma get_fftw_plan_from_before N k : forall i st j,
  j < i ->
  fftw_size (snd (get_fftw_plan_from k i N st)) j = fftw_size st j.
Proof.
  induction k as [|k IH]; intros i st j Hj; [reflexivity|].
  fftw_slot_cases st i N.
  - cbn [snd fftw_size]. unfold upd.
    destruct (Z.eqb_spec j i); [lia|reflexivity].
  - reflexivity.
  - apply IH. lia.
Qed.

(** X9.  [get_fftw_plan] never evicts nor overwrites a plan: whatever the
    request and its outcome, every occupied slot of the cache keeps its
    length and its two plans, and a cache whose slots hold the plans of
    their lengths stays so. *)
Theorem get_fftw_plan_keeps (N : Z) (st : fft_state) :
  (forall j, fftw_size st j <> 0 ->
     fftw_size (snd (get_fftw_plan N st)) j = fftw_size st j /\
     fftw_plans (snd (get_fftw_plan N st)) j = fftw_plans st j) /\
  (fft_cache_wf st -> fft_cache_wf (snd (get_fftw_plan N st))).
Proof.
  split.
  - intros j Hj. now apply get_fftw_plan_from_keeps.
  - apply get_fftw_plan_from_wf.
Qed.

Lemma get_fftw_plan_from_again N k : forall i st p st',
  N <> 0 ->
  get_fftw_plan_from k i N st = (Some p, st') ->
  get_fftw_plan_from k i N st' = (Some p, st').
Proof.
  induction k as [|k IH]; intros i st p st' HN H; [discriminate|].
  destruct (Z.eq_dec (fftw_size st i) 0) as [E0|E0].
  - rewrite (get_fftw_plan_from_empty N k i st E0) in H.
    injection H as <- <-.
    rewrite get_fftw_plan_from_hit.
    + cbn [fftw_plans]. unfold upd. now rewrite Z.eqb_refl.
    + cbn [fftw_size]. unfold upd. now rewrite Z.eqb_refl.
    + cbn [fftw_size]. unfold upd. now rewrite Z.eqb_refl.
  - destruct (Z.eq_dec (fftw_size st i) N) as [EN|EN].
    + rewrite (get_fftw_plan_from_hit N k i st E0 EN) in H.
      injection H as <- <-.
      now apply get_fftw_plan_from_hit.
    + rewrite (get_fftw_plan_from_next N k i st E0 EN) in H.
      pose proof (get_fftw_plan_from_before N k (i + 1) st i ltac:(lia)) as Hb.
      rewrite H in Hb. cbn [snd] in Hb.
      rewrite get_fftw_plan_from_next by (rewrite Hb; assumption).
      now apply (IH (i + 1) st).
Qed.

Lemma get_fftw_plan_stable (N : Z) (st st' : fft_state)
    (p : option fftwf_plan * option fftwf_plan) :
  N <> 0 ->
  get_fftw_plan N st = (Some p, st') ->
  get_fftw_plan N st' = (Some p, st').
Proof.
  unfold get_fftw_plan. intros HN H.
  exact (get_fftw_plan_from_again N _ 0 st p st' HN H).
Qed.

(** X10.  A request that [get_fftw_plan] served is served again with the
    same plans and without any change of the cache: for [N <> 0], the
    second call returns what the first did and leaves the state of the
    first. *)
Theorem get_fftw_plan_again (N : Z) (st : fft_state) :
  N <> 0 ->
  fst (get_fftw_plan N st) <> None ->
  get_fftw_plan N (snd (get_fftw_plan N st)) = get_fftw_plan N st.
Proof.
  intros HN Hs.
  destruct (get_fftw_plan N st) as [[p|] st'] eqn:E.
  - cbn [snd]. exact (get_fftw_plan_stable N st st' p HN E).
  - exfalso. apply Hs. reflexivity.
Qed.

Lemma cache_lens_slot st l t :
  cache_lens st l -> 0 <= t < Z.of_nat (length l) ->
  fftw_size st t <> 0 /\ In (fftw_size st t) l.
Proof.
  intros (Hlen & Hnd & H0 & Hs & He) Ht. rewrite (Hs t Ht).
  assert (Hin : In (nth (Z.to_nat t) l 0) l) by (apply nth_In; lia).
  split; [|exact Hin]. intros E. apply H0. now rewrite <- E.
Qed.

(** X8.  The plan cache refines a bounded set of lengths kept in the order
    of arrival: on a cache that records the lengths of [l], a request for
    [N <> 0] is served with the two plans of [N] exactly when [N] is in
    [l] or [l] has fewer than [MAX_FFTW_PLAN] lengths, a new length being
    recorded after the others; otherwise it is refused, the cache is left
    as it is, and one line is written to [stderr]. *)
Theorem get_fftw_plan_refines (st : fft_state) (l : list Z) (N : Z) :
  cache_lens st l -> fft_cache_wf st -> N <> 0 ->
  let r := get_fftw_plan N st in
  let q := cache_request l N in
  cache_lens (snd r) (snd q) /\
  (fst q = true ->
   fst r = Some (plans_of N) /\ fft_stderr (snd r) = fft_stderr st) /\
  (fst q = false ->
   fst r = None /\ fft_stderr (snd r) = fft_stderr st ++ [N]).
Proof.
  intros Hc Hwf HN. pose proof Hc as (Hlen & Hnd & H0 & Hs & He).
  unfold get_fftw_plan, cache_request. cbv zeta.
  unfold MAX_FFTW_PLAN in *.
  destruct (existsb (Z.eqb N) l) eqn:Ex.
  - apply existsb_exists in Ex. destruct Ex as (x & Hx & Exx).
    apply Z.eqb_eq in Exx. subst x.
    destruct (In_nth l N 0 Hx) as (p & Hp & Enth).
    replace (Z.to_nat 32) with (p + S (31 - p))%nat by lia.
    rewrite get_fftw_plan_from_skip.
    2:{ intros t Ht. destruct (cache_lens_slot st l t Hc ltac:(lia)) as [T0 _].
        split; [exact T0|]. rewrite (Hs t ltac:(lia)). intros E.
        rewrite <- Enth in E.
        apply (proj1 (NoDup_nth l 0) Hnd) in E; lia. }
    assert (Ep : fftw_size st (0 + Z.of_nat p) = N).
    { rewrite (Hs (0 + Z.of_nat p)) by lia. rewrite <- Enth. f_equal. lia. }
    rewrite get_fftw_plan_from_hit by (rewrite ?Ep; auto).
    cbn [fst snd]. split; [exact Hc|]. split; [|discriminate].
    intros _. split; [|reflexivity].
    rewrite (Hwf (0 + Z.of_nat p)) by (rewrite Ep; exact HN).
    now rewrite Ep.
  - assert (Hnin : ~ In N l).
    { intros Hin. assert (existsb (Z.eqb N) l = true); [|congruence].
      apply existsb_exists. exists N. split; [exact Hin|apply Z.eqb_refl]. }
    assert (Hother : forall t, 0 <= t < Z.of_nat (length l) ->
              fftw_size st t <> 0 /\ fftw_size st t <> N).
    { intros t Ht. destruct (cache_lens_slot st l t Hc Ht) as [T0 Tin].
      split; [exact T0|]. intros E. apply Hnin. now rewrite <- E. }
    destruct (Z.ltb_spec (Z.of_nat (length l)) 32) as [L|L].
    + replace (Z.to_nat 32) with (length l + S (31 - length l))%nat by lia.
      rewrite get_fftw_plan_from_skip by (intros t Ht; apply Hother; lia).
      rewrite get_fftw_plan_from_empty by (apply He; lia).
      cbn [fst snd fft_stderr]. split; [|split; [now split|discriminate]].
      unfold cache_lens, MAX_FFTW_PLAN.
      split; [rewrite length_app; cbn [length]; lia|].
      split.
      { apply NoDup_app; [exact Hnd|repeat constructor; intros []|].
        intros x Hx [<-|[]]. contradiction. }
      split.
      { intros Hin. apply in_app_or in Hin. destruct Hin as [Hin|[E|[]]];
          [contradiction|congruence]. }
      rewrite length_app. cbn [length fftw_size]. unfold upd. split.
      * intros i Hi. destruct (Z.eqb_spec i (0 + Z.of_nat (length l))) as [E|E].
        -- rewrite app_nth2 by lia.
           replace (Z.to_nat i - length l)%nat with 0%nat by lia. reflexivity.
        -- rewrite app_nth1 by lia. apply Hs. lia.
      * intros i Hi. destruct (Z.eqb_spec i (0 + Z.of_nat (length l))) as [E|E];
          [lia|]. apply He. lia.
    + rewrite get_fftw_plan_from_none
        by (intros j Hj; apply Hother; simpl in Hj; lia).
      cbn [fst snd fft_stderr]. split; [exact Hc|]. split; [discriminate|].
      now split.
Qed.

(** X11.  A request for the length 0 is served while a slot of the cache
    is empty, and occupies none: the recorded lengths are unchanged, so
    plans are made anew at each such request.  When the cache is full the
    request is refused with a line on [stderr]. *)
Theorem get_fftw_plan_zero (st : fft_state) (l : list Z) :
  cache_lens st l ->
  let r := get_fftw_plan 0 st in
  cache_lens (snd r) l /\
  (Z.of_nat (length l) < MAX_FFTW_PLAN ->
   fst r = Some (plans_of 0) /\ fft_stderr (snd r) = fft_stderr st) /\
  (Z.of_nat (length l) = MAX_FFTW_PLAN ->
   fst r = None /\ fft_stderr (snd r) = fft_stderr st ++ [0]).
Proof.
  intros Hc. pose proof Hc as (Hlen & Hnd & H0 & Hs & He).
  unfold MAX_FFTW_PLAN in *. cbv zeta.
  assert (Hother : forall t, 0 <= t < Z.of_nat (length l) ->
            fftw_size st t <> 0 /\ fftw_size st t <> 0).
  { intros t Ht. destruct (cache_lens_slot st l t Hc Ht) as [T0 _].
    split; exact T0. }
  unfold get_fftw_plan, MAX_FFTW_PLAN.
  destruct (Z_lt_dec (Z.of_nat (length l)) 32) as [L|L].
  - replace (Z.to_nat 32) with (length l + S (31 - length l))%nat by lia.
    rewrite get_fftw_plan_from_skip by (intros t Ht; apply Hother; lia).
    rewrite get_fftw_plan_from_empty by (apply He; lia).
    cbn [fst snd fft_stderr]. split; [|split; [intros _; split; reflexivity|lia]].
    unfold cache_lens, MAX_FFTW_PLAN. split; [exact Hlen|].
    split; [exact Hnd|]. split; [exact H0|].
    cbn [fftw_size]. unfold upd. split.
    + intros i Hi. destruct (Z.eqb_spec i (0 + Z.of_nat (length l))); [lia|].
      now apply Hs.
    + intros i Hi. destruct (Z.eqb_spec i (0 + Z.of_nat (length l)));
        [reflexivity|]. now apply He.
  - rewrite get_fftw_plan_from_none
      by (intros j Hj; apply Hother; simpl in Hj; lia).
    cbn [fst snd fft_stderr]. split; [exact Hc|]. split; [lia|].
    intros _. split; reflexivity.
Qed.

(** ** [sdr_cpx_abs] and [sdr_cpx_mul] *)

Lemma SFmul_comm prec emax x y : SFmul prec emax x y = SFmul prec emax y x.
Proof.
  destruct x as [sx|sx| |sx mx ex], y as [sy|sy| |sy my ey]; cbn [SFmul];
    rewrite ?(xorb_comm sy sx); try reflexivity.
  now rewrite (Pos.mul_comm my mx), (Z.add_comm ey ex).
Qed.


Lemma shr_1_nonneg mrs : 0 <= shr_m mrs -> 0 <= shr_m (shr_1 mrs).
Proof.
  destruct mrs as [m r s]. cbn [shr_m]. intros H.
  destruct m as [|p|p]; [simpl; lia| |lia].
  destruct p; simpl; lia.
Qed.

Lemma shr_nonneg mrs e n : 0 <= shr_m mrs -> 0 <= shr_m (fst (shr mrs e n)).
Proof.
  intros H. unfold shr. destruct n as [|p|p]; cbn [fst]; try exact H.
  rewrite iter_pos_iter. apply Pos.iter_invariant; [|exact H].
  intros x Hx. now apply shr_1_nonneg.
Qed.

Lemma shr_fexp_nonneg prec emax m e l :
  0 <= m -> 0 <= shr_m (fst (shr_fexp prec emax m e l)).
Proof.
  intros H. unfold shr_fexp. apply shr_nonneg.
  destruct l as [|[ | | ]]; exact H.
Qed.

Lemma round_nearest_even_nonneg m l : 0 <= m -> 0 <= round_nearest_even m l.
Proof.
  intros H. unfold round_nearest_even.
  destruct l as [|[ | | ]]; try lia. destruct (Z.even m); lia.
Qed.

(** Rounding a mantissa that is not negative gives no NaN, and the sign
    asked for. *)
Lemma binary_round_aux_plus prec emax m e l :
  0 <= m -> is_plus (binary_round_aux prec emax false m e l) = true.
Proof.
  intros H. unfold binary_round_aux.
  pose proof (shr_fexp_nonneg prec emax m e l H) as H1.
  destruct (shr_fexp prec emax m e l) as [mrs' e']. cbn [fst] in H1.
  pose proof (shr_fexp_nonneg prec emax _ e' loc_Exact
                (round_nearest_even_nonneg _ (loc_of_shr_record mrs') H1))
    as H2.
  destruct (shr_fexp prec emax _ e' loc_Exact) as [mrs'' e''].
  cbn [fst] in H2.
  destruct (shr_m mrs''); [reflexivity| |lia].
  destruct (e'' <=? emax - prec); reflexivity.
Qed.

Lemma binary_round_plus prec emax m e :
  is_plus (binary_round prec emax false m e) = true.
Proof.
  unfold binary_round. destruct (shl_align m e _) as [mz ez].
  apply binary_round_aux_plus. lia.
Qed.

(** A square is a NaN only when its argument is one, and has the sign bit
    clear otherwise. *)
Lemma SQR_nan x : is_nan (SQR x) = is_nan x.
Proof.
  unfold SQR, F32.mul. destruct x as [s|s| |s m e]; cbn [SFmul is_nan];
    try reflexivity.
  rewrite xorb_nilpotent.
  pose proof (binary_round_aux_plus F32.prec F32.emax (Z.pos (m * m)) (e + e)
                loc_Exact ltac:(lia)) as H.
  destruct (binary_round_aux _ _ _ _ _ _); try reflexivity; discriminate.
Qed.

Lemma SQR_plus x : is_nan x = false -> is_plus (SQR x) = true.
Proof.
  unfold SQR, F32.mul. destruct x as [s|s| |s m e]; cbn [SFmul is_nan is_plus];
    rewrite ?xorb_nilpotent; try reflexivity; try discriminate.
  intros _. apply binary_round_aux_plus. lia.
Qed.

Lemma F32_add_plus x y :
  is_plus x = true -> is_plus y = true -> is_plus (F32.add x y) = true.
Proof.
  unfold F32.add.
  destruct x as [sx|sx| |sx mx ex], y as [sy|sy| |sy my ey];
    cbn [is_plus]; intros Hx Hy; try discriminate;
    apply negb_true_iff in Hx, Hy; subst; cbn [SFadd is_plus];
    try reflexivity.
  cbn [cond_Zopp Z.add binary_normalize]. apply binary_round_plus.
Qed.

Lemma F32_add_nan_r x : F32.add x S754_nan = S754_nan.
Proof. destruct x; reflexivity. Qed.

Lemma F32_sqrt_plus x : is_plus x = true -> is_plus (F32_sqrt x) = true.
Proof.
  unfold F32_sqrt. destruct x as [s|s| |s m e]; cbn [is_plus]; intros Hx;
    try discriminate; apply negb_true_iff in Hx; subst; cbn [SFsqrt is_plus];
    try reflexivity.
  unfold SFsqrt_core_binary.
  set (m' := match _ - 2 * _ with 0 => Z.pos m | Z.pos _ => _ | Z.neg _ => 0 end).
  assert (Hm : 0 <= m').
  { unfold m'. destruct (_ - 2 * _); [lia| |lia].
    apply Z.shiftl_nonneg. lia. }
  pose proof (Z.sqrtrem_spec m' Hm) as Hs.
  change IntDef.Z.sqrtrem with Z.sqrtrem.
  destruct (Z.sqrtrem m') as [q r].
  apply binary_round_aux_plus. lia.
Qed.

Lemma is_plus_not_nan x : is_plus x = true -> is_nan x = false.
Proof. destruct x; try reflexivity; discriminate. Qed.

Lemma is_plus_ltb x : is_plus x = true -> F32.ltb x F32.zero = false.
Proof.
  destruct x as [s|s| |s m e]; cbn [is_plus]; intros H; try discriminate;
    apply negb_true_iff in H; subst; reflexivity.
Qed.

Lemma nan_or_plus_ltb x : nan_or_plus x = true -> F32.ltb x F32.zero = false.
Proof.
  unfold nan_or_plus. destruct (is_nan x) eqn:E.
  - destruct x; try discriminate. reflexivity.
  - apply is_plus_ltb.
Qed.

Lemma nan_or_plus_add x y :
  nan_or_plus x = true -> nan_or_plus y = true ->
  nan_or_plus (F32.add x y) = true.
Proof.
  unfold nan_or_plus. intros Hx Hy.
  destruct (is_nan x) eqn:Ex.
  { destruct x; try discriminate. reflexivity. }
  destruct (is_nan y) eqn:Ey.
  { destruct y; try discriminate. rewrite F32_add_nan_r. reflexivity. }
  cbn [orb] in Hx, Hy. rewrite (F32_add_plus x y Hx Hy). apply orb_true_r.
Qed.

(** A sum with a power is not below zero when the first term is not. *)
Lemma not_below_zero_add x y :
  F32.ltb x F32.zero = false -> nan_or_plus y = true ->
  F32.ltb (F32.add x y) F32.zero = false.
Proof.
  intros Hx Hy.
  destruct x as [[|]|[|]| |[|] m e]; try discriminate Hx;
    try (apply nan_or_plus_ltb, nan_or_plus_add; [reflexivity|exact Hy]).
  unfold F32.add. destruct y as [[|]|[|]| |[|] my ey]; try discriminate Hy;
    reflexivity.
Qed.

(** X13.  [sdr_cpx_abs] returns a NaN exactly when a component of its
    argument is a NaN; otherwise it returns a number with the sign bit
    clear ([+0.0], a positive number or [+inf], never [-0.0]).  In every
    case the result does not compare below zero. *)
Theorem sdr_cpx_abs_sign (cpx : sdr_cpx_t) :
  is_nan (sdr_cpx_abs cpx) = is_nan (fst cpx) || is_nan (snd cpx) /\
  (is_nan (fst cpx) = false -> is_nan (snd cpx) = false ->
   is_plus (sdr_cpx_abs cpx) = true) /\
  F32.ltb (sdr_cpx_abs cpx) F32.zero = false.
Proof.
  assert (Hp : is_nan (fst cpx) = false -> is_nan (snd cpx) = false ->
               is_plus (sdr_cpx_abs cpx) = true).
  { intros H1 H2. unfold sdr_cpx_abs.
    apply F32_sqrt_plus, F32_add_plus; now apply SQR_plus. }
  assert (Hn : is_nan (sdr_cpx_abs cpx) = is_nan (fst cpx) || is_nan (snd cpx)).
  { destruct (is_nan (fst cpx)) eqn:E1.
    - unfold sdr_cpx_abs. destruct (fst cpx); try discriminate. reflexivity.
    - destruct (is_nan (snd cpx)) eqn:E2.
      + unfold sdr_cpx_abs. destruct (snd cpx); try discriminate.
        change (SQR S754_nan) with S754_nan. rewrite F32_add_nan_r.
        reflexivity.
      + cbn [orb]. apply is_plus_not_nan, Hp; reflexivity. }
  split; [exact Hn|]. split; [exact Hp|].
  apply nan_or_plus_ltb. unfold nan_or_plus. rewrite Hn.
  destruct (is_nan (fst cpx)) eqn:E1; [reflexivity|].
  destruct (is_nan (snd cpx)) eqn:E2; [reflexivity|].
  cbn [orb]. apply Hp; reflexivity.
Qed.






(** ** [sdr_search_code] *)

(** A power is a NaN or has the sign bit clear. *)
Lemma cpx_power_plus c : nan_or_plus (cpx_power c) = true.
Proof.
  unfold cpx_power. apply nan_or_plus_add; unfold nan_or_plus;
    (destruct (is_nan (SQR _)) eqn:E; [reflexivity|]);
    rewrite SQR_nan in E; cbn [orb]; apply SQR_plus, E.
Qed.

Section SearchProofs.
Variable dft : Z -> list sdr_cpx_t -> Z -> sdr_cpx_t.

(** The correlator served with the plans of its length. *)
Lemma corr_fft_cells cpx0 IQ code_fft N corr st st' :
  get_fftw_plan N st = (Some (plans_of N), st') ->
  (forall k, fst (corr_fft dft cpx0 IQ code_fft N corr st) k =
     if (0 <=? k) && (k <? N) then fft_corr dft IQ code_fft N k else corr k) /\
  snd (corr_fft dft cpx0 IQ code_fft N corr st) = st'.
Proof.
  intros Hget. unfold corr_fft. rewrite Hget. cbn [fst snd plans_of].
  split; [|reflexivity].
  intros k. unfold fftwf_execute_dft. cbn [plan_n plan_sign].
  destruct ((0 <=? k) && (k <? N)); [|reflexivity].
  unfold fft_corr. f_equal. apply map_rangeZ_ext. intros j Hj.
  unfold sdr_cpx_mul.
  rewrite (for_loop_upd 0 N
    (fun i => cpx_mul_scaled
       ((if (0 <=? N + i - N) && (N + i - N <? N)
         then dft FFTW_FORWARD
                (map (for_loop 0 N
                        (fun i0 cpx => upd cpx i0 (fft_samples IQ i0)) cpx0)
                   (rangeZ 0 N)) (N + i - N)
         else for_loop 0 N
                (fun i0 cpx => upd cpx i0 (fft_samples IQ i0)) cpx0
                (N + (N + i - N))))
       (code_fft i)
       (F32.div (F32.div F32.one (F32.of_int N)) (F32.of_int N)))).
  replace ((0 <=? j) && (j <? N)) with true
    by (symmetry; apply andb_true_iff; lia).
  replace (N + j - N) with j by lia.
  replace ((0 <=? j) && (j <? N)) with true
    by (symmetry; apply andb_true_iff; lia).
  unfold fft_product. f_equal. f_equal.
  apply map_rangeZ_ext. intros i Hi.
  rewrite (for_loop_upd 0 N (fft_samples IQ)).
  replace ((0 <=? i) && (i <? N)) with true
    by (symmetry; apply andb_true_iff; lia).
  reflexivity.
Qed.

Lemma add_power_cells C N i P x :
  add_power C N i P x =
  if (i * N <=? x) && (x <? i * N + N)
  then F32.add (P x) (cpx_power (C (x - i * N))) else P x.
Proof.
  unfold add_power.
  assert (G : (fun k P' => forall x, P' x =
                 if (i * N <=? x) && (x <? i * N + k)
                 then F32.add (P x) (cpx_power (C (x - i * N))) else P x)
              (Z.max 0 N)
              (for_loop 0 N
                 (fun j P =>
                    upd P (i * N + j)
                      (F32.add (P (i * N + j))
                         (F32.add (SQR (fst (C j))) (SQR (snd (C j))))))
                 P)).
  { apply for_loop_ind.
    - intros y. destruct (i * N <=? y) eqn:E1, (y <? i * N + 0) eqn:E2;
        cbn [andb]; try reflexivity; lia.
    - intros k P' Hk HP y. unfold upd.
      destruct (Z.eqb_spec y (i * N + k)) as [->|Hy].
      + rewrite HP.
        replace ((i * N <=? i * N + k) && (i * N + k <? i * N + k)) with false
          by (symmetry; apply andb_false_iff; right; apply Z.ltb_ge; lia).
        replace ((i * N <=? i * N + k) && (i * N + k <? i * N + (k + 1)))
          with true by (symmetry; apply andb_true_iff; lia).
        replace (i * N + k - i * N) with k by lia. reflexivity.
      + rewrite HP.
        destruct (i * N <=? y) eqn:E1; cbn [andb]; [|reflexivity].
        destruct (y <? i * N + k) eqn:E2, (y <? i * N + (k + 1)) eqn:E3;
          try reflexivity; lia. }
  cbv beta in G. rewrite G.
  destruct (i * N <=? x) eqn:E1; cbn [andb]; [|reflexivity].
  destruct (x <? i * N + Z.max 0 N) eqn:E2, (x <? i * N + N) eqn:E3;
    try reflexivity; lia.
Qed.

Variable tbl : Z -> sdr_cpx16_t.
Variable AVX2 : bool.
Variable IQ0 : Z -> Z -> sdr_cpx16_t.
Variable cpx0 : Z -> Z -> sdr_cpx_t.

(** A property of the cells of [P] that adding a power keeps is kept by
    [sdr_search_code]. *)
Lemma sdr_search_code_keeps (Q : float -> Prop) C0 code_fft T buff ix N fs fi
    fds len_fds P st :
  (forall p c, Q p -> Q (F32.add p (cpx_power c))) ->
  (forall x, Q (P x)) ->
  forall x,
    Q (fst (sdr_search_code dft tbl AVX2 IQ0 cpx0 C0 code_fft T buff ix N
              fs fi fds len_fds P st) x).
Proof.
  intros HQ HP. unfold sdr_search_code. cbn [fst].
  assert (G : (fun (_ : Z) s => forall x, Q (fst (fst s) x))
              (Z.max 0 len_fds)
              (for_loop 0 len_fds
                 (search_code_body dft tbl AVX2 IQ0 cpx0 code_fft buff ix N fs
                    fi fds) (P, C0, st))).
  { apply (for_loop_ind (fun (_ : Z) s => forall x, Q (fst (fst s) x)));
      [exact HP|].
    intros i [[P' C'] st'] Hi H x. unfold search_code_body.
    destruct (sdr_corr_fft _ _ _ _ _ _ _ _ _ _ _ _ _ _) as [C1 st1].
    cbn [fst snd] in *. rewrite add_power_cells.
    destruct ((i * N <=? x) && (x <? i * N + N)); [|apply H].
    apply HQ, H. }
  exact G.
Qed.

(** X14.  [sdr_search_code] never makes a power negative, whether or not
    the FFT plans could be obtained: if no cell of the grid [P] compares
    below zero before the call, none does after it; and if every cell is
    a NaN or has the sign bit clear before the call, so it is after it. *)
Theorem sdr_search_code_sign C0 code_fft T buff ix N fs fi fds len_fds P st :
  let r := sdr_search_code dft tbl AVX2 IQ0 cpx0 C0 code_fft T buff ix N
             fs fi fds len_fds P st in
  ((forall x, F32.ltb (P x) F32.zero = false) ->
   forall x, F32.ltb (fst r x) F32.zero = false) /\
  ((forall x, nan_or_plus (P x) = true) ->
   forall x, nan_or_plus (fst r x) = true).
Proof.
  intros r. unfold r. split; intros HP.
  - apply (sdr_search_code_keeps (fun p => F32.ltb p F32.zero = false));
      [|exact HP].
    intros p c Hp. apply not_below_zero_add; [exact Hp|apply cpx_power_plus].
  - apply (sdr_search_code_keeps (fun p => nan_or_plus p = true));
      [|exact HP].
    intros p c Hp. apply nan_or_plus_add; [exact Hp|apply cpx_power_plus].
Qed.

Lemma search_code_body_inv code_fft buff ix N fs fi fds P st1 i s :
  0 < N -> 0 <= i ->
  search_inv dft tbl AVX2 IQ0 code_fft buff ix N fs fi fds P st1 i s ->
  search_inv dft tbl AVX2 IQ0 code_fft buff ix N fs fi fds P st1 (i + 1)
    (search_code_body dft tbl AVX2 IQ0 cpx0 code_fft buff ix N fs fi fds i s).
Proof.
  intros HN Hi (Hg & Hst & HP). destruct s as [[P' C'] st'].
  cbn [fst snd] in Hg, Hst, HP.
  unfold search_code_body, sdr_corr_fft.
  destruct (corr_fft_cells (cpx0 i)
              (sdr_mix_carr tbl AVX2 buff ix N fs
                 (F64.add fi (double_of_float (fds i))) F64.zero (IQ0 i))
              code_fft N C' st' st1 Hg) as [Hc Hs].
  destruct (corr_fft dft _ _ _ _ _ _) as [C1 st2]. cbn [fst snd] in Hc, Hs.
  subst st2. unfold search_inv. cbn [fst snd]. split; [|split; [reflexivity|]].
  - apply (get_fftw_plan_stable N st' st1 (plans_of N)); [lia|exact Hg].
  - intros x. rewrite add_power_cells, HP.
    assert (H1 : 0 <= i * N) by (apply Z.mul_nonneg_nonneg; lia).
    destruct (Z.leb_spec (i * N) x) as [L1|L1]; cbn [andb].
    + destruct (Z.ltb_spec x (i * N + N)) as [L2|L2].
      * replace ((0 <=? x) && (x <? i * N)) with false
          by (symmetry; apply andb_false_iff; right; apply Z.ltb_ge; lia).
        replace ((0 <=? x) && (x <? (i + 1) * N)) with true
          by (symmetry; apply andb_true_iff; split;
              [apply Z.leb_le|apply Z.ltb_lt]; lia).
        unfold search_cell. rewrite Hc.
        replace ((0 <=? x - i * N) && (x - i * N <? N)) with true
          by (symmetry; apply andb_true_iff; lia).
        assert (Ed : x / N = i)
          by (symmetry; apply (Z.div_unique x N i (x - i * N)); lia).
        assert (Em : x mod N = x - i * N)
          by (symmetry; apply (Z.mod_unique x N i (x - i * N)); lia).
        rewrite Ed, Em. reflexivity.
      * replace ((0 <=? x) && (x <? i * N)) with false
          by (symmetry; apply andb_false_iff; right; apply Z.ltb_ge; lia).
        replace ((0 <=? x) && (x <? (i + 1) * N)) with false
          by (symmetry; apply andb_false_iff; right; apply Z.ltb_ge; lia).
        reflexivity.
    + destruct (0 <=? x) eqn:E0; cbn [andb]; [|reflexivity].
      replace (x <? i * N) with true by (symmetry; apply Z.ltb_lt; lia).
      replace (x <? (i + 1) * N) with true by (symmetry; apply Z.ltb_lt; lia).
      reflexivity.
Qed.

Lemma search_code_loop_inv code_fft buff ix N fs fi fds len_fds P C0 st st1 :
  0 < N ->
  get_fftw_plan N st = (Some (plans_of N), st1) ->
  search_inv dft tbl AVX2 IQ0 code_fft buff ix N fs fi fds P st1 (Z.max 0 len_fds)
    (for_loop 0 len_fds
       (search_code_body dft tbl AVX2 IQ0 cpx0 code_fft buff ix N fs fi fds)
       (P, C0, st)).
Proof.
  intros HN Hget.
  apply (for_loop_ind (search_inv dft tbl AVX2 IQ0 code_fft buff ix N fs fi fds P st1)).
  - unfold search_inv. cbn [fst snd]. split; [exact Hget|]. split; [lia|].
    intros x. destruct (0 <=? x) eqn:E1, (x <? 0 * N) eqn:E2; cbn [andb];
      try reflexivity; lia.
  - intros i s Hi H. apply search_code_body_inv; [exact HN|lia|exact H].
Qed.

(** X15.  When the plan cache serves the length [N], [sdr_search_code]
    adds to the cell [P[i*N+j]], for each Doppler bin [i < len_fds] and
    code offset [j < N], the power [re^2 + im^2] of the cell [j] of the FFT
    correlation of the samples mixed with the carrier [fi + fds[i]] at
    phase 0; it writes no other cell of [P], and leaves the cache as the
    first request left it. *)
Theorem sdr_search_code_power C0 code_fft T buff ix N fs fi fds len_fds P
    st st1 :
  0 < N ->
  get_fftw_plan N st = (Some (plans_of N), st1) ->
  let r := sdr_search_code dft tbl AVX2 IQ0 cpx0 C0 code_fft T buff ix N fs fi
             fds len_fds P st in
  (forall i j, 0 <= i < len_fds -> 0 <= j < N ->
     fst r (i * N + j) =
     F32.add (P (i * N + j))
       (cpx_power
          (fft_corr dft
             (sdr_mix_carr tbl AVX2 buff ix N fs
                (F64.add fi (double_of_float (fds i))) F64.zero (IQ0 i))
             code_fft N j))) /\
  (forall x, ~ 0 <= x < len_fds * N -> fst r x = P x) /\
  (0 < len_fds -> snd r = st1).
Proof.
  intros HN Hget r.
  destruct (search_code_loop_inv code_fft buff ix N fs fi fds len_fds P C0 st
              st1 HN Hget) as (_ & Gst & GP).
  unfold r, sdr_search_code. cbn [fst snd]. split; [|split].
  - intros i j Hi Hj. rewrite GP, Z.max_r by lia.
    assert (H1 : 0 <= i * N) by (apply Z.mul_nonneg_nonneg; lia).
    assert (H2 : (i + 1) * N <= len_fds * N)
      by (apply Z.mul_le_mono_nonneg_r; lia).
    replace ((0 <=? i * N + j) && (i * N + j <? len_fds * N)) with true
      by (symmetry; apply andb_true_iff; split;
          [apply Z.leb_le|apply Z.ltb_lt]; lia).
    unfold search_cell.
    assert (Ed : (i * N + j) / N = i)
      by (symmetry; apply (Z.div_unique (i * N + j) N i j); lia).
    assert (Em : (i * N + j) mod N = j)
      by (symmetry; apply (Z.mod_unique (i * N + j) N i j); lia).
    rewrite Ed, Em. reflexivity.
  - intros x Hx. rewrite GP.
    destruct (0 <=? x) eqn:E0; cbn [andb]; [|reflexivity].
    destruct (Z.ltb_spec x (Z.max 0 len_fds * N)) as [L|L]; [|reflexivity].
    exfalso. apply Hx. apply Z.leb_le in E0.
    destruct (Z.max_spec 0 len_fds) as [[? E]|[? E]]; rewrite E in L; lia.
  - intros Hl. apply Gst. lia.
Qed.
End SearchProofs.

(** ** Examples *)

Lemma cache_lens_init : cache_lens fft_state_init [].
Proof.
  unfold cache_lens, MAX_FFTW_PLAN. cbn [length]. split; [lia|].
  split; [apply NoDup_nil|]. split; [intros []|]. split.
  - intros i Hi. lia.
  - intros i Hi. reflexivity.
Qed.

Lemma get_fftw_plan_refines_witness :
  fst (get_fftw_plan 1024 fft_state_init) = Some (plans_of 1024).
Proof.
  refine (proj1 (proj1 (proj2 (get_fftw_plan_refines fft_state_init [] 1024
                                 cache_lens_init fft_state_init_wf _)) _)).
  - lia.
  - reflexivity.
Defined.

Lemma get_fftw_plan_keeps_witness :
  fft_cache_wf (snd (get_fftw_plan 8 fft_state_init)).
Proof.
  exact (proj2 (get_fftw_plan_keeps 8 fft_state_init) fft_state_init_wf).
Defined.

Lemma get_fftw_plan_again_witness :
  get_fftw_plan 8 (snd (get_fftw_plan 8 fft_state_init)) =
  get_fftw_plan 8 fft_state_init.
Proof.
  apply (get_fftw_plan_again 8 fft_state_init).
  - lia.
  - vm_compute. discriminate.
Defined.

Lemma get_fftw_plan_zero_witness :
  fst (get_fftw_plan 0 fft_state_init) = Some (plans_of 0).
Proof.
  refine (proj1 (proj1 (proj2 (get_fftw_plan_zero fft_state_init []
                                 cache_lens_init)) _)).
  vm_compute. reflexivity.
Defined.


Lemma sdr_search_code_sign_witness :
  F32.ltb
    (fst (sdr_search_code dft_first tbl_one false (fun _ _ => mk_cpx16 0 0)
            (fun _ => cpx_zero) cpx_zero cpx_zero F64.zero wrap_buff 0 2
            wrap_fs wrap_fc (fun _ => F32.zero) 1 (fun _ => F32.zero)
            fft_state_init) 1) F32.zero = false.
Proof.
  apply (proj1 (sdr_search_code_sign dft_first tbl_one false
                  (fun _ _ => mk_cpx16 0 0) (fun _ => cpx_zero) cpx_zero
                  cpx_zero F64.zero wrap_buff 0 2 wrap_fs wrap_fc
                  (fun _ => F32.zero) 1 (fun _ => F32.zero) fft_state_init)).
  intros x. reflexivity.
Defined.

Lemma sdr_cpx_abs_sign_witness :
  is_plus (sdr_cpx_abs (F32.of_int 3, F32.of_int 4)) = true.
Proof.
  apply (proj1 (proj2 (sdr_cpx_abs_sign (F32.of_int 3, F32.of_int 4))));
    reflexivity.
Defined.

Lemma sdr_search_code_power_witness :
  snd (sdr_search_code dft_first tbl_one false (fun _ _ => mk_cpx16 0 0)
         (fun _ => cpx_zero) cpx_zero cpx_zero F64.zero wrap_buff 0 2
         wrap_fs wrap_fc (fun _ => F32.zero) 1 (fun _ => F32.zero)
         fft_state_init) = snd (get_fftw_plan 2 fft_state_init).
Proof.
  refine (proj2 (proj2 (sdr_search_code_power dft_first tbl_one false
            (fun _ _ => mk_cpx16 0 0) (fun _ => cpx_zero) cpx_zero cpx_zero
            F64.zero wrap_buff 0 2 wrap_fs wrap_fc (fun _ => F32.zero) 1
            (fun _ => F32.zero) fft_state_init
            (snd (get_fftw_plan 2 fft_state_init)) _ _)) _).
  - lia.
  - vm_compute. reflexivity.
  - lia.
Defined.

(** ** The entries of the LUT *)

Lemma mix_tbl_cell_bound W b p :
  8 <= W -> 0 <= b < 256 -> 0 <= p < 256 ->
  Z.abs (cpx16_I (mix_tbl W (Z.shiftl b 8 + p))) <= 120 /\
  Z.abs (cpx16_Q (mix_tbl W (Z.shiftl b 8 + p))) <= 120.
Proof.
  intros HW Hb Hp. rewrite mix_tbl_entry by assumption. cbn [cpx16_I cpx16_Q].
  pose proof (SDR_CPX8_I_range b) as HI. pose proof (SDR_CPX8_Q_range b) as HQ.
  pose proof (carr_tbl_sum p Hp) as Hs.
  set (sI := SDR_CPX8_I b) in *. set (sQ := SDR_CPX8_Q b) in *.
  set (cI := carr_tbl_I p) in *. set (cQ := carr_tbl_Q p) in *.
  assert (A1 : Z.abs (sI * cI) <= 8 * Z.abs cI)
    by (rewrite Z.abs_mul; apply Z.mul_le_mono_nonneg_r; lia).
  assert (A2 : Z.abs (sQ * cQ) <= 8 * Z.abs cQ)
    by (rewrite Z.abs_mul; apply Z.mul_le_mono_nonneg_r; lia).
  assert (A3 : Z.abs (sI * cQ) <= 8 * Z.abs cQ)
    by (rewrite Z.abs_mul; apply Z.mul_le_mono_nonneg_r; lia).
  assert (A4 : Z.abs (sQ * cI) <= 8 * Z.abs cI)
    by (rewrite Z.abs_mul; apply Z.mul_le_mono_nonneg_r; lia).
  lia.
Qed.

Lemma shl8_mul b : Z.shiftl b 8 = b * 256.
Proof. now rewrite Z.shiftl_mul_pow2 by lia. Qed.

Lemma sdr_func_init_frame W tbl k :
  ~ 0 <= k < 65536 -> sdr_func_init W tbl k = tbl k.
Proof.
  intros Hk. unfold sdr_func_init, NTBL.
  apply (for_loop_ind (fun (_ : Z) t => t k = tbl k)); [reflexivity|].
  intros i t Hi Ht.
  apply (for_loop_ind (fun (_ : Z) t => t k = tbl k)); [exact Ht|].
  intros j t' Hj Ht'. unfold sdr_func_init_body, upd.
  rewrite shl8_mul. destruct (Z.eqb_spec k (j * 256 + i)); [lia|exact Ht'].
Qed.


Lemma sdr_func_init_cells W tbl k :
  0 <= k < 65536 ->
  sdr_func_init W tbl k = mix_entry W (k / 256) (k mod 256).
Proof.
  intros Hk.
  pose proof (Z.div_mod k 256 ltac:(lia)) as Hdm.
  pose proof (Z.mod_pos_bound k 256 ltac:(lia)) as Hm.
  assert (Hq : 0 <= k / 256 < 256)
    by (split; [apply Z.div_pos; lia|apply Z.div_lt_upper_bound; lia]).
  rewrite <- (sdr_func_init_spec W tbl (k / 256) (k mod 256)) by assumption.
  f_equal. rewrite shl8_mul. lia.
Qed.

(** X7.  [sdr_func_init] overwrites each of the [NTBL * 256] entries of
    the LUT with a value that does not depend on what the table held, and
    writes nothing else; calling it again changes nothing. *)
Theorem sdr_func_init_overwrites (W : Z) (tbl tbl' : Z -> sdr_cpx16_t) :
  (forall k, 0 <= k < 65536 ->
     sdr_func_init W tbl k = mix_entry W (k / 256) (k mod 256) /\
     sdr_func_init W tbl k = sdr_func_init W tbl' k) /\
  (forall k, ~ 0 <= k < 65536 -> sdr_func_init W tbl k = tbl k) /\
  (forall k, sdr_func_init W (sdr_func_init W tbl) k = sdr_func_init W tbl k).
Proof.
  split; [|split].
  - intros k Hk. split; [apply sdr_func_init_cells, Hk|].
    rewrite !sdr_func_init_cells by exact Hk. reflexivity.
  - apply sdr_func_init_frame.
  - intros k. destruct (Z_le_dec 0 k) as [L|L]; [destruct (Z_lt_dec k 65536)|].
    + rewrite !sdr_func_init_cells by lia. reflexivity.
    + rewrite !sdr_func_init_frame by lia. reflexivity.
    + rewrite !sdr_func_init_frame by lia. reflexivity.
Qed.

Lemma mix_tbl_abs W k :
  8 <= W ->
  Z.abs (cpx16_I (mix_tbl W k)) <= 120 /\ Z.abs (cpx16_Q (mix_tbl W k)) <= 120.
Proof.
  intros HW. destruct (Z_le_dec 0 k) as [L|L]; [destruct (Z_lt_dec k 65536)|].
  - pose proof (Z.div_mod k 256 ltac:(lia)) as Hdm.
    pose proof (Z.mod_pos_bound k 256 ltac:(lia)) as Hm.
    assert (Hq : 0 <= k / 256 < 256)
      by (split; [apply Z.div_pos; lia|apply Z.div_lt_upper_bound; lia]).
    replace k with (Z.shiftl (k / 256) 8 + k mod 256)
      by (rewrite shl8_mul; lia).
    now apply mix_tbl_cell_bound.
  - unfold mix_tbl. rewrite sdr_func_init_frame by lia. simpl. lia.
  - unfold mix_tbl. rewrite sdr_func_init_frame by lia. simpl. lia.
Qed.

(** X16.  With fields of 8 bits or more, every entry that [sdr_func_init]
    writes has [I] and [Q] of magnitude at most 120, whatever the table
    held before: the products of the samples and the carrier stay within
    the 127 that the comment on [CSCALE] asks for. *)
Theorem sdr_func_init_bounded (W : Z) (tbl : Z -> sdr_cpx16_t) (k : Z) :
  8 <= W -> 0 <= k < 65536 ->
  Z.abs (cpx16_I (sdr_func_init W tbl k)) <= 120 /\
  Z.abs (cpx16_Q (sdr_func_init W tbl k)) <= 120.
Proof.
  intros HW Hk. rewrite sdr_func_init_cells by exact Hk.
  rewrite <- (sdr_func_init_cells W (fun _ => mk_cpx16 0 0) k Hk).
  exact (mix_tbl_abs W k HW).
Qed.

(** ** The ring buffer of [sdr_mix_carr] *)

Section RingProofs.
Variable tbl : Z -> sdr_cpx16_t.
Variable AVX2 : bool.

Lemma mix_cell_index_range buff ix fs fc phi k :
  0 <= mix_cell_index buff ix fs fc phi k < 65536.
Proof.
  unfold mix_cell_index. cbv zeta. rewrite shl8_mul.
  pose proof (load_u8_range (buff_data buff) ((ix + k) mod buff_N buff)).
  destruct (ix + k <? buff_N buff).
  - pose proof (phase_index_range _ (u32_range
      (mix_phase (F64.mul (fmod1 phi) (F64.of_int NTBL)) +
       mix_phase (F64.mul (F64.div fc fs) (F64.of_int NTBL)) * k))). lia.
  - pose proof (phase_index_range _ (u32_range
      (mix_phase
         (F64.add (F64.mul (fmod1 phi) (F64.of_int NTBL))
            (F64.mul (F64.mul (F64.div fc fs) (F64.of_int NTBL))
               (F64.of_int (buff_N buff - ix)))) +
       mix_phase (F64.mul (F64.div fc fs) (F64.of_int NTBL)) *
       (k - (buff_N buff - ix))))). lia.
Qed.

Lemma sdr_mix_carr_cells buff ix N fs fc phi IQ k :
  0 <= ix <= buff_N buff -> N <= buff_N buff ->
  sdr_mix_carr tbl AVX2 buff ix N fs fc phi IQ k =
  if (0 <=? k) && (k <? N)
  then tbl (mix_cell_index buff ix fs fc phi k) else IQ k.
Proof.
  intros Hix HN. unfold mix_cell_index. cbv zeta.
  destruct (Z_le_gt_dec (ix + N) (buff_N buff)) as [Hc|Hw].
  - unfold sdr_mix_carr.
    replace (ix + N <=? buff_N buff) with true
      by (symmetry; apply Z.leb_le; lia).
    rewrite mix_carr_spec.
    destruct ((0 <=? k) && (k <? N)) eqn:E; [|reflexivity].
    apply andb_true_iff in E. destruct E as [E1 E2].
    apply Z.leb_le in E1. apply Z.ltb_lt in E2.
    replace (ix + k <? buff_N buff) with true
      by (symmetry; apply Z.ltb_lt; lia).
    unfold mix_ref, load_u8. rewrite (Z.mod_small (ix + k)) by lia.
    reflexivity.
  - rewrite sdr_mix_carr_wrapped by lia. cbv zeta.
    destruct (Z.leb_spec 0 k) as [E1|E1]; cbn [andb].
    2:{ replace (buff_N buff - ix <=? k) with false
          by (symmetry; apply Z.leb_gt; lia).
        reflexivity. }
    destruct (Z.ltb_spec k (buff_N buff - ix)) as [E2|E2].
    + replace (k <? N) with true by (symmetry; apply Z.ltb_lt; lia).
      replace (ix + k <? buff_N buff) with true
        by (symmetry; apply Z.ltb_lt; lia).
      unfold mix_ref, load_u8. rewrite (Z.mod_small (ix + k)) by lia.
      reflexivity.
    + replace (buff_N buff - ix <=? k) with true
        by (symmetry; apply Z.leb_le; lia).
      cbn [andb]. destruct (Z.ltb_spec k N) as [E3|E3]; [|reflexivity].
      replace (ix + k <? buff_N buff) with false
        by (symmetry; apply Z.ltb_ge; lia).
      unfold mix_ref, load_u8.
      replace ((ix + k) mod buff_N buff) with (0 + (k - (buff_N buff - ix))).
      * reflexivity.
      * apply (Z.mod_unique (ix + k) (buff_N buff) 1); lia.
Qed.

(** X17.  [sdr_mix_carr] reads the buffer as a ring: for a window that
    starts inside the buffer and is no longer than it, the cell [IQ[k]],
    [0 <= k < N], is the LUT entry of the sample at [(ix + k) mod N_buff]
    and of the phase accumulated over [k] samples, restarted from
    [phi + step * (N_buff - ix)] where the window wraps; the other cells
    of [IQ] are left as they were. *)
Theorem sdr_mix_carr_ring (buff : sdr_buff_t) (ix N : Z) (fs fc phi : double)
    (IQ : Z -> sdr_cpx16_t) :
  0 <= ix <= buff_N buff -> N <= buff_N buff ->
  (forall k, 0 <= k < N ->
     sdr_mix_carr tbl AVX2 buff ix N fs fc phi IQ k =
     tbl (mix_cell_index buff ix fs fc phi k)) /\
  (forall k, ~ 0 <= k < N ->
     sdr_mix_carr tbl AVX2 buff ix N fs fc phi IQ k = IQ k).
Proof.
  intros Hix HN. split; intros k Hk; rewrite sdr_mix_carr_cells by assumption.
  - replace ((0 <=? k) && (k <? N)) with true
      by (symmetry; apply andb_true_iff; lia).
    reflexivity.
  - destruct (0 <=? k) eqn:E1, (k <? N) eqn:E2; cbn [andb];
      try reflexivity; lia.
Qed.
End RingProofs.

(** ** [sdr_corr_std] *)

(** The standard correlator on bounded samples and a ternary code, in
    either build. *)
Lemma corr_std_cells_exact (AVX2 : bool) (IQ code : Z -> sdr_cpx16_t) (N B : Z)
    (pos : Z -> Z) (n : Z) (corr : Z -> sdr_cpx_t) (i : Z) :
  0 <= B <= 127 -> B * N < 2 ^ 24 ->
  (forall k, 0 <= k < N ->
     Z.abs (cpx16_I (IQ k)) <= B /\ Z.abs (cpx16_Q (IQ k)) <= B) ->
  (forall k, 0 <= k < N ->
     ternary (cpx16_I (code k)) /\ ternary (cpx16_Q (code k))) ->
  (forall j, 0 <= j < n -> Z.abs (pos j) < N) ->
  corr_std AVX2 IQ code N pos n corr i =
  if (0 <=? i) && (i <? n) then corr_tap_exact IQ code N (pos i) else corr i.
Proof.
  intros HB HN HIQ Hcode Hpos. unfold corr_std.
  rewrite (for_loop_ext 0 n _
    (fun i acc => upd acc i (corr_tap_exact IQ code N (pos i)))).
  - apply (for_loop_upd 0 n (fun i => corr_tap_exact IQ code N (pos i))).
  - intros k st Hk. specialize (Hpos k Hk).
    unfold corr_tap_exact, corr_overlap_exact.
    destruct (0 <? pos k) eqn:E1; [|destruct (pos k <? 0) eqn:E2].
    + apply Z.ltb_lt in E1. cbv zeta.
      rewrite (dot_IQ_code_exact (fun j => IQ (pos k + j)) code
                 (N - pos k) B); [reflexivity|lia|nia| | |lia].
      * intros j Hj. apply HIQ. lia.
      * intros j Hj. apply Hcode. lia.
    + apply Z.ltb_lt in E2. cbv zeta.
      rewrite (dot_IQ_code_exact IQ (fun j => code (- pos k + j))
                 (N + pos k) B); [reflexivity|lia|nia| | |lia].
      * intros j Hj. apply HIQ. lia.
      * intros j Hj. apply Hcode. lia.
    + apply Z.ltb_ge in E1, E2.
      rewrite (dot_IQ_code_exact IQ code N B);
        [reflexivity|lia|lia|exact HIQ|exact Hcode|lia].
Qed.

(** X18.  [sdr_corr_std] composes the mixer and the correlator without
    loss: with the LUT of [sdr_func_init], a window inside a buffer at
    least as long, at most [2^24 / 120] samples, a code of values -1, 0
    and 1 and offsets shorter than the window, the mixed samples are at
    most 120 in magnitude and every correlation is the exact integer sum
    over the overlap, scaled by [1 / M / CSCALE] for an overlap of [M]
    samples, in the portable and in the AVX2 build alike; the cells of
    [corr] outside [[0, n)] are not written. *)
Theorem sdr_corr_std_exact (W : Z) (AVX2 : bool) (IQ0 : Z -> sdr_cpx16_t)
    (buff : sdr_buff_t) (ix N : Z) (fs fc phi : double)
    (code : Z -> sdr_cpx16_t) (pos : Z -> Z) (n : Z)
    (corr : Z -> sdr_cpx_t) (i : Z) :
  8 <= W -> 0 <= ix <= buff_N buff -> N <= buff_N buff ->
  120 * N < 2 ^ 24 ->
  (forall k, 0 <= k < N ->
     ternary (cpx16_I (code k)) /\ ternary (cpx16_Q (code k))) ->
  (forall j, 0 <= j < n -> Z.abs (pos j) < N) ->
  (forall k, 0 <= k < N ->
     Z.abs (cpx16_I (sdr_mix_carr (mix_tbl W) AVX2 buff ix N fs fc phi IQ0 k))
       <= 120 /\
     Z.abs (cpx16_Q (sdr_mix_carr (mix_tbl W) AVX2 buff ix N fs fc phi IQ0 k))
       <= 120) /\
  sdr_corr_std (mix_tbl W) AVX2 IQ0 buff ix N fs fc phi code pos n corr i =
  if (0 <=? i) && (i <? n)
  then corr_tap_exact (sdr_mix_carr (mix_tbl W) AVX2 buff ix N fs fc phi IQ0)
         code N (pos i)
  else corr i.
Proof.
  intros HW Hix HN HB Hcode Hpos.
  assert (Hmix : forall k, 0 <= k < N ->
    Z.abs (cpx16_I (sdr_mix_carr (mix_tbl W) AVX2 buff ix N fs fc phi IQ0 k))
      <= 120 /\
    Z.abs (cpx16_Q (sdr_mix_carr (mix_tbl W) AVX2 buff ix N fs fc phi IQ0 k))
      <= 120).
  { intros k Hk. rewrite sdr_mix_carr_cells by assumption.
    replace ((0 <=? k) && (k <? N)) with true
      by (symmetry; apply andb_true_iff; lia).
    now apply mix_tbl_abs. }
  split; [exact Hmix|].
  unfold sdr_corr_std.
  apply (corr_std_cells_exact AVX2 _ code N 120); try assumption. lia.
Qed.


(** ** Examples *)

Lemma sdr_func_init_overwrites_witness :
  sdr_func_init 8 wrap_IQ 300 = sdr_func_init 8 tbl_one 300.
Proof.
  apply (proj1 (sdr_func_init_overwrites 8 wrap_IQ tbl_one) 300). lia.
Defined.

Lemma sdr_func_init_bounded_witness :
  Z.abs (cpx16_I (sdr_func_init 8 tbl_one 300)) <= 120.
Proof.
  apply (sdr_func_init_bounded 8 tbl_one 300); lia.
Defined.

Lemma sdr_mix_carr_ring_witness :
  sdr_mix_carr tbl_one false wrap_buff 2 3 wrap_fs wrap_fc wrap_phi wrap_IQ 2 =
  tbl_one (mix_cell_index wrap_buff 2 wrap_fs wrap_fc wrap_phi 2).
Proof.
  refine (proj1 (sdr_mix_carr_ring tbl_one false wrap_buff 2 3 wrap_fs wrap_fc
                   wrap_phi wrap_IQ _ _) 2 _).
  - simpl. lia.
  - simpl. lia.
  - lia.
Defined.

Lemma code_plus_ternary k :
  0 <= k < 3 ->
  ternary (cpx16_I (code_plus k)) /\ ternary (cpx16_Q (code_plus k)).
Proof.
  intros _. split; [right; right; reflexivity|left; reflexivity].
Qed.

Lemma sdr_corr_std_exact_witness :
  sdr_corr_std (mix_tbl 8) true wrap_IQ wrap_buff 2 3 wrap_fs wrap_fc wrap_phi
    code_plus (fun _ => 0) 1 cpx_zero 0 =
  corr_tap_exact
    (sdr_mix_carr (mix_tbl 8) true wrap_buff 2 3 wrap_fs wrap_fc wrap_phi
       wrap_IQ) code_plus 3 0.
Proof.
  refine (proj2 (sdr_corr_std_exact 8 true wrap_IQ wrap_buff 2 3 wrap_fs
                   wrap_fc wrap_phi code_plus (fun _ => 0) 1 cpx_zero 0
                   _ _ _ _ code_plus_ternary _)).
  - lia.
  - simpl. lia.
  - simpl. lia.
  - lia.
  - intros j Hj. simpl. lia.
Defined.

(** ** Integers in a binary format

    The lemmas on the integers in single precision, at any precision
    [prec] with [emax] beyond it, and for the product, the difference and
    the order. *)

Section ExactInt.
Variables prec emax : Z.
Hypothesis Hprec : 2 <= prec.
Hypothesis Hemax : prec < emax.

Lemma fexp_norm z : 3 - emax <= z -> fexp prec emax z = z - prec.
Proof. intros H. unfold fexp, emin. lia. Qed.

(** A mantissa of [prec] digits is kept as it is. *)
Lemma round_aux_canon s q e :
  Z.pos (digits2_pos q) = prec -> 3 - emax - prec <= e <= emax - prec ->
  binary_round_aux prec emax s (Z.pos q) e loc_Exact = S754_finite s q e.
Proof.
  intros Hd He. unfold binary_round_aux, shr_fexp.
  cbn [Zdigits2 shr_record_of_loc]. rewrite Hd, fexp_norm by lia.
  replace (prec + e - prec - e) with 0 by lia.
  cbn [shr shr_m loc_of_shr_record round_nearest_even Zdigits2
       shr_record_of_loc].
  rewrite Hd, fexp_norm by lia. replace (prec + e - prec - e) with 0 by lia.
  cbn [shr shr_m].
  replace (e <=? emax - prec) with true by (symmetry; apply Z.leb_le; lia).
  reflexivity.
Qed.

(** A longer mantissa whose low digits are zero is shortened exactly. *)
Lemma round_aux_long s q e m j :
  Z.pos (digits2_pos q) = prec -> 3 - emax - prec <= e <= emax - prec ->
  0 <= j -> Z.pos m = Z.pos q * 2 ^ j ->
  binary_round_aux prec emax s (Z.pos m) (e - j) loc_Exact = S754_finite s q e.
Proof.
  intros Hd He Hj Hm. destruct j as [|j|j]; [| |lia].
  - assert (m = q) by lia. subst m. replace (e - 0) with e by lia.
    now apply round_aux_canon.
  - assert (Em : m = Pos.iter xO q j).
    { apply Pos2Z.inj. now rewrite iter_xO_Z. }
    subst m. unfold binary_round_aux, shr_fexp.
    cbn [Zdigits2 shr_record_of_loc].
    rewrite digits2_iter_xO, Hd, fexp_norm by lia.
    replace (prec + Z.pos j + (e - Z.pos j) - prec - (e - Z.pos j))
      with (Z.pos j) by lia.
    cbn [shr]. rewrite shr_exact.
    cbn [shr_m loc_of_shr_record round_nearest_even Zdigits2
         shr_record_of_loc].
    rewrite Hd, fexp_norm by lia.
    replace (prec + (e - Z.pos j + Z.pos j) - prec - (e - Z.pos j + Z.pos j))
      with 0 by lia.
    cbn [shr shr_m].
    replace (e - Z.pos j + Z.pos j <=? emax - prec) with true
      by (symmetry; apply Z.leb_le; lia).
    f_equal. lia.
Qed.

(** Rounding a number that is a mantissa [q] of [prec] digits at the
    exponent [e], given with a longer or with a shorter mantissa. *)
Lemma round_canon s q e m x :
  Z.pos (digits2_pos q) = prec -> 3 - emax - prec <= e <= emax - prec ->
  (exists j, 0 <= j /\ Z.pos m = Z.pos q * 2 ^ j /\ x = e - j) \/
  (exists j, 0 <= j /\ Z.pos q = Z.pos m * 2 ^ j /\ x = e + j) ->
  binary_round prec emax s m x = S754_finite s q e.
Proof.
  intros Hd He H. unfold binary_round.
  destruct H as [(j & Hj & Hm & ->)|(j & Hj & Hq & ->)].
  - assert (Hdm : Z.pos (digits2_pos m) = prec + j).
    { destruct j as [|j|j]; [| |lia].
      - assert (m = q) by lia. subst m. lia.
      - assert (Em : m = Pos.iter xO q j).
        { apply Pos2Z.inj. now rewrite iter_xO_Z. }
        subst m. rewrite digits2_iter_xO. lia. }
    rewrite Hdm, fexp_norm by lia. unfold shl_align.
    replace (prec + j + (e - j) - prec - (e - j)) with j by lia.
    destruct j as [|j|j]; [| |lia].
    + now apply (round_aux_long s q e m 0); [|lia| |].
    + now apply (round_aux_long s q e m (Z.pos j)); [|lia| |].
  - destruct j as [|j|j]; [| |lia].
    + assert (m = q) by lia. subst m.
      rewrite Hd, fexp_norm by lia. unfold shl_align.
      replace (prec + (e + 0) - prec - (e + 0)) with 0 by lia.
      replace (e + 0) with e by lia.
      now apply round_aux_canon; [|lia].
    + assert (Eq : q = Pos.iter xO m j).
      { apply Pos2Z.inj. now rewrite iter_xO_Z. }
      assert (Hdm : Z.pos (digits2_pos m) = prec - Z.pos j).
      { rewrite Eq, digits2_iter_xO in Hd. lia. }
      rewrite Hdm, fexp_norm by lia. unfold shl_align.
      replace (prec - Z.pos j + (e + Z.pos j) - prec - (e + Z.pos j))
        with (Z.neg j) by lia.
      rewrite <- Eq.
      replace (prec - Z.pos j + (e + Z.pos j) - prec) with e by lia.
      now apply round_aux_canon; [|lia].
Qed.

(** A positive integer below [2^prec] as a mantissa of [prec] digits at an
    exponent in [[1 - prec, 0]]. *)
Lemma pos_mantissa p :
  Z.pos p < 2 ^ prec ->
  exists q e, Z.pos (digits2_pos q) = prec /\ 1 - prec <= e <= 0 /\
              Z.pos q = Z.pos p * 2 ^ (- e).
Proof.
  intros Hp. pose proof (digits2_bounds p) as [Hlo Hhi].
  assert (Hd : Z.pos (digits2_pos p) <= prec).
  { destruct (Z_le_gt_dec (Z.pos (digits2_pos p)) prec) as [H|H]; [exact H|].
    assert (2 ^ prec <= 2 ^ (Z.pos (digits2_pos p) - 1))
      by (apply Z.pow_le_mono_r; lia).
    lia. }
  destruct (Z.eq_dec (Z.pos (digits2_pos p)) prec) as [E|E].
  - exists p, 0. split; [exact E|]. split; [lia|]. simpl. lia.
  - exists (Pos.iter xO p (Z.to_pos (prec - Z.pos (digits2_pos p)))),
      (Z.pos (digits2_pos p) - prec).
    split; [rewrite digits2_iter_xO; lia|]. split; [lia|].
    rewrite iter_xO_Z. f_equal. f_equal. lia.
Qed.

(** The number of a non-zero integer below [2^prec]. *)
Lemma int_shape z :
  Z.abs z < 2 ^ prec -> z <> 0 ->
  exists q e, Z.pos (digits2_pos q) = prec /\ 1 - prec <= e <= 0 /\
              Z.pos q = Z.abs z * 2 ^ (- e) /\
              binary_normalize prec emax z 0 false =
              S754_finite (z <? 0) q e.
Proof.
  intros Hz Hnz.
  destruct z as [|p|p]; [congruence| |].
  - destruct (pos_mantissa p ltac:(lia)) as (q & e & Hd & He & Hq).
    exists q, e. split; [exact Hd|]. split; [lia|]. split; [exact Hq|].
    cbn [binary_normalize].
    apply (round_canon false q e p 0 Hd ltac:(lia)).
    right. exists (- e). split; [lia|]. split; [exact Hq|lia].
  - destruct (pos_mantissa p ltac:(lia)) as (q & e & Hd & He & Hq).
    exists q, e. split; [exact Hd|]. split; [lia|]. split; [exact Hq|].
    cbn [binary_normalize].
    apply (round_canon true q e p 0 Hd ltac:(lia)).
    right. exists (- e). split; [lia|]. split; [exact Hq|lia].
Qed.

(** Rounding an integer below [2^prec] given at a finer exponent. *)
Lemma normalize_int z k :
  Z.abs z < 2 ^ prec -> 0 <= k ->
  binary_normalize prec emax (z * 2 ^ k) (- k) false =
  binary_normalize prec emax z 0 false.
Proof.
  intros Hz Hk.
  assert (Hpow : 0 < 2 ^ k) by (apply Z.pow_pos_nonneg; lia).
  destruct (Z.eq_dec z 0) as [->|Hnz]; [reflexivity|].
  destruct (int_shape z Hz Hnz) as (q & e & Hd & He & Hq & E). rewrite E.
  assert (Hcase :
    forall m, Z.pos m = Z.abs z * 2 ^ k ->
    binary_round prec emax (z <? 0) m (- k) = S754_finite (z <? 0) q e).
  { intros m Em. apply (round_canon (z <? 0) q e m (- k) Hd ltac:(lia)).
    destruct (Z_le_gt_dec (- e) k) as [H|H].
    + left. exists (k + e). split; [lia|]. split; [|lia].
      rewrite Hq, Em, <- Z.mul_assoc, <- Z.pow_add_r by lia.
      f_equal. f_equal. lia.
    + right. exists (- e - k). split; [lia|]. split; [|lia].
      rewrite Hq, Em, <- Z.mul_assoc, <- Z.pow_add_r by lia.
      f_equal. f_equal. lia. }
  destruct z as [|p|p]; [congruence| |].
  - destruct (Z.pos p * 2 ^ k) as [|m|m] eqn:Em; [nia| |nia].
    cbn [binary_normalize]. apply (Hcase m). lia.
  - destruct (Z.neg p * 2 ^ k) as [|m|m] eqn:Em; [nia|nia|].
    cbn [binary_normalize]. apply (Hcase m). lia.
Qed.

(** Addition is exact on integers below [2^prec]. *)
Lemma add_int a b :
  Z.abs a < 2 ^ prec -> Z.abs b < 2 ^ prec -> Z.abs (a + b) < 2 ^ prec ->
  SFadd prec emax (binary_normalize prec emax a 0 false)
    (binary_normalize prec emax b 0 false) =
  binary_normalize prec emax (a + b) 0 false.
Proof.
  intros Ha Hb Hab.
  destruct (Z.eq_dec a 0) as [->|Na].
  { destruct (Z.eq_dec b 0) as [->|Nb]; [reflexivity|].
    destruct (int_shape b Hb Nb) as (q & e & _ & _ & _ & E).
    rewrite Z.add_0_l, E. reflexivity. }
  destruct (Z.eq_dec b 0) as [->|Nb].
  { destruct (int_shape a Ha Na) as (q & e & _ & _ & _ & E).
    rewrite Z.add_0_r, E. reflexivity. }
  destruct (int_shape a Ha Na) as (qa & ea & _ & Hea & Hqa & Ea).
  destruct (int_shape b Hb Nb) as (qb & eb & _ & Heb & Hqb & Eb).
  rewrite Ea, Eb. cbn [SFadd].
  set (ez := Z.min ea eb).
  rewrite <- (normalize_int (a + b) (- ez)) by lia.
  rewrite Z.opp_involutive. f_equal.
  rewrite !shl_align_value by lia.
  rewrite Hqa, Hqb, <- !Z.mul_assoc, <- !Z.pow_add_r by lia.
  replace (- ea + (ea - ez)) with (- ez) by lia.
  replace (- eb + (eb - ez)) with (- ez) by lia.
  unfold cond_Zopp.
  destruct (Z.ltb_spec a 0), (Z.ltb_spec b 0); lia.
Qed.

(** Multiplication by a positive integer is exact while the product is
    below [2^prec]. *)
Lemma mul_int a b :
  0 < a < 2 ^ prec -> Z.abs b < 2 ^ prec -> Z.abs (a * b) < 2 ^ prec ->
  SFmul prec emax (binary_normalize prec emax a 0 false)
    (binary_normalize prec emax b 0 false) =
  binary_normalize prec emax (a * b) 0 false.
Proof.
  intros Ha Hb Hab.
  destruct (int_shape a ltac:(lia) ltac:(lia))
    as (qa & ea & Hda & Hea & Hqa & Ea).
  replace (a <? 0) with false in Ea by (symmetry; apply Z.ltb_ge; lia).
  destruct (Z.eq_dec b 0) as [->|Nb].
  { rewrite Z.mul_0_r, Ea. reflexivity. }
  destruct (int_shape b Hb Nb) as (qb & eb & Hdb & Heb & Hqb & Eb).
  assert (Nab : a * b <> 0) by (apply Z.neq_mul_0; lia).
  destruct (int_shape (a * b) Hab Nab) as (q & e & Hd & He & Hq & E).
  rewrite Ea, Eb, E. cbn [SFmul xorb].
  replace (a * b <? 0) with (b <? 0)
    by (destruct (Z.ltb_spec b 0), (Z.ltb_spec (a * b) 0); try reflexivity;
        nia).
  assert (Hprod : Z.pos (qa * qb) = Z.abs (a * b) * 2 ^ (- ea - eb)).
  { rewrite Pos2Z.inj_mul, Hqa, Hqb, Z.abs_mul.
    replace (- ea - eb) with (- ea + - eb) by lia.
    rewrite Z.pow_add_r by lia. ring. }
  assert (Hj : 0 <= e - (ea + eb)).
  { destruct (Z_le_gt_dec 0 (e - (ea + eb))) as [H|H]; [exact H|exfalso].
    pose proof (digits2_bounds qa) as [La _].
    pose proof (digits2_bounds qb) as [Lb _].
    pose proof (digits2_bounds q) as [_ Uq].
    rewrite Hda in La. rewrite Hdb in Lb. rewrite Hd in Uq.
    assert (P1 : 0 < 2 ^ (prec - 1)) by (apply Z.pow_pos_nonneg; lia).
    assert (L : 2 ^ (prec - 1) * 2 ^ (prec - 1) <= Z.pos (qa * qb)).
    { rewrite Pos2Z.inj_mul. apply Z.mul_le_mono_nonneg; lia. }
    rewrite <- Z.pow_add_r in L by lia.
    assert (L2 : 2 ^ prec <= 2 ^ (prec - 1 + (prec - 1)))
      by (apply Z.pow_le_mono_r; lia).
    assert (M : 2 ^ (- ea - eb) <= 2 ^ (- e))
      by (apply Z.pow_le_mono_r; lia).
    assert (U : Z.pos (qa * qb) <= Z.pos q).
    { rewrite Hprod, Hq. apply Z.mul_le_mono_nonneg_l; lia. }
    lia. }
  replace (ea + eb) with (e - (e - (ea + eb))) by lia.
  apply round_aux_long; [exact Hd|lia|exact Hj|].
  rewrite Hprod, Hq, <- Z.mul_assoc, <- Z.pow_add_r by lia.
  f_equal. f_equal. lia.
Qed.
(** Subtraction is exact on integers below [2^prec]. *)
Lemma sub_int a b :
  Z.abs a < 2 ^ prec -> Z.abs b < 2 ^ prec -> Z.abs (a - b) < 2 ^ prec ->
  SFsub prec emax (binary_normalize prec emax a 0 false)
    (binary_normalize prec emax b 0 false) =
  binary_normalize prec emax (a - b) 0 false.
Proof.
  intros Ha Hb Hab.
  destruct (Z.eq_dec b 0) as [->|Nb].
  { rewrite Z.sub_0_r. destruct (Z.eq_dec a 0) as [->|Na]; [reflexivity|].
    destruct (int_shape a Ha Na) as (q & e & _ & _ & _ & E).
    rewrite E. reflexivity. }
  destruct (int_shape b Hb Nb) as (qb & eb & Hdb & Heb & Hqb & Eb).
  destruct (Z.eq_dec a 0) as [->|Na].
  { destruct (int_shape (- b) ltac:(lia) ltac:(lia))
      as (q & e & Hd & He & Hq & E).
    rewrite Eb. cbn [binary_normalize SFsub SFopp]. rewrite Z.sub_0_l, E.
    assert (Ee : e = eb).
    { pose proof (digits2_bounds q) as [L1 U1].
      pose proof (digits2_bounds qb) as [L2 U2].
      rewrite Hd in L1, U1. rewrite Hdb in L2, U2.
      rewrite Z.abs_opp in Hq.
      destruct (Z.lt_trichotomy e eb) as [H|[H|H]]; [exfalso|exact H|exfalso].
      - assert (M : 2 * 2 ^ (- eb) <= 2 ^ (- e)).
        { replace (- e) with (1 + (- eb) + (eb - e - 1)) by lia.
          rewrite !Z.pow_add_r by lia.
          assert (0 < 2 ^ (- eb)) by (apply Z.pow_pos_nonneg; lia).
          assert (1 <= 2 ^ (eb - e - 1))
            by (apply (Z.pow_le_mono_r 2 0); lia).
          nia. }
        assert (0 < 2 ^ (prec - 1)) by (apply Z.pow_pos_nonneg; lia).
        assert (2 ^ prec = 2 * 2 ^ (prec - 1)).
        { replace prec with (1 + (prec - 1)) at 1 by lia.
          rewrite Z.pow_add_r by lia. reflexivity. }
        nia.
      - assert (M : 2 * 2 ^ (- e) <= 2 ^ (- eb)).
        { replace (- eb) with (1 + (- e) + (e - eb - 1)) by lia.
          rewrite !Z.pow_add_r by lia.
          assert (0 < 2 ^ (- e)) by (apply Z.pow_pos_nonneg; lia).
          assert (1 <= 2 ^ (e - eb - 1))
            by (apply (Z.pow_le_mono_r 2 0); lia).
          nia. }
        assert (0 < 2 ^ (prec - 1)) by (apply Z.pow_pos_nonneg; lia).
        assert (2 ^ prec = 2 * 2 ^ (prec - 1)).
        { replace prec with (1 + (prec - 1)) at 1 by lia.
          rewrite Z.pow_add_r by lia. reflexivity. }
        nia. }
    subst e. assert (q = qb) by (rewrite Z.abs_opp in Hq; lia). subst q.
    f_equal. destruct (Z.ltb_spec b 0), (Z.ltb_spec (- b) 0);
      try reflexivity; lia. }
  destruct (int_shape a Ha Na) as (qa & ea & _ & Hea & Hqa & Ea).
  rewrite Ea, Eb. cbn [SFsub].
  set (ez := Z.min ea eb).
  rewrite <- (normalize_int (a - b) (- ez)) by lia.
  rewrite Z.opp_involutive. f_equal.
  rewrite !shl_align_value by lia.
  rewrite Hqa, Hqb, <- !Z.mul_assoc, <- !Z.pow_add_r by lia.
  replace (- ea + (ea - ez)) with (- ez) by lia.
  replace (- eb + (eb - ez)) with (- ez) by lia.
  unfold cond_Zopp.
  destruct (Z.ltb_spec a 0), (Z.ltb_spec b 0); lia.
Qed.

(** Mantissas of [prec] digits are ordered as the numbers they stand
    for: by the exponent first. *)
Lemma shape_order a b qa ea qb eb :
  Z.pos (digits2_pos qa) = prec -> Z.pos (digits2_pos qb) = prec ->
  ea <= 0 -> eb <= 0 ->
  Z.pos qa = a * 2 ^ (- ea) -> Z.pos qb = b * 2 ^ (- eb) ->
  a < b -> ea < eb \/ (ea = eb /\ Z.pos qa < Z.pos qb).
Proof.
  intros Hda Hdb Hea Heb Hqa Hqb Hab.
  pose proof (digits2_bounds qa) as [La Ua].
  pose proof (digits2_bounds qb) as [Lb Ub].
  rewrite Hda in La, Ua. rewrite Hdb in Lb, Ub.
  assert (Pa : 0 < 2 ^ (- ea)) by (apply Z.pow_pos_nonneg; lia).
  assert (Pb : 0 < 2 ^ (- eb)) by (apply Z.pow_pos_nonneg; lia).
  assert (Hp : 2 ^ prec = 2 * 2 ^ (prec - 1)).
  { replace prec with (1 + (prec - 1)) at 1 by lia.
    rewrite Z.pow_add_r by lia. reflexivity. }
  assert (A0 : 0 < a) by nia.
  destruct (Z.lt_trichotomy ea eb) as [H|[H|H]].
  - left. exact H.
  - right. split; [exact H|]. subst eb. rewrite Hqa, Hqb.
    apply Z.mul_lt_mono_pos_r; assumption.
  - exfalso.
    assert (M : 2 * 2 ^ (- ea) <= 2 ^ (- eb)).
    { replace (- eb) with (1 + (- ea) + (ea - eb - 1)) by lia.
      rewrite !Z.pow_add_r by lia.
      assert (1 <= 2 ^ (ea - eb - 1)) by (apply (Z.pow_le_mono_r 2 0); lia).
      nia. }
    assert (Z.pos qa * 2 <= Z.pos qb); [|lia].
    rewrite Hqa, Hqb.
    apply Z.le_trans with (a * 2 ^ (- eb)); [nia|].
    apply Z.mul_le_mono_nonneg_r; lia.
Qed.

(** The order of the integers below [2^prec] is that of their numbers. *)
Lemma ltb_int a b :
  Z.abs a < 2 ^ prec -> Z.abs b < 2 ^ prec -> a < b ->
  SFltb (binary_normalize prec emax a 0 false)
    (binary_normalize prec emax b 0 false) = true.
Proof.
  intros Ha Hb Hab. unfold SFltb.
  destruct (Z.eq_dec a 0) as [->|Na].
  { destruct (int_shape b Hb ltac:(lia)) as (qb & eb & _ & _ & _ & Eb).
    rewrite Eb. replace (b <? 0) with false
      by (symmetry; apply Z.ltb_ge; lia).
    reflexivity. }
  destruct (int_shape a Ha Na) as (qa & ea & Hda & Hea & Hqa & Ea).
  rewrite Ea.
  destruct (Z.eq_dec b 0) as [->|Nb].
  { replace (a <? 0) with true by (symmetry; apply Z.ltb_lt; lia).
    reflexivity. }
  destruct (int_shape b Hb Nb) as (qb & eb & Hdb & Heb & Hqb & Eb).
  rewrite Eb. cbn [SFcompare].
  destruct (Z.ltb_spec a 0) as [Sa|Sa], (Z.ltb_spec b 0) as [Sb|Sb];
    try reflexivity; try lia.
  - destruct (shape_order (Z.abs b) (Z.abs a) qb eb qa ea Hdb Hda
                ltac:(lia) ltac:(lia) Hqb Hqa ltac:(lia)) as [H|[H Hq]].
    + replace (ea ?= eb) with Gt by (symmetry; apply Z.compare_gt_iff; lia).
      reflexivity.
    + subst eb. rewrite Z.compare_refl.
      change (PosDef.Pos.compare_cont Eq qa qb) with (Pos.compare qa qb).
      replace (Pos.compare qa qb) with Gt
        by (symmetry; apply Pos.compare_gt_iff; lia).
      reflexivity.
  - destruct (shape_order (Z.abs a) (Z.abs b) qa ea qb eb Hda Hdb
                ltac:(lia) ltac:(lia) Hqa Hqb ltac:(lia)) as [H|[H Hq]].
    + replace (ea ?= eb) with Lt by (symmetry; apply Z.compare_lt_iff; lia).
      reflexivity.
    + subst eb. rewrite Z.compare_refl.
      change (PosDef.Pos.compare_cont Eq qa qb) with (Pos.compare qa qb).
      replace (Pos.compare qa qb) with Lt
        by (symmetry; apply Pos.compare_lt_iff; lia).
      reflexivity.
Qed.

End ExactInt.

Lemma F64_add_of_int a b :
  Z.abs a < 2 ^ 53 -> Z.abs b < 2 ^ 53 -> Z.abs (a + b) < 2 ^ 53 ->
  F64.add (F64.of_int a) (F64.of_int b) = F64.of_int (a + b).
Proof. apply (add_int 53 1024); lia. Qed.

Lemma F64_mul_of_int a b :
  0 < a < 2 ^ 53 -> Z.abs b < 2 ^ 53 -> Z.abs (a * b) < 2 ^ 53 ->
  F64.mul (F64.of_int a) (F64.of_int b) = F64.of_int (a * b).
Proof. apply (mul_int 53 1024); lia. Qed.

Lemma F32_sub_of_int a b :
  Z.abs a < 2 ^ 24 -> Z.abs b < 2 ^ 24 -> Z.abs (a - b) < 2 ^ 24 ->
  F32.sub (F32.of_int a) (F32.of_int b) = F32.of_int (a - b).
Proof. apply (sub_int 24 128); lia. Qed.

Lemma F32_mul_of_int a b :
  0 < a < 2 ^ 24 -> Z.abs b < 2 ^ 24 -> Z.abs (a * b) < 2 ^ 24 ->
  F32.mul (F32.of_int a) (F32.of_int b) = F32.of_int (a * b).
Proof. apply (mul_int 24 128); lia. Qed.

Lemma F32_ltb_of_int a b :
  Z.abs a < 2 ^ 24 -> Z.abs b < 2 ^ 24 -> a < b ->
  F32.ltb (F32.of_int a) (F32.of_int b) = true.
Proof. apply (ltb_int 24 128); lia. Qed.

(** [strcmp] returns zero on equal strings only. *)
Lemma strcmp_eqb s t : (strcmp s t =? 0) = String.eqb s t.
Proof.
  unfold strcmp. destruct (String.eqb_spec s t) as [->|N].
  - pose proof (String.compare_antisym t t) as H.
    destruct (String.compare t t); [reflexivity|discriminate|discriminate].
  - destruct (String.compare s t) eqn:E; try reflexivity.
    apply String.compare_eq_iff in E. contradiction.
Qed.

(** ** [sdr_shift_freq] *)

(** X19.  [sdr_shift_freq] shifts exactly: for an IF frequency that is a
    whole number [f] of Hz below [2^53] in magnitude, and a sum that stays
    below [2^53], the result is the number [f + 562500 fcn] for the signal
    G1CA and [f + 437500 fcn] for G2CA, with no rounding; for any other
    signal the frequency is returned as it is, whatever it is. *)
Theorem sdr_shift_freq_exact (sig : String.string) (fcn f : Z) :
  - 2 ^ 31 <= fcn < 2 ^ 31 -> Z.abs f < 2 ^ 53 ->
  Z.abs (f + fdma_step sig * fcn) < 2 ^ 53 ->
  sdr_shift_freq sig fcn (F64.of_int f) =
  F64.of_int (f + fdma_step sig * fcn) /\
  (fdma_step sig = 0 -> forall fi, sdr_shift_freq sig fcn fi = fi).
Proof.
  intros Hfcn Hf Hsum. unfold sdr_shift_freq, fdma_step in *.
  rewrite !strcmp_eqb.
  destruct (String.eqb sig "G1CA"); [|destruct (String.eqb sig "G2CA")].
  - split; [|discriminate].
    rewrite F64_mul_of_int by lia. apply F64_add_of_int; lia.
  - split; [|discriminate].
    rewrite F64_mul_of_int by lia. apply F64_add_of_int; lia.
  - split; [|reflexivity]. f_equal. lia.
Qed.

(** ** [sdr_dop_bins] on whole numbers *)

(** X20.  When the step [DOP_STEP / T], as a [float], is a whole number
    [s > 0], and [dop] and [max_dop] are the whole numbers [d] and [m],
    with [|d - m| + len_fds * s < 2^24], the bins of [sdr_dop_bins] are
    exactly the numbers [d - m + i s], and each bin is below the next. *)
Theorem sdr_dop_bins_exact (T : double) (d m s : Z) :
  float_of_double (F64.div DOP_STEP T) = F32.of_int s -> 0 < s ->
  let r := sdr_dop_bins T (F32.of_int d) (F32.of_int m) in
  Z.abs d < 2 ^ 24 -> Z.abs m < 2 ^ 24 ->
  Z.abs (d - m) + snd r * s < 2 ^ 24 ->
  (forall i, 0 <= i < snd r ->
     nth (Z.to_nat i) (fst r) F32.zero = F32.of_int (d - m + i * s)) /\
  (forall i, 0 <= i -> i + 1 < snd r ->
     F32.ltb (nth (Z.to_nat i) (fst r) F32.zero)
       (nth (Z.to_nat (i + 1)) (fst r) F32.zero) = true).
Proof.
  intros Hstep Hs r Hd Hm. unfold r, sdr_dop_bins. rewrite Hstep.
  cbv zeta. cbn [fst snd].
  set (K := int_of_double _ + 1). intros HK.
  assert (Hcell : forall i, 0 <= i < K ->
    nth (Z.to_nat i)
      (map (fun i => F32.add (F32.sub (F32.of_int d) (F32.of_int m))
                       (F32.mul (F32.of_int i) (F32.of_int s)))
         (rangeZ 0 K)) F32.zero = F32.of_int (d - m + i * s) /\
    Z.abs (d - m + i * s) < 2 ^ 24).
  { intros i Hi. rewrite nth_map_rangeZ by lia.
    assert (B1 : 0 <= i * s) by (apply Z.mul_nonneg_nonneg; lia).
    assert (B2 : i * s <= K * s) by (apply Z.mul_le_mono_nonneg_r; lia).
    assert (B3 : i <= i * s) by nia.
    assert (B4 : s <= K * s) by nia.
    split; [|lia].
    rewrite F32_sub_of_int by lia.
    unfold F32.mul. rewrite SFmul_comm. fold F32.mul.
    rewrite F32_mul_of_int by (try split; lia).
    rewrite F32_add_of_int by lia. f_equal. lia. }
  split.
  - intros i Hi. apply Hcell, Hi.
  - intros i Hi0 Hi1.
    destruct (Hcell i ltac:(lia)) as [E1 B1].
    destruct (Hcell (i + 1) ltac:(lia)) as [E2 B2].
    refine (eq_trans (f_equal2 F32.ltb E1 E2) _).
    apply F32_ltb_of_int; lia.
Qed.

(** ** Examples *)

Lemma sdr_shift_freq_exact_witness :
  sdr_shift_freq "G1CA"%string (-7) (F64.of_int 1602000000) =
  F64.of_int (1602000000 + fdma_step "G1CA"%string * -7).
Proof.
  refine (proj1 (sdr_shift_freq_exact "G1CA"%string (-7) 1602000000 _ _ _)).
  - lia.
  - lia.
  - vm_compute. reflexivity.
Defined.

Lemma sdr_dop_bins_exact_witness :
  nth (Z.to_nat 3) (fst (sdr_dop_bins ms (F32.of_int 0) (F32.of_int 5000)))
    F32.zero = F32.of_int (0 - 5000 + 3 * 500).
Proof.
  refine (proj1 (sdr_dop_bins_exact ms 0 5000 500 _ _ _ _ _) 3 _).
  - vm_compute. reflexivity.
  - lia.
  - lia.
  - lia.
  - vm_compute. reflexivity.
  - vm_compute. split; [discriminate|reflexivity].
Defined.
